(** * JapanStockAnalyzer: job orchestration and resilience layer

    A shallow embedding of the TypeScript sources of the J-Quants sync
    pipeline: the batch writer ([lib/utils/batch.ts]), the trading
    calendar classifier ([lib/jquants/endpoints/trading-calendar.ts]),
    the Cron B route ([app/api/cron/jquants/b/route.ts]), and the job
    ledger, job lock, heartbeat and API client modules.

    Conventions.
    - An awaited call either resolves to a value or rejects; this is
      [Js.Outcome].
    - Loops whose termination depends on run-time values carry a fuel
      argument and answer [None] when it runs out.
    - Timestamps are milliseconds since the epoch, in [Z].
    - Tables are finite maps keyed by their primary key. *)

From Stdlib Require Import ZArith QArith Qround Lia Ascii DecimalString Sorted.
From stdpp Require Import gmap strings list.

Set Warnings "-abstract-large-number".

(** ** JavaScript odds and ends *)

Module Js.

(** Result of awaiting a promise: resolved with a value, or rejected
    (an exception at the [await]) with an error message. *)
Inductive Outcome (A : Type) : Type :=
| Ret (a : A)
| Throw (message : string).
Arguments Ret {A} a.
Arguments Throw {A} message.

(** [Array.prototype.slice(start, end)] for in-range, non-negative
    integer bounds. *)
Definition slice {T : Type} (start end_ : nat) (array : list T) : list T :=
  take (end_ - start) (drop start array).

(** Template-literal rendering of a non-negative integer. *)
Definition show_nat (n : nat) : string :=
  NilEmpty.string_of_uint (Nat.to_uint n).

(** [a ?? b] *)
Definition nullish {A : Type} (a : option A) (b : A) : A :=
  match a with Some x => x | None => b end.

End Js.

(** ** lib/utils/batch.ts *)

Module Batch.
Import Js.

(** [chunkArray]: [for (let i = 0; i < array.length; i += size)
    chunks.push(array.slice(i, i + size))].  The loop does not
    terminate for [size = 0] on a non-empty array, hence the fuel. *)
Fixpoint chunkArray_loop {T : Type} (fuel : nat) (array : list T)
    (size i : nat) (chunks : list (list T)) : option (list (list T)) :=
  if length array <=? i then Some chunks
  else match fuel with
       | O => None
       | S fuel' =>
           chunkArray_loop fuel' array size (i + size)
             (chunks ++ [slice i (i + size) array])
       end.

(** What [size] can be at run time.  Callers pass a number; but
    [batchUpsert] reads its batch size from the object literal
    [BATCH_SIZES], and for a table name that is a property of
    [Object.prototype] that lookup finds the inherited function or
    object instead of [undefined]. *)
Inductive SizeValue : Type :=
| Count (n : nat)
| Inherited (key : string).

Coercion Count : nat >-> SizeValue.

(** [chunkArray(array, size)].  With a [size] that is a function or an
    object, [i + size] is a string: [array.slice(0, '0function ...')]
    is [array.slice(0, NaN)], the empty array, and after [i += size]
    the test [i < array.length] compares a non-numeric string with a
    number and is false.  So a non-empty array gives one empty chunk. *)
Definition chunkArray {T : Type} (array : list T) (size : SizeValue)
    : option (list (list T)) :=
  match size with
  | Count n => chunkArray_loop (length array) array n 0 []
  | Inherited _ => Some (if length array =? 0 then [] else [[]])
  end.

(** [BATCH_SIZES]: per-table chunk sizes, and the fallback. *)
Definition BATCH_SIZES : gmap string nat :=
  list_to_map
    [ ("equity_bar_daily", 1000);
      ("equity_master_snapshot", 500);
      ("equity_master", 500);
      ("investor_type_trading", 2000);
      ("financial_disclosure", 500);
      ("earnings_calendar", 1000);
      ("trading_calendar", 2000);
      ("topix_bar_daily", 2000) ].

Definition DEFAULT_BATCH_SIZE : nat := 500.

(** [table.split('.').pop()]: the text after the last dot.  [split]
    never returns an empty array, so the [?? table] fallback of the
    source is unreachable. *)
Fixpoint last_segment_from (segment s : string) : string :=
  match s with
  | EmptyString => segment
  | String c s' =>
      if Ascii.eqb c "."%char then last_segment_from "" s'
      else last_segment_from (segment +:+ String c "") s'
  end.

Definition last_segment (table : string) : string :=
  last_segment_from "" table.

(** What PostgREST answers to one [upsert(chunk, {onConflict, count})]:
    [{ error, count }], [error] carrying its [message]. *)
Record UpsertResponse : Type := {
  error : option string;
  count : option nat;
}.

(** The part of [SupabaseClient] that [batchUpsert] touches.  The first
    argument numbers the calls made so far by this [batchUpsert] (a
    backend may answer each call differently); the awaited promise may
    also reject. *)
Record SupabaseClient (T : Type) : Type := {
  upsert : nat → string → list T → string → Outcome UpsertResponse;
}.
Arguments upsert {T} _ _ _ _ _.

Record BatchUpsertOptions : Type := {
  batchSize : option nat;
  continueOnError : option bool;
  onBatchComplete : option (nat → nat → nat → Outcome unit);
}.

Record BatchUpsertResult : Type := {
  inserted : nat;
  errors : list string;
  batchCount : nat;
}.

(** Observable calls, in program order. *)
Inductive Event (T : Type) : Type :=
| EvUpsert (table : string) (chunk : list T) (onConflict : string)
| EvBatchComplete (batchIndex insertedSoFar total : nat).
Arguments EvUpsert {T} table chunk onConflict.
Arguments EvBatchComplete {T} batchIndex insertedSoFar total.

(** The mutable locals of the loop, plus the calls made. *)
Record LoopState (T : Type) : Type := {
  st_inserted : nat;
  st_errors : list string;
  st_trace : list (Event T);
}.
Arguments st_inserted {T} _.
Arguments st_errors {T} _.
Arguments st_trace {T} _.

Section BatchUpsert.
Context {T : Type}.
Variable supabase : SupabaseClient T.
Variable table : string.
Variable onConflict : string.
Variable options : option BatchUpsertOptions.
(** [continueOnError], [chunks.length] and [data.length] as the loop
    sees them. *)
Variable continue_on_error : bool.
Variable n_chunks : nat.
Variable total : nat.

Definition log_event (e : Event T) (st : LoopState T) : LoopState T :=
  {| st_inserted := st_inserted st; st_errors := st_errors st;
     st_trace := st_trace st ++ [e] |}.

Definition push_error (e : string) (st : LoopState T) : LoopState T :=
  {| st_inserted := st_inserted st; st_errors := st_errors st ++ [e];
     st_trace := st_trace st |}.

Definition add_inserted (k : nat) (st : LoopState T) : LoopState T :=
  {| st_inserted := st_inserted st + k; st_errors := st_errors st;
     st_trace := st_trace st |}.

Definition batch_error_message (i : nat) (message : string) : string :=
  "Batch " +:+ show_nat (i + 1) +:+ "/" +:+ show_nat n_chunks
    +:+ " failed: " +:+ message.

(** [if (options?.onBatchComplete) options.onBatchComplete(i + 1,
    inserted, data.length)]; the second component is the exception
    thrown, if any. *)
Definition notify (i : nat) (st : LoopState T)
    : LoopState T * option string :=
  match options ≫= onBatchComplete with
  | None => (st, None)
  | Some callback =>
      let st' := log_event (EvBatchComplete (i + 1) (st_inserted st) total) st in
      match callback (i + 1) (st_inserted st) total with
      | Ret _ => (st', None)
      | Throw e => (st', Some e)
      end
  end.

(** The [try] block of one iteration. *)
Definition try_chunk (i : nat) (chunk : list T) (st : LoopState T)
    : LoopState T * option string :=
  let st1 := log_event (EvUpsert table chunk onConflict) st in
  match upsert supabase i table chunk onConflict with
  | Throw e => (st1, Some e)
  | Ret response =>
      match error response with
      | Some message =>
          let batchError := batch_error_message i message in
          let st2 := push_error batchError st1 in
          if negb continue_on_error then (st2, Some batchError)
          else notify i st2
      | None =>
          notify i (add_inserted (nullish (count response) (length chunk)) st1)
      end
  end.

(** One iteration: the [try] block and its [catch]. *)
Definition iteration (i : nat) (chunk : list T) (st : LoopState T)
    : LoopState T * option string :=
  match try_chunk i chunk st with
  | (st', None) => (st', None)
  | (st', Some e) =>
      if negb continue_on_error then (st', Some e)
      else (push_error e st', None)
  end.

(** [for (let i = 0; i < chunks.length; i++)], from index [i] on. *)
Fixpoint batchUpsert_loop (i : nat) (rest : list (list T))
    (st : LoopState T) : LoopState T * option string :=
  match rest with
  | [] => (st, None)
  | chunk :: rest' =>
      match iteration i chunk st with
      | (st', Some e) => (st', Some e)
      | (st', None) => batchUpsert_loop (S i) rest' st'
      end
  end.

End BatchUpsert.

(** The properties that an object literal inherits from
    [Object.prototype]; each is a function, [__proto__] an object. *)
Definition OBJECT_PROTOTYPE_KEYS : list string :=
  [ "constructor"; "hasOwnProperty"; "isPrototypeOf";
    "propertyIsEnumerable"; "toLocaleString"; "toString"; "valueOf";
    "__proto__"; "__defineGetter__"; "__defineSetter__";
    "__lookupGetter__"; "__lookupSetter__" ].

(** [BATCH_SIZES[tableName]]: an own entry, an inherited property, or
    [undefined]. *)
Definition lookup_batch_size (tableName : string) : option SizeValue :=
  match BATCH_SIZES !! tableName with
  | Some n => Some (Count n)
  | None =>
      if bool_decide (tableName ∈ OBJECT_PROTOTYPE_KEYS)
      then Some (Inherited tableName)
      else None
  end.

(** [options?.batchSize ?? BATCH_SIZES[tableName] ?? DEFAULT_BATCH_SIZE] *)
Definition effective_batch_size (table : string)
    (options : option BatchUpsertOptions) : SizeValue :=
  let tableName := last_segment table in
  nullish (Count <$> (options ≫= batchSize))
    (nullish (lookup_batch_size tableName) (Count DEFAULT_BATCH_SIZE)).

Definition effective_continue (options : option BatchUpsertOptions) : bool :=
  nullish (options ≫= continueOnError) false.

(** [batchUpsert].  The answer is the promise's outcome together with
    the calls made; [None] stands for a run that never returns (a zero
    batch size). *)
Definition batchUpsert {T : Type} (supabase : SupabaseClient T)
    (table : string) (data : list T) (onConflict : string)
    (options : option BatchUpsertOptions)
    : option (Outcome BatchUpsertResult * list (Event T)) :=
  if length data =? 0 then
    Some (Ret {| inserted := 0; errors := []; batchCount := 0 |}, [])
  else
    let batchSize := effective_batch_size table options in
    let continueOnError := effective_continue options in
    chunks ← chunkArray data batchSize;
    let '(st, thrown) :=
      batchUpsert_loop supabase table onConflict options continueOnError
        (length chunks) (length data) 0 chunks
        {| st_inserted := 0; st_errors := []; st_trace := [] |} in
    Some (match thrown with
          | Some e => Throw e
          | None => Ret {| inserted := st_inserted st;
                           errors := st_errors st;
                           batchCount := length chunks |}
          end, st_trace st).

(** The chunks handed to [upsert], in call order. *)
Definition upsert_calls {T : Type} (trace : list (Event T)) : list (list T) :=
  omap (λ e, match e with
             | EvUpsert _ chunk _ => Some chunk
             | EvBatchComplete _ _ _ => None
             end) trace.

(** The progress callback, when there is one, never throws. *)
Definition callback_total (options : option BatchUpsertOptions) : Prop :=
  ∀ callback, options ≫= onBatchComplete = Some callback →
    ∀ i k t, callback i k t = Ret ().

(** The backends and options of the unit tests. *)
Definition echo_backend : SupabaseClient nat :=
  {| upsert := λ _ _ chunk _, Ret {| error := None; count := Some (length chunk) |} |}.

Definition failing_backend : SupabaseClient nat :=
  {| upsert := λ _ _ _ _, Ret {| error := Some "DB Error"; count := None |} |}.

Definition size_option (k : nat) (c : option bool) : option BatchUpsertOptions :=
  Some {| batchSize := Some k; continueOnError := c; onBatchComplete := None |}.

Definition thousand_backend : SupabaseClient nat :=
  {| upsert := λ _ _ _ _, Ret {| error := None; count := Some 1000 |} |}.

End Batch.

(** ** lib/jquants/endpoints/trading-calendar.ts *)

Module TradingCalendar.

(** [isBusinessDay]: [holDiv === '1' || holDiv === '2']
    (0 = non-trading day, 1 = trading day, 2 = half-day session). *)
Definition isBusinessDay (holDiv : string) : bool :=
  String.eqb holDiv "1" || String.eqb holDiv "2".

(** API item and stored row of the trading calendar. *)
Record TradingCalendarItem : Type := {
  Date : string;
  HolDiv : string;
}.

Record TradingCalendarRecord : Type := {
  calendar_date : string;
  hol_div : string;
  is_business_day : bool;
}.

Definition toTradingCalendarRecord (item : TradingCalendarItem)
    : TradingCalendarRecord :=
  {| calendar_date := Date item;
     hol_div := HolDiv item;
     is_business_day := isBusinessDay (HolDiv item) |}.

End TradingCalendar.

(** ** app/api/cron/jquants/b/route.ts *)

Module CronB.
Import Js.

Definition JOB_NAME : string := "cron_b".
Definition LOCK_TTL_SECONDS : nat := 60.

(** JavaScript truthiness of a string that may be [undefined]. *)
Definition truthy (s : option string) : bool :=
  match s with
  | Some s => negb (String.eqb s "")
  | None => false
  end.

(** [{ success, token?, error? }] of [acquireLock]. *)
Record LockResult : Type := {
  success : bool;
  token : option string;
  lock_error : option string;
}.

(** [{ runId, error? }] of [startJobRun]. *)
Record StartResult : Type := {
  runId : string;
  start_error : option string;
}.

(** What the route reads of [CronBResult]. *)
Record CronBResult : Type := {
  handler_success : bool;
  announcementDate : option string;
  fetched : nat;
  handler_inserted : nat;
  handler_error : option string;
}.

Inductive JobStatus : Type := Running | Success | Failed.

(** The JSON bodies the route builds. *)
Inductive Body : Type :=
| BodyUnauthorized
| BodyLockBusy (detail : option string)
| BodyAlreadyExecuted (detail : option string)
| BodyResult (run : string) (result : CronBResult)
| BodyInternalError (detail : option string) (run : option string).

Record Response : Type := {
  status : nat;
  body : Body;
}.

(** [body.error] of a response. *)
Definition body_error (b : Body) : option string :=
  match b with
  | BodyUnauthorized => Some "Unauthorized"
  | BodyLockBusy _ => Some "Another job is running"
  | BodyAlreadyExecuted _ => Some "Job already executed"
  | BodyResult _ result => handler_error result
  | BodyInternalError _ _ => Some "Internal server error"
  end.

(** Calls to the collaborators, in program order. *)
Inductive Event : Type :=
| EvAcquireLock (jobName : string) (ttlSeconds : nat)
| EvStartJobRun (jobName : string)
| EvUpdateHeartbeat (jobName : string) (st : JobStatus) (run : string)
    (error : option string)
| EvHandleCronB (run : string)
| EvCompleteJobRun (run : string) (st : JobStatus) (error : option string)
| EvReleaseLock (jobName : string) (lockToken : option string).

Section Route.
(** Everything outside the process: database, upstream API, clock. *)
Variable World : Type.

(** The collaborators of the route.  Each awaited call may change the
    world and either resolves or rejects. *)
Record Env : Type := {
  requireCronAuth : option Response;
  createAdminClient : Outcome unit;
  acquireLock : World → string → nat → Outcome LockResult * World;
  startJobRun : World → string → Outcome StartResult * World;
  updateHeartbeat :
    World → string → JobStatus → string → option string → Outcome unit * World;
  handleCronB : World → string → Outcome CronBResult * World;
  completeJobRun :
    World → string → JobStatus → option string → Outcome unit * World;
  releaseLock : World → string → option string → Outcome unit * World;
  (** [process.env.NODE_ENV === 'development'] *)
  isDev : bool;
}.

(** State threaded through the handler: the world, the calls made, and
    the local [let runId]. *)
Record State : Type := {
  world : World;
  trace : list Event;
  local_runId : string;
}.

Definition M (A : Type) : Type := State → Outcome A * State.

Definition ret {A : Type} (a : A) : M A := λ st, (Ret a, st).

Definition bind {A B : Type} (m : M A) (k : A → M B) : M B :=
  λ st, match m st with
        | (Ret a, st') => k a st'
        | (Throw e, st') => (Throw e, st')
        end.

Notation "'let!' x ':=' m 'in' k" := (bind m (λ x, k))
  (at level 10, x name, m at level 100, k at level 200).
Notation "m '>>>' k" := (bind m (λ _, k))
  (at level 90, right associativity).

(** [await f(...)]: record the call and run it against the world. *)
Definition call {A : Type} (e : Event) (f : World → Outcome A * World) : M A :=
  λ st, let '(r, w) := f (world st) in
        (r, {| world := w; trace := trace st ++ [e];
               local_runId := local_runId st |}).

Definition set_runId (r : string) : M unit :=
  λ st, (Ret (), {| world := world st; trace := trace st; local_runId := r |}).

Definition get_runId : M string := λ st, (Ret (local_runId st), st).

(** [try { m } catch (error) { handler(message) }] *)
Definition try_catch {A : Type} (m : M A) (handler : string → M A) : M A :=
  λ st, match m st with
        | (Ret a, st') => (Ret a, st')
        | (Throw e, st') => handler e st'
        end.

(** [try { m } finally { cleanup }]: the cleanup always runs; its own
    exception, if any, replaces the completion of [m]. *)
Definition try_finally {A : Type} (m : M A) (cleanup : M unit) : M A :=
  λ st, let '(r, st') := m st in
        match cleanup st' with
        | (Ret _, st'') => (r, st'')
        | (Throw e, st'') => (Throw e, st'')
        end.

(** [await Promise.allSettled([a, b])]: both run, neither rejection
    escapes. *)
Definition allSettled2 (a b : M unit) : M unit :=
  try_catch a (λ _, ret ()) >>> try_catch b (λ _, ret ()).

Definition json (code : nat) (b : Body) : M Response :=
  ret {| status := code; body := b |}.

Definition final_status (result : CronBResult) : JobStatus :=
  if handler_success result then Success else Failed.

Variable env : Env.

(** The [try] block: steps 3 to 8. *)
Definition try_block : M Response :=
  let! startResult := call (EvStartJobRun JOB_NAME) (λ w, startJobRun env w JOB_NAME) in
  if truthy (start_error startResult) then
    json 200 (BodyAlreadyExecuted (start_error startResult))
  else
    set_runId (runId startResult) >>>
    let! run := get_runId in
    call (EvUpdateHeartbeat JOB_NAME Running run None)
         (λ w, updateHeartbeat env w JOB_NAME Running run None) >>>
    let! result := call (EvHandleCronB run) (λ w, handleCronB env w run) in
    call (EvCompleteJobRun run (final_status result) (handler_error result))
         (λ w, completeJobRun env w run (final_status result)
                 (handler_error result)) >>>
    call (EvUpdateHeartbeat JOB_NAME (final_status result) run
            (handler_error result))
         (λ w, updateHeartbeat env w JOB_NAME (final_status result) run
                 (handler_error result)) >>>
    json 200 (BodyResult run result).

(** The [catch] block. *)
Definition catch_block (errorMessage : string) : M Response :=
  let! run := get_runId in
  (if truthy (Some run) then
     allSettled2
       (call (EvCompleteJobRun run Failed (Some errorMessage))
             (λ w, completeJobRun env w run Failed (Some errorMessage)))
       (call (EvUpdateHeartbeat JOB_NAME Failed run (Some errorMessage))
             (λ w, updateHeartbeat env w JOB_NAME Failed run
                     (Some errorMessage)))
   else ret ()) >>>
  json 500 (BodyInternalError
              (if isDev env then Some errorMessage else None)
              (if truthy (Some run) then Some run else None)).

(** The [finally] block: release the lock, swallow a failing release. *)
Definition finally_block (lockToken : option string) : M unit :=
  try_catch
    (call (EvReleaseLock JOB_NAME lockToken)
          (λ w, releaseLock env w JOB_NAME lockToken))
    (λ _, ret ()).

Definition POST : M Response :=
  match requireCronAuth env with
  | Some authError => ret authError
  | None =>
      match createAdminClient env with
      | Throw e => λ st, (Throw e, st)
      | Ret _ =>
          let! lockResult := call (EvAcquireLock JOB_NAME LOCK_TTL_SECONDS)
                            (λ w, acquireLock env w JOB_NAME LOCK_TTL_SECONDS) in
          if negb (success lockResult) then
            json 409 (BodyLockBusy (lock_error lockResult))
          else
            let lockToken := token lockResult in
            set_runId "" >>>
            try_finally (try_catch try_block catch_block)
                        (finally_block lockToken)
      end
  end.

End Route.

Arguments requireCronAuth {World} _.
Arguments createAdminClient {World} _.
Arguments acquireLock {World} _ _ _ _.
Arguments startJobRun {World} _ _ _.
Arguments updateHeartbeat {World} _ _ _ _ _ _.
Arguments handleCronB {World} _ _ _.
Arguments completeJobRun {World} _ _ _ _ _.
Arguments releaseLock {World} _ _ _ _.
Arguments isDev {World} _.
Arguments world {World} _.
Arguments trace {World} _.
Arguments local_runId {World} _.
Arguments POST {World} env _.
Arguments ret {World A} a _.
Arguments bind {World A B} m k _.
Arguments call {World A} e f _.
Arguments set_runId {World} r _.
Arguments get_runId {World} _.
Arguments try_catch {World A} m handler _.
Arguments try_finally {World A} m cleanup _.
Arguments allSettled2 {World} a b _.
Arguments json {World} code b _.
Arguments try_block {World} env _.
Arguments catch_block {World} env errorMessage _.
Arguments finally_block {World} env lockToken _.

Definition initial {World : Type} (w : World) : State World :=
  {| world := w; trace := []; local_runId := "" |}.

(** The same collaborators with another [releaseLock]. *)
Definition with_releaseLock {World : Type} (env : Env World)
    (release : World → string → option string → Outcome unit * World)
    : Env World :=
  {| requireCronAuth := requireCronAuth env;
     createAdminClient := createAdminClient env;
     acquireLock := acquireLock env;
     startJobRun := startJobRun env;
     updateHeartbeat := updateHeartbeat env;
     handleCronB := handleCronB env;
     completeJobRun := completeJobRun env;
     releaseLock := release;
     isDev := isDev env |}.

Definition is_release (e : Event) : bool :=
  match e with
  | EvReleaseLock _ _ => true
  | _ => false
  end.

(** A computation that never calls [releaseLock]. *)
Definition quiet {World A : Type} (m : M World A) : Prop :=
  ∀ st, ∃ added,
    trace (m st).2 = trace st ++ added
    ∧ Forall (λ e, is_release e = false) added.

(** A computation that never throws. *)
Definition returns {World A : Type} (m : M World A) : Prop :=
  ∀ st, ∃ a, (m st).1 = Ret a.

(** A world for the examples: nothing to remember. *)
Definition quiet_world_env (start : Outcome StartResult)
    (handle : Outcome CronBResult) (release : Outcome unit) : Env unit :=
  {| requireCronAuth := None;
     createAdminClient := Ret ();
     acquireLock := λ w _ _,
       (Ret {| success := true; token := Some "tok"; lock_error := None |}, w);
     startJobRun := λ w _, (start, w);
     updateHeartbeat := λ w _ _ _ _, (Ret (), w);
     handleCronB := λ w _, (handle, w);
     completeJobRun := λ w _ _ _, (Ret (), w);
     releaseLock := λ w _ _, (release, w);
     isDev := false |}.

End CronB.

(** ** lib/supabase/errors.ts and the PostgreSQL error codes the cron
    modules test for *)

Module Pg.

(** [{ code, message }] of a PostgREST error. *)
Record PgError : Type := {
  code : string;
  message : string;
}.

(** [POSTGREST_ERROR_CODES.NO_ROWS_RETURNED]: [.single()] matched no
    row. *)
Definition NO_ROWS_RETURNED : string := "PGRST116".

(** SQLSTATE [unique_violation], as the unit tests of the lock and of the
    job ledger raise it. *)
Definition UNIQUE_VIOLATION : string := "23505".

Definition no_rows : PgError :=
  {| code := NO_ROWS_RETURNED;
     message := "JSON object requested, multiple (or no) rows returned" |}.

Definition duplicate_key : PgError :=
  {| code := UNIQUE_VIOLATION;
     message := "duplicate key value violates unique constraint" |}.

(** Answer of a write statement: an error, or the number of rows it
    touched. *)
Inductive StmtResult : Type :=
| StmtError (e : PgError)
| StmtOk (affected : nat).

End Pg.

(** ** lib/cron/job-lock.ts

    Specification section 4.5, unit tests in
    [tests/cron/job-lock.test.ts], table [jquants_ingest.job_locks] and
    view [v_active_locks] of the migrations. *)

Module JobLock.
Import Pg.

(** A row of [jquants_ingest.job_locks]; [job_name] is the primary key,
    hence the key of the table map. *)
Record LockRow : Type := {
  locked_until : Z;
  lock_token : string;
}.

(** [{ success, token?, error? }] *)
Record LockResult : Type := {
  success : bool;
  token : option string;
  error : option string;
}.

Definition LOCK_HELD : string := "Lock already held by another process".
Definition LOCK_RACE : string := "Failed to acquire lock (race condition)".

Definition granted (tok : string) : LockResult :=
  {| success := true; token := Some tok; error := None |}.

Definition refused (reason : string) : LockResult :=
  {| success := false; token := None; error := Some reason |}.

(** [v_active_locks]: a lock is ACTIVE when [locked_until > now()],
    EXPIRED otherwise. *)
Definition is_active (now : Z) (row : LockRow) : bool :=
  (now <? locked_until row)%Z.

(** *** The statements sent to the table.  Each is atomic; [fault] is a
    failure of the statement itself (connection, permission, ...), in
    which case the table is left as it was. *)

(** Modelled from the spec: [job-lock.ts] is missing.  "Read current lock
    row": [select ... eq job_name ... single()]. *)
Definition select_lock (fault : option PgError) (tbl : gmap string LockRow)
    (job : string) : PgError + LockRow :=
  match fault with
  | Some e => inl e
  | None =>
      match tbl !! job with
      | Some row => inr row
      | None => inl no_rows
      end
  end.

(** Modelled from the spec: [job-lock.ts] is missing.  "Insert a new
    row"; the primary key makes a second row for the job a uniqueness
    violation. *)
Definition insert_lock (fault : option PgError) (tbl : gmap string LockRow)
    (job : string) (row : LockRow) : StmtResult * gmap string LockRow :=
  match fault with
  | Some e => (StmtError e, tbl)
  | None =>
      match tbl !! job with
      | Some _ => (StmtError duplicate_key, tbl)
      | None => (StmtOk 1, <[job := row]> tbl)
      end
  end.

(** Modelled from the spec: [job-lock.ts] is missing.  "A conditional
    update (matching job name AND the previously-read locked-until as an
    optimistic guard) to the new token/expiry". *)
Definition update_lock_guarded (fault : option PgError)
    (tbl : gmap string LockRow) (job : string) (previous_until : Z)
    (row : LockRow) : StmtResult * gmap string LockRow :=
  match fault with
  | Some e => (StmtError e, tbl)
  | None =>
      match tbl !! job with
      | Some old =>
          if (locked_until old =? previous_until)%Z
          then (StmtOk 1, <[job := row]> tbl)
          else (StmtOk 0, tbl)
      | None => (StmtOk 0, tbl)
      end
  end.

(** *** acquireLock, in its two statements *)

(** What [acquireLock] decides from the row it read. *)
Inductive Plan : Type :=
| PlanRefuse (reason : string)
| PlanInsert
| PlanOverwrite (previous_until : Z).

(** Modelled from the spec: [job-lock.ts] is missing.  "If none exists,
    insert ...  If a row exists and is still valid (locked-until in
    future), fail with already held.  If a row exists but expired,
    attempt a conditional update."  A read error other than "no rows" is
    returned as its message (unit test "DB error"). *)
Definition acquire_plan (now : Z) (read : PgError + LockRow) : Plan :=
  match read with
  | inl e =>
      if String.eqb (code e) NO_ROWS_RETURNED then PlanInsert
      else PlanRefuse (message e)
  | inr row =>
      if is_active now row then PlanRefuse LOCK_HELD
      else PlanOverwrite (locked_until row)
  end.

(** Modelled from the spec: [job-lock.ts] is missing.  "A uniqueness
    violation on insert is treated as lock already held failure ...; if
    zero rows match, fail with a race-condition-specific error."  An
    error of the conditional update is the race error too (unit test
    "race condition"); the spec is silent on other insert errors, which
    are returned as their message, like read errors. *)
Definition acquire_write (fault : option PgError) (tbl : gmap string LockRow)
    (job tok : string) (until : Z) (plan : Plan)
    : LockResult * gmap string LockRow :=
  let row := {| locked_until := until; lock_token := tok |} in
  match plan with
  | PlanRefuse reason => (refused reason, tbl)
  | PlanInsert =>
      match insert_lock fault tbl job row with
      | (StmtOk _, tbl') => (granted tok, tbl')
      | (StmtError e, tbl') =>
          if String.eqb (code e) UNIQUE_VIOLATION then (refused LOCK_HELD, tbl')
          else (refused (message e), tbl')
      end
  | PlanOverwrite previous_until =>
      match update_lock_guarded fault tbl job previous_until row with
      | (StmtOk (S _), tbl') => (granted tok, tbl')
      | (StmtOk O, tbl') => (refused LOCK_RACE, tbl')
      | (StmtError _, tbl') => (refused LOCK_RACE, tbl')
      end
  end.

(** Expiry written by a call at [now] with a TTL in seconds. *)
Definition expiry (now ttlSeconds : Z) : Z := (now + ttlSeconds * 1000)%Z.

(** Modelled from the spec: [job-lock.ts] is missing.
    [acquireLock(jobName, ttlSeconds)] called at time [now], drawing
    [tok] from [crypto.randomUUID()].  [others] is what concurrent
    processes do to the table between the read and the write. *)
Definition acquireLock (read_fault write_fault : option PgError)
    (others : gmap string LockRow → gmap string LockRow)
    (tbl : gmap string LockRow) (now : Z) (job : string) (ttlSeconds : Z)
    (tok : string) : LockResult * gmap string LockRow :=
  let plan := acquire_plan now (select_lock read_fault tbl job) in
  acquire_write write_fault (others tbl) job tok (expiry now ttlSeconds) plan.

(** Modelled from the spec: [job-lock.ts] is missing.
    [releaseLock(jobName, token)]: "delete the row matching both job name
    and token; token mismatch means no-op; failures are logged, never
    thrown". *)
Definition releaseLock (fault : option PgError) (tbl : gmap string LockRow)
    (job tok : string) : gmap string LockRow :=
  match fault with
  | Some _ => tbl
  | None =>
      match tbl !! job with
      | Some row =>
          if String.eqb (lock_token row) tok then delete job tbl else tbl
      | None => tbl
      end
  end.

(** Modelled from the spec: [job-lock.ts] is missing.
    [extendLock(jobName, token, ttlSeconds)]: "conditional update of
    locked-until matching job name and token; returns boolean success".
    The new expiry is [now + ttl] whatever the old one was (unit test
    "extend"). *)
Definition extendLock (fault : option PgError) (tbl : gmap string LockRow)
    (now : Z) (job tok : string) (ttlSeconds : Z)
    : bool * gmap string LockRow :=
  match fault with
  | Some _ => (false, tbl)
  | None =>
      match tbl !! job with
      | Some row =>
          if String.eqb (lock_token row) tok
          then (true, <[job := {| locked_until := expiry now ttlSeconds;
                                  lock_token := tok |}]> tbl)
          else (false, tbl)
      | None => (false, tbl)
      end
  end.

(** Modelled from the spec: [job-lock.ts] is missing.
    [cleanupExpiredLocks()]: "deletes all rows with locked-until in the
    past; returns count deleted"; 0 on a database error (unit test). *)
Definition cleanupExpiredLocks (fault : option PgError)
    (tbl : gmap string LockRow) (now : Z) : nat * gmap string LockRow :=
  match fault with
  | Some _ => (0, tbl)
  | None =>
      let kept := filter (λ kr, (now ≤ locked_until kr.2)%Z) tbl in
      (size tbl - size kept, kept)
  end.

(** *** The lock as a state machine

    Processes run concurrently; what interleaves are the statements.  An
    [acquireLock] is therefore two steps, its read and its write, with
    anything in between. *)

(** What a holder was told: the job and the expiry of its lock. *)
Record Lease : Type := {
  lease_job : string;
  lease_until : Z;
}.

(** An [acquireLock] between its read and its write. *)
Record Pending : Type := {
  pend_job : string;
  pend_now : Z;
  pend_plan : Plan;
}.

Record Sys : Type := {
  table : gmap string LockRow;
  clock : Z;
  (** calls of [acquireLock] in flight, by process *)
  pending : gmap nat Pending;
  (** tokens drawn so far *)
  issued : gset string;
  (** leases granted and not given back, by token *)
  leases : gmap string Lease;
}.

Inductive Op : Type :=
| Tick (elapsed : Z)
| AcquireRead (process : nat) (job : string) (fault : option PgError)
| AcquireWrite (process : nat) (ttlSeconds : Z) (tok : string)
    (fault : option PgError)
| Release (job tok : string) (fault : option PgError)
| Extend (job tok : string) (ttlSeconds : Z) (fault : option PgError)
| Cleanup (fault : option PgError).

Inductive OpResult : Type :=
| ResNothing
| ResLock (r : LockResult)
| ResBool (b : bool)
| ResCount (n : nat).

Definition initial : Sys :=
  {| table := ∅; clock := 0; pending := ∅; issued := ∅; leases := ∅ |}.

Definition step (op : Op) (s : Sys) : Sys * OpResult :=
  match op with
  | Tick elapsed =>
      ({| table := table s; clock := clock s + elapsed;
          pending := pending s; issued := issued s; leases := leases s |},
       ResNothing)
  | AcquireRead process job fault =>
      let plan := acquire_plan (clock s) (select_lock fault (table s) job) in
      ({| table := table s; clock := clock s;
          pending := <[process := {| pend_job := job; pend_now := clock s;
                                     pend_plan := plan |}]> (pending s);
          issued := issued s; leases := leases s |},
       ResNothing)
  | AcquireWrite process ttlSeconds tok fault =>
      match pending s !! process with
      | None => (s, ResNothing)
      | Some pd =>
          let until := expiry (pend_now pd) ttlSeconds in
          let '(r, tbl) :=
            acquire_write fault (table s) (pend_job pd) tok until (pend_plan pd) in
          ({| table := tbl; clock := clock s;
              pending := delete process (pending s);
              issued := {[tok]} ∪ issued s;
              leases := if success r
                        then <[tok := {| lease_job := pend_job pd;
                                         lease_until := until |}]> (leases s)
                        else leases s |},
           ResLock r)
      end
  | Release job tok fault =>
      ({| table := releaseLock fault (table s) job tok; clock := clock s;
          pending := pending s; issued := issued s;
          leases := match leases s !! tok with
                    | Some l => if String.eqb (lease_job l) job
                                then delete tok (leases s) else leases s
                    | None => leases s
                    end |},
       ResNothing)
  | Extend job tok ttlSeconds fault =>
      let '(ok, tbl) := extendLock fault (table s) (clock s) job tok ttlSeconds in
      ({| table := tbl; clock := clock s; pending := pending s;
          issued := issued s;
          leases := if ok
                    then <[tok := {| lease_job := job;
                                     lease_until := expiry (clock s) ttlSeconds |}]>
                           (leases s)
                    else leases s |},
       ResBool ok)
  | Cleanup fault =>
      let '(n, tbl) := cleanupExpiredLocks fault (table s) (clock s) in
      ({| table := tbl; clock := clock s; pending := pending s;
          issued := issued s; leases := leases s |},
       ResCount n)
  end.

(** Time does not run backwards, and [crypto.randomUUID()] does not
    repeat itself. *)
Definition admissible (s : Sys) (op : Op) : Prop :=
  match op with
  | Tick elapsed => (0 ≤ elapsed)%Z
  | AcquireWrite _ _ tok _ => tok ∉ issued s
  | _ => True
  end.

Inductive reachable : Sys → Prop :=
| reachable_initial : reachable initial
| reachable_step s op :
    reachable s → admissible s op → reachable (step op s).1.

(** Running a list of operations, collecting their answers. *)
Fixpoint run (ops : list Op) (s : Sys) : Sys * list OpResult :=
  match ops with
  | [] => (s, [])
  | op :: ops' =>
      let '(s1, r) := step op s in
      let '(s2, rs) := run ops' s1 in
      (s2, r :: rs)
  end.

Fixpoint admissible_run (ops : list Op) (s : Sys) : Prop :=
  match ops with
  | [] => True
  | op :: ops' => admissible s op ∧ admissible_run ops' (step op s).1
  end.

#[global] Instance admissible_dec s op : Decision (admissible s op).
Proof. destruct op; simpl; apply _. Defined.

#[global] Instance admissible_run_dec ops : ∀ s, Decision (admissible_run ops s).
Proof. induction ops as [|op ops IH]; intros s; simpl; apply _. Defined.

Definition releases (job tok : string) (op : Op) : bool :=
  match op with
  | Release job' tok' _ => String.eqb job' job && String.eqb tok' tok
  | _ => false
  end.

Definition extends (job tok : string) (op : Op) : bool :=
  match op with
  | Extend job' tok' _ _ => String.eqb job' job && String.eqb tok' tok
  | _ => false
  end.

(** The exclusion property with the lease fixed at acquisition: after a
    lock of [job] is granted to [tok] by a call that read the clock at
    [acquired_at] and asked for [ttlSeconds], any later write of another
    [acquireLock] for the job fails, as long as [tok] was not released
    and [ttlSeconds] have not elapsed. *)
Definition exclusive_for_whole_ttl : Prop :=
  ∀ (before between : list Op) process ttlSeconds tok fault
    process' ttlSeconds' tok' fault' s1 rs1 pd s2 s3 rs3 pd' s4 r,
    admissible_run
      (before ++ [AcquireWrite process ttlSeconds tok fault] ++ between
         ++ [AcquireWrite process' ttlSeconds' tok' fault']) initial →
    run before initial = (s1, rs1) →
    pending s1 !! process = Some pd →
    step (AcquireWrite process ttlSeconds tok fault) s1
      = (s2, ResLock (granted tok)) →
    run between s2 = (s3, rs3) →
    Forall (λ op, releases (pend_job pd) tok op = false) between →
    pending s3 !! process' = Some pd' →
    pend_job pd' = pend_job pd →
    tok' ≠ tok →
    (clock s3 < expiry (pend_now pd) ttlSeconds)%Z →
    step (AcquireWrite process' ttlSeconds' tok' fault') s3 = (s4, ResLock r) →
    success r = false.

(** The unit-test clock: 2024-01-15T10:00:00.000Z. *)
Definition test_now : Z := 1705312800000.

(** Process 1 has just acquired the lock of [cron_a] for 600 seconds. *)
Definition acquired_by_a : Sys :=
  (run [AcquireRead 1 "cron_a" None; AcquireWrite 1 600 "token-a" None]
       initial).1.

(** A token holds the lock of a job while its lease has not run out. *)
Definition holds (s : Sys) (job tok : string) : Prop :=
  ∃ l, leases s !! tok = Some l ∧ lease_job l = job
       ∧ (clock s < lease_until l)%Z.

(** Every live lease is the row of its job. *)
Definition leases_backed (s : Sys) : Prop :=
  ∀ tok l, leases s !! tok = Some l → (clock s < lease_until l)%Z →
    table s !! lease_job l
    = Some {| locked_until := lease_until l; lock_token := tok |}.

(** A planned overwrite was decided on a row already expired. *)
Definition plans_stale (s : Sys) : Prop :=
  ∀ process pd previous_until,
    pending s !! process = Some pd →
    pend_plan pd = PlanOverwrite previous_until →
    (previous_until ≤ clock s)%Z.

(** The locked-until that the holder [tok] of [job] has asked for
    last: [until] before the step, and after an [extendLock] of its own
    that succeeds, the [now + ttl] of that call - later or earlier than
    [until]. *)
Definition lease_step (job tok : string) (until : Z) (op : Op) (s : Sys) : Z :=
  match op with
  | Extend job' tok' ttlSeconds fault =>
      if String.eqb job' job && String.eqb tok' tok
         && (extendLock fault (table s) (clock s) job' tok' ttlSeconds).1
      then expiry (clock s) ttlSeconds
      else until
  | _ => until
  end.

(** The same along a run: the expiry of the acquisition, moved by the
    holder's successful extensions. *)
Fixpoint lease_after (job tok : string) (until : Z) (ops : list Op) (s : Sys)
    : Z :=
  match ops with
  | [] => until
  | op :: ops' =>
      lease_after job tok (lease_step job tok until op s) ops' (step op s).1
  end.

End JobLock.

(** ** lib/cron/job-run.ts

    Specification section 4.6, unit tests in [tests/cron/job-run.test.ts],
    table [jquants_ingest.job_runs] with its unique index
    [uq_job_runs_job_target]. *)

Module JobRun.
Import Js Pg.

(** The [job_name] check constraint of [job_runs], as extended by the
    scouter migration. *)
Inductive JobName : Type :=
| cron_a
| cron_b
| cron_c
| scouter_high_dividend.

#[global] Instance JobName_eq_dec : EqDecision JobName.
Proof. solve_decision. Defined.

Inductive Status : Type := running | success | failed.

(** A row of [job_runs]; [run_id] is the primary key, hence the key of
    the table map. *)
Record Row : Type := {
  job_name : JobName;
  target_date : option string;
  status : Status;
  started_at : Z;
  finished_at : option Z;
  error_message : option string;
  meta : string;
}.

(** [uq_job_runs_job_target]: unique on [(job_name, target_date)] where
    [target_date] is not null. *)
Definition same_job_and_date (job : JobName) (date : string) (r : Row) : Prop :=
  job_name r = job ∧ target_date r = Some date.

#[global] Instance same_job_and_date_dec job date r :
  Decision (same_job_and_date job date r).
Proof. unfold same_job_and_date. apply _. Defined.

Definition violates_unique_index (tbl : gmap string Row) (row : Row) : bool :=
  match target_date row with
  | None => false
  | Some date =>
      bool_decide (map_Exists (λ _ r, same_job_and_date (job_name row) date r) tbl)
  end.

(** [insert(...).select('run_id').single()] on [job_runs]: [uuid] is the
    value [gen_random_uuid()] draws for [run_id]. *)
Definition insert_job_run (fault : option PgError) (uuid : string)
    (tbl : gmap string Row) (row : Row)
    : (PgError + string) * gmap string Row :=
  match fault with
  | Some e => (inl e, tbl)
  | None =>
      if bool_decide (is_Some (tbl !! uuid)) || violates_unique_index tbl row
      then (inl duplicate_key, tbl)
      else (inr uuid, <[uuid := row]> tbl)
  end.

(** [{ runId, error? }] *)
Record StartResult : Type := {
  runId : string;
  error : option string;
}.

Definition ALREADY_EXECUTED : string :=
  "Job already executed for this target date".

(** Modelled from the spec: [job-run.ts] is missing.
    [startJobRun(jobName, targetDate?, meta?)]: "inserts a running JobRun
    row.  A uniqueness-constraint violation is translated to a specific
    already-executed error distinct from generic DB errors.  Any other DB
    error surfaces as-is."  On an error [runId] is the empty string (unit
    tests). *)
Definition startJobRun (fault : option PgError) (uuid : string)
    (tbl : gmap string Row) (now : Z) (jobName : JobName)
    (targetDate : option string) (meta_json : option string)
    : StartResult * gmap string Row :=
  let row := {| job_name := jobName; target_date := targetDate;
                status := running; started_at := now;
                finished_at := None; error_message := None;
                meta := nullish meta_json "{}" |} in
  match insert_job_run fault uuid tbl row with
  | (inr run_id, tbl') => ({| runId := run_id; error := None |}, tbl')
  | (inl e, tbl') =>
      if String.eqb (code e) UNIQUE_VIOLATION
      then ({| runId := ""; error := Some ALREADY_EXECUTED |}, tbl')
      else ({| runId := ""; error := Some (message e) |}, tbl')
  end.

Definition MAX_ERROR_MESSAGE_LENGTH : nat := 10000.
Definition TRUNCATION_MARKER : string := "... (truncated)".

(** Modelled from the spec: [job-run.ts] is missing.  "Truncates
    errorMessage beyond a fixed cap with a truncation marker appended";
    cap and marker are those of the unit test. *)
Definition truncate_error_message (errorMessage : string) : string :=
  if MAX_ERROR_MESSAGE_LENGTH <? String.length errorMessage
  then String.substring 0 MAX_ERROR_MESSAGE_LENGTH errorMessage
         +:+ TRUNCATION_MARKER
  else errorMessage.

(** [update({status, finished_at, error_message}).eq('run_id', runId)] *)
Definition update_job_run (fault : option PgError) (tbl : gmap string Row)
    (run_id : string) (st : Status) (finished : Z) (err : option string)
    : option PgError * gmap string Row :=
  match fault with
  | Some e => (Some e, tbl)
  | None =>
      (None,
       alter (λ r, {| job_name := job_name r; target_date := target_date r;
                      status := st; started_at := started_at r;
                      finished_at := Some finished; error_message := err;
                      meta := meta r |}) run_id tbl)
  end.

(** Modelled from the spec: [job-run.ts] is missing.
    [completeJobRun(runId, status, errorMessage?)]: "updates status and
    finished-at; truncates errorMessage beyond a fixed cap with a
    truncation marker appended; swallows its own DB errors (logs
    only)". *)
Definition completeJobRun (fault : option PgError) (tbl : gmap string Row)
    (now : Z) (run_id : string) (st : Status) (errorMessage : option string)
    : Outcome unit * gmap string Row :=
  let stored := truncate_error_message <$> errorMessage in
  match update_job_run fault tbl run_id st now stored with
  | (Some _, tbl') => (Ret (), tbl')
  | (None, tbl') => (Ret (), tbl')
  end.

(** ['x'.repeat(n)] *)
Fixpoint repeat_char (c : ascii) (n : nat) : string :=
  match n with
  | O => EmptyString
  | S n' => String c (repeat_char c n')
  end.

End JobRun.

(** ** lib/cron/heartbeat.ts

    Specification section 4.6, unit tests in
    [tests/cron/heartbeat.test.ts], table [jquants_ingest.job_heartbeat]. *)

Module Heartbeat.

Inductive Status : Type := running | success | failed.

(** A row of [job_heartbeat]. *)
Record HeartbeatRecord : Type := {
  job_name : string;
  last_seen_at : Z;
  last_status : Status;
  last_run_id : option string;
  last_target_date : option string;
  last_error : option string;
  meta : string;
}.

(** Why a job is unhealthy.  The wording of the first reason is fixed by
    the unit tests; of the other two the tests fix only fragments
    ("Stale", "N hours ago", "Last run failed", the error), so they are
    kept structured. *)
Inductive Reason : Type :=
| ReasonText (text : string)
| ReasonStale (hoursAgo : Z)
| ReasonLastRunFailed (lastError : option string).

(** [{ healthy, reason? }] *)
Record Health : Type := {
  healthy : bool;
  reason : option Reason;
}.

Definition DEFAULT_STALE_HOURS : Z := 25.
Definition MS_PER_HOUR : Z := 3600000.

(** Modelled from the spec: [heartbeat.ts] is missing.
    [isJobHealthy(heartbeatRecordOrNull, staleHoursThreshold = 25)]:
    "null -> unhealthy (no heartbeat record); age beyond threshold ->
    unhealthy (stale, N hours ago); last-status failed -> unhealthy (last
    run failed: error); otherwise healthy (including running status)".
    [now] is the clock the function reads; the threshold is in whole
    hours. *)
Definition isJobHealthy (now : Z) (heartbeat : option HeartbeatRecord)
    (staleHoursThreshold : Z) : Health :=
  match heartbeat with
  | None =>
      {| healthy := false;
         reason := Some (ReasonText "No heartbeat record found") |}
  | Some hb =>
      let age := (now - last_seen_at hb)%Z in
      if (staleHoursThreshold * MS_PER_HOUR <? age)%Z then
        {| healthy := false;
           reason := Some (ReasonStale (age / MS_PER_HOUR)) |}
      else
        match last_status hb with
        | failed =>
            {| healthy := false;
               reason := Some (ReasonLastRunFailed (last_error hb)) |}
        | _ => {| healthy := true; reason := None |}
        end
  end.

(** The unit-test clock: 2024-01-15T10:00:00.000Z. *)
Definition test_clock : Z := 1705312800000.

(** The records of the unit tests, seen [hours_ago] hours before the
    test clock. *)
Definition seen (hours_ago : Z) (st : Status) (err : option string)
    : HeartbeatRecord :=
  {| job_name := "cron_a"; last_seen_at := test_clock - hours_ago * 3600000;
     last_status := st; last_run_id := Some "run-123";
     last_target_date := Some "2024-01-15"; last_error := err; meta := "{}" |}.

End Heartbeat.

(** ** lib/jquants/client.ts

    Specification section 4.3, unit tests in
    [tests/jquants/client.test.ts]. *)

Module JQuantsClient.
Import Js.

(** [{ data: Item[], pagination_key?: string }] *)
Record Page (Item : Type) : Type := {
  data : list Item;
  pagination_key : option string;
}.
Arguments data {Item} _.
Arguments pagination_key {Item} _.

(** What the consumer can observe, in order: HTTP calls (one per
    [fetchWithRetry]) and pages handed over by the generator. *)
Inductive Event (Item : Type) : Type :=
| EvFetch (key : option string)
| EvYield (items : list Item).
Arguments EvFetch {Item} key.
Arguments EvYield {Item} items.

(** Where an async generator is parked. *)
Inductive GenState : Type :=
| NotStarted
| AfterYield (key : option string)
| Finished.

(** Answer of [generator.next()]. *)
Inductive IterResult (Item : Type) : Type :=
| IterYield (items : list Item)
| IterDone
| IterThrow (message : string).
Arguments IterYield {Item} items.
Arguments IterDone {Item}.
Arguments IterThrow {Item} message.

Section Client.
Context {Item : Type}.

(** Modelled from the spec: [client.ts] is missing.  [request(endpoint,
    params)]: "acquire rate-limit token, perform retrying fetch, parse
    JSON body".  The upstream API is the parameter: its answer to the
    [n]-th call made, given the page token sent. *)
Variable request : nat → option string → Outcome (Page Item).

Definition fetch_page (calls : nat) (key : option string)
    : IterResult Item * GenState * list (Event Item) :=
  match request calls key with
  | Ret page =>
      (IterYield (data page), AfterYield (pagination_key page),
       [EvFetch key; EvYield (data page)])
  | Throw e => (IterThrow e, Finished, [EvFetch key])
  end.

(** Modelled from the spec: [client.ts] is missing.
    [requestPaginated(endpoint, params)], one [next()] at a time:
    "repeatedly calls request with the previous page's token until a
    response omits a page token, yielding each page's items before
    fetching the next".  [calls] counts the requests made so far. *)
Definition requestPaginated_next (calls : nat) (st : GenState)
    : IterResult Item * GenState * list (Event Item) :=
  match st with
  | NotStarted => fetch_page calls None
  | AfterYield (Some key) => fetch_page calls (Some key)
  | AfterYield None => (IterDone, Finished, [])
  | Finished => (IterDone, Finished, [])
  end.

Definition is_fetch (e : Event Item) : bool :=
  match e with
  | EvFetch _ => true
  | EvYield _ => false
  end.

Definition count_fetches (trace : list (Event Item)) : nat :=
  length (List.filter is_fetch trace).

(** [for await (const page of requestPaginated(...)) results.push(...page)],
    with [fuel] bounding the number of [next()] calls: an API that keeps
    sending page tokens keeps the loop going. *)
Fixpoint drain (fuel : nat) (st : GenState) (results : list Item)
    (trace : list (Event Item))
    : option (Outcome (list Item) * list (Event Item)) :=
  match fuel with
  | O => None
  | S fuel' =>
      let '(answer, st', events) := requestPaginated_next (count_fetches trace) st in
      match answer with
      | IterYield items =>
          drain fuel' st' (results ++ items) (trace ++ events)
      | IterDone => Some (Ret results, trace ++ events)
      | IterThrow e => Some (Throw e, trace ++ events)
      end
  end.

(** Modelled from the spec: [client.ts] is missing.
    [getEquityBarsDaily(params)]: all pages of the daily bars,
    concatenated. *)
Definition getEquityBarsDaily (fuel : nat)
    : option (Outcome (list Item) * list (Event Item)) :=
  drain fuel NotStarted [] [].

End Client.

(** The two-page upstream of the unit test. *)
Definition two_pages : nat → option string → Outcome (Page string) :=
  λ n key,
    match n with
    | 0 => Ret {| data := ["1301 2024-01-15"]; pagination_key := Some "page2" |}
    | _ => Ret {| data := ["1301 2024-01-16"]; pagination_key := None |}
    end.

End JQuantsClient.

(** ** lib/utils/batch.ts: batchSelect and batchProcess *)

Module BatchRead.
Import Js Batch.

Record FilterSpec : Type := {
  column : string;
  operator : string;
  value : string;
}.

Record OrderSpec : Type := {
  order_column : string;
  ascending : option bool;
}.

Record BatchSelectOptions : Type := {
  pageSize : option nat;
  maxPages : option nat;
  columns : option string;
  filter : option FilterSpec;
  orderBy : option OrderSpec;
}.

(** The query-builder methods the [switch] on [operator] can call. *)
Inductive Comparison : Type := OpEq | OpGte | OpLte | OpGt | OpLt.

(** [switch (operator)]: five cases and no default. *)
Definition comparison_of (operator : string) : option Comparison :=
  if String.eqb operator "eq" then Some OpEq
  else if String.eqb operator "gte" then Some OpGte
  else if String.eqb operator "lte" then Some OpLte
  else if String.eqb operator "gt" then Some OpGt
  else if String.eqb operator "lt" then Some OpLt
  else None.

(** The query as it stands when [range(from, to)] is awaited. *)
Record Query : Type := {
  q_table : string;
  q_columns : string;
  q_where : option (Comparison * string * string);
  q_order : option (string * bool);
  q_from : Z;
  q_to : Z;
}.

(** [{ data, error }] of a select. *)
Record SelectResponse (T : Type) : Type := {
  data : option (list T);
  error : option string;
}.
Arguments data {T} _.
Arguments error {T} _.

(** The backend: its answer to the [n]-th query of this call. *)
Record SupabaseReader (T : Type) : Type := {
  range : nat → Query → Outcome (SelectResponse T);
}.
Arguments range {T} _ _ _.

Definition effective_page_size (options : option BatchSelectOptions) : nat :=
  nullish (options ≫= pageSize) 1000.

Definition effective_max_pages (options : option BatchSelectOptions) : nat :=
  nullish (options ≫= maxPages) 100.

(** The query of one iteration: [select(columns)], the filter when its
    operator is one of the five, the order, and the range. *)
Definition page_query (table : string) (options : option BatchSelectOptions)
    (page : nat) : Query :=
  let size := effective_page_size options in
  let from := (Z.of_nat page * Z.of_nat size)%Z in
  {| q_table := table;
     q_columns := nullish (options ≫= columns) "*";
     q_where := f ← options ≫= filter;
                c ← comparison_of (operator f);
                Some (c, column f, value f);
     q_order := (λ o, (order_column o, nullish (ascending o) true))
                  <$> (options ≫= orderBy);
     q_from := from;
     q_to := (from + Z.of_nat size - 1)%Z |}.

Definition select_error_message (page : nat) (message : string) : string :=
  "Batch select failed at page " +:+ show_nat page +:+ ": " +:+ message.

Section BatchSelect.
Context {T : Type}.
Variable supabase : SupabaseReader T.
Variable table : string.
Variable options : option BatchSelectOptions.

(** [for (let page = 0; page < maxPages; page++)], with [remaining]
    iterations to go; the queries made are collected. *)
Fixpoint batchSelect_loop (remaining page : nat) (results : list T)
    (queries : list Query) : Outcome (list T) * list Query :=
  match remaining with
  | O => (Ret results, queries)
  | S remaining' =>
      let q := page_query table options page in
      let queries' := queries ++ [q] in
      match range supabase (length queries) q with
      | Throw e => (Throw e, queries')
      | Ret response =>
          match error response with
          | Some message => (Throw (select_error_message page message), queries')
          | None =>
              match data response with
              | None => (Ret results, queries')
              | Some rows =>
                  if length rows =? 0 then (Ret results, queries')
                  else if length rows <? effective_page_size options
                       then (Ret (results ++ rows), queries')
                       else batchSelect_loop remaining' (S page)
                              (results ++ rows) queries'
              end
          end
      end
  end.

Definition batchSelect : Outcome (list T) * list Query :=
  batchSelect_loop (effective_max_pages options) 0 [] [].

End BatchSelect.

(** PostgREST's [range(from, to)], both ends included, over the rows a
    query selects. *)
Definition rows_between {T : Type} (rows : list T) (from to : Z) : list T :=
  take (Z.to_nat (to - from + 1)) (drop (Z.to_nat from) rows).

(** A backend whose table does not change while it is read: every query
    sees the same [rows]. *)
Definition steady_table {T : Type} (rows : list T) : SupabaseReader T :=
  {| range := λ _ q, Ret {| data := Some (rows_between rows (q_from q) (q_to q));
                            error := None |} |}.

(** A table name without a dot. *)
Fixpoint dot_free (name : string) : bool :=
  match name with
  | EmptyString => true
  | String c name' => negb (Ascii.eqb c "."%char) && dot_free name'
  end.

(** *** batchProcess *)

(** What a call [fn(item, index)] does: it throws on the spot, or it
    returns a promise, which resolves or rejects later. *)
Inductive Invoked (R : Type) : Type :=
| Raised (message : string)
| Promised (outcome : Outcome R).
Arguments Raised {R} message.
Arguments Promised {R} outcome.

(** How [batchProcess] settles.  [Promise.all] rejects with whichever
    rejection of the chunk comes first in time; all of them are kept, in
    item order.  An exception thrown inside [chunk.map] is the
    rejection, alone. *)
Inductive Settled (R : Type) : Type :=
| Resolved (results : list R)
| Rejected (rejections : list string).
Arguments Resolved {R} results.
Arguments Rejected {R} rejections.

Section BatchProcess.
Context {T R : Type}.
Variable fn : T → nat → Invoked R.

(** [chunk.map((item, i) => fn(item, results.length + i))]: the calls
    are made in item order, and a call that throws ends the map, so
    that the items after it are not called.  The answer is the promises
    obtained and the exception, if any. *)
Fixpoint start_chunk (offset : nat) (chunk : list T)
    : list (Outcome R) * option string :=
  match chunk with
  | [] => ([], None)
  | item :: chunk' =>
      match fn item offset with
      | Raised e => ([], Some e)
      | Promised outcome =>
          let '(outcomes, raised) := start_chunk (S offset) chunk' in
          (outcome :: outcomes, raised)
      end
  end.

Definition fulfilled (outcomes : list (Outcome R)) : list R :=
  omap (λ o, match o with Ret r => Some r | Throw _ => None end) outcomes.

Definition rejections (outcomes : list (Outcome R)) : list string :=
  omap (λ o, match o with Ret _ => None | Throw e => Some e end) outcomes.

(** The number of calls that a [chunk.map] made. *)
Definition calls_made (started : list (Outcome R) * option string) : nat :=
  match started.2 with
  | Some _ => S (length started.1)
  | None => length started.1
  end.

(** [for (const chunk of chunks)]; [calls] lists the indices [fn] was
    called with. *)
Fixpoint batchProcess_loop (chunks : list (list T)) (results : list R)
    (calls : list nat) : Settled R * list nat :=
  match chunks with
  | [] => (Resolved results, calls)
  | chunk :: chunks' =>
      let started := start_chunk (length results) chunk in
      let calls' := calls ++ seq (length results) (calls_made started) in
      match started.2 with
      | Some e => (Rejected [e], calls')
      | None =>
          match rejections started.1 with
          | [] => batchProcess_loop chunks' (results ++ fulfilled started.1)
                    calls'
          | e :: es => (Rejected (e :: es), calls')
          end
      end
  end.

(** [batchProcess(items, fn, concurrency = 5)]; [None] when
    [chunkArray] does not return ([concurrency] 0). *)
Definition batchProcess (items : list T) (concurrency : nat)
    : option (Settled R * list nat) :=
  chunks ← chunkArray items concurrency;
  Some (batchProcess_loop chunks [] []).

End BatchProcess.

End BatchRead.

(** ** lib/jquants/endpoints/investor-types.ts *)

Module InvestorTypes.
Import Js.

Definition TABLE_NAME : string := "investor_type_trading".
Definition ON_CONFLICT : string :=
  "published_date,section,start_date,end_date,investor_type,metric".

Definition INVESTOR_TYPES : list string :=
  ["Prop"; "Brok"; "InvTr"; "BusCo"; "OthCo"; "InsCo"; "CityBk"; "TrBk";
   "OthFI"; "Ind"; "For"; "Total"].

Definition METRICS : list string := ["S"; "P"; "T"; "B"].

Definition METRIC_NAMES : gmap string string :=
  list_to_map [("S", "sales"); ("P", "purchases"); ("T", "total");
               ("B", "balance")].

(** An item of the API response: the four descriptive fields, and the
    numeric fields ([PropS], [PropP], ...) that are present, i.e.
    neither [undefined] nor [null]. *)
Record InvestorTypeTradingItem : Type := {
  PubDate : string;
  StartDate : string;
  EndDate : string;
  Section : string;
  values : gmap string Z;
}.

Record InvestorTypeTradingRecord : Type := {
  published_date : string;
  start_date : string;
  end_date : string;
  section : string;
  investor_type : string;
  metric : string;
  value_kjpy : Z;
  raw_json : option InvestorTypeTradingItem;
}.

(** The body of the inner loop; the state is [records] and
    [isFirstRecord]. *)
Definition visit (item : InvestorTypeTradingItem)
    (investorType metricKey : string)
    (st : list InvestorTypeTradingRecord * bool)
    : list InvestorTypeTradingRecord * bool :=
  let '(records, isFirstRecord) := st in
  let fieldName := investorType +:+ metricKey in
  match values item !! fieldName with
  | Some value =>
      (records ++ [ {| published_date := PubDate item;
                       start_date := StartDate item;
                       end_date := EndDate item;
                       section := Section item;
                       investor_type := investorType;
                       metric := METRIC_NAMES !!! metricKey;
                       value_kjpy := value;
                       raw_json := if isFirstRecord then Some item else None |} ],
       false)
  | None => (records, isFirstRecord)
  end.

(** [toInvestorTypeTradingRecords]: [for (investorType of
    INVESTOR_TYPES) for (metricKey of METRICS) ...]. *)
Definition toInvestorTypeTradingRecords (item : InvestorTypeTradingItem)
    : list InvestorTypeTradingRecord :=
  (foldl (λ st investorType,
            foldl (λ st metricKey, visit item investorType metricKey st)
                  st METRICS)
         ([], true) INVESTOR_TYPES).1.

(** [{ fetched, inserted, errors }] *)
Record SyncInvestorTypesResult : Type := {
  fetched : nat;
  inserted : nat;
  errors : list string;
}.

(** The options the sync functions pass to [batchUpsert]: only a
    progress callback, which is a [logger.debug]. *)
Definition log_batch_complete : option Batch.BatchUpsertOptions :=
  Some {| Batch.batchSize := None; Batch.continueOnError := None;
          Batch.onBatchComplete := Some (λ _ _ _, Ret ()) |}.

(** [syncInvestorTypes(params, options)].  The collaborators are
    parameters: [createClient] stands for [options?.client ??
    createJQuantsClient(...)], [getSupabaseAdmin] for the admin client,
    [getInvestorTypes] for [client.getInvestorTypes(params)], [data]
    already taken.  [None] is a run that does not return. *)
Definition syncInvestorTypes (createClient : Outcome unit)
    (getSupabaseAdmin : Outcome (Batch.SupabaseClient InvestorTypeTradingRecord))
    (getInvestorTypes : Outcome (list InvestorTypeTradingItem))
    : option (Outcome SyncInvestorTypesResult
              * list (Batch.Event InvestorTypeTradingRecord)) :=
  match createClient with
  | Throw e => Some (Throw e, [])
  | Ret _ =>
      match getSupabaseAdmin with
      | Throw e => Some (Throw e, [])
      | Ret supabase =>
          match getInvestorTypes with
          | Throw e => Some (Throw e, [])
          | Ret items =>
              if length items =? 0 then
                Some (Ret {| fetched := 0; inserted := 0; errors := [] |}, [])
              else
                let records := flat_map toInvestorTypeTradingRecords items in
                '(outcome, trace) ← Batch.batchUpsert supabase TABLE_NAME records
                                      ON_CONFLICT log_batch_complete;
                Some (match outcome with
                      | Throw e => Throw e
                      | Ret result =>
                          Ret {| fetched := length items;
                                 inserted := Batch.inserted result;
                                 errors := Batch.errors result |}
                      end, trace)
          end
      end
  end.

(** The 48 (investor type, metric key) pairs, in loop order. *)
Definition field_pairs : list (string * string) :=
  investorType ← INVESTOR_TYPES; metricKey ← METRICS; [(investorType, metricKey)].

(** An item with every numeric field present. *)
Definition full_item : InvestorTypeTradingItem :=
  {| PubDate := "2024-01-18"; StartDate := "2024-01-09";
     EndDate := "2024-01-12"; Section := "TSEPrime";
     values := list_to_map
                 (imap (λ i '(investorType, metricKey),
                          (investorType +:+ metricKey, Z.of_nat i))
                       field_pairs) |}.


(** The fields of an item that are present, in loop order. *)
Definition present (item : InvestorTypeTradingItem)
    (pairs : list (string * string)) : list (string * string * Z) :=
  omap (λ p, (λ v, (p.1, p.2, v)) <$> values item !! (p.1 +:+ p.2)) pairs.

(** The record pushed for a present field. *)
Definition record_of (item : InvestorTypeTradingItem) (first : bool)
    (f : string * string * Z) : InvestorTypeTradingRecord :=
  {| published_date := PubDate item; start_date := StartDate item;
     end_date := EndDate item; section := Section item;
     investor_type := f.1.1; metric := METRIC_NAMES !!! f.1.2;
     value_kjpy := f.2;
     raw_json := if first then Some item else None |}.

Definition key_of (r : InvestorTypeTradingRecord) : string * string :=
  (investor_type r, metric r).

End InvestorTypes.

(** ** lib/jquants/endpoints/trading-calendar.ts: syncTradingCalendar *)

Module TradingCalendarSync.
Import Js TradingCalendar.

Definition TABLE_NAME : string := "trading_calendar".
Definition ON_CONFLICT : string := "calendar_date".

(** [{ fetched, inserted, errors }] *)
Record SyncTradingCalendarResult : Type := {
  fetched : nat;
  inserted : nat;
  errors : list string;
}.

(** [syncTradingCalendar(params, options)], with the collaborators as
    parameters: the client ([options?.client ?? createJQuantsClient]),
    the admin client, and [client.getTradingCalendar(params)], [data]
    already taken. *)
Definition syncTradingCalendar (createClient : Outcome unit)
    (getSupabaseAdmin : Outcome (Batch.SupabaseClient TradingCalendarRecord))
    (getTradingCalendar : Outcome (list TradingCalendarItem))
    : option (Outcome SyncTradingCalendarResult
              * list (Batch.Event TradingCalendarRecord)) :=
  match createClient with
  | Throw e => Some (Throw e, [])
  | Ret _ =>
      match getSupabaseAdmin with
      | Throw e => Some (Throw e, [])
      | Ret supabase =>
          match getTradingCalendar with
          | Throw e => Some (Throw e, [])
          | Ret items =>
              if length items =? 0 then
                Some (Ret {| fetched := 0; inserted := 0; errors := [] |}, [])
              else
                let records := map toTradingCalendarRecord items in
                '(outcome, trace) ← Batch.batchUpsert supabase TABLE_NAME records
                                      ON_CONFLICT
                                      InvestorTypes.log_batch_complete;
                Some (match outcome with
                      | Throw e => Throw e
                      | Ret result =>
                          Ret {| fetched := length items;
                                 inserted := Batch.inserted result;
                                 errors := Batch.errors result |}
                      end, trace)
          end
      end
  end.

End TradingCalendarSync.

(** ** lib/jquants/endpoints/earnings-calendar.ts *)

Module EarningsCalendar.
Import Js.

Definition TABLE_NAME : string := "earnings_calendar".
Definition ON_CONFLICT : string := "announcement_date,local_code".

(** The fields of an API item that the module reads. *)
Record EarningsCalendarItem : Type := {
  Date : string;
  Code : string;
  CoName : string;
  FY : string;
  FQ : string;
  SectorNm : string;
}.

Record EarningsCalendarRecord : Type := {
  announcement_date : string;
  local_code : string;
  company_name : string;
  fiscal_year : string;
  fiscal_quarter : string;
  sector_name : string;
}.

Definition toEarningsCalendarRecord (item : EarningsCalendarItem)
    : EarningsCalendarRecord :=
  {| announcement_date := Date item;
     local_code := Code item;
     company_name := CoName item;
     fiscal_year := FY item;
     fiscal_quarter := FQ item;
     sector_name := SectorNm item |}.

(** [{ fetched, inserted, announcementDate, errors }] *)
Record SyncEarningsCalendarResult : Type := {
  fetched : nat;
  inserted : nat;
  announcementDate : option string;
  errors : list string;
}.

(** [items[0]?.Date ?? null] *)
Definition first_date (items : list EarningsCalendarItem) : option string :=
  Date <$> head items.

(** [items.every((item) => item.Date === firstDate)] *)
Definition all_dates_match (items : list EarningsCalendarItem)
    (firstDate : option string) : bool :=
  forallb (λ item, bool_decide (Some (Date item) = firstDate)) items.

(** [syncEarningsCalendar(options)], collaborators as parameters. *)
Definition syncEarningsCalendar (createClient : Outcome unit)
    (getSupabaseAdmin : Outcome (Batch.SupabaseClient EarningsCalendarRecord))
    (getEarningsCalendar : Outcome (list EarningsCalendarItem))
    : option (Outcome SyncEarningsCalendarResult
              * list (Batch.Event EarningsCalendarRecord)) :=
  match createClient with
  | Throw e => Some (Throw e, [])
  | Ret _ =>
      match getSupabaseAdmin with
      | Throw e => Some (Throw e, [])
      | Ret supabase =>
          match getEarningsCalendar with
          | Throw e => Some (Throw e, [])
          | Ret items =>
              if length items =? 0 then
                Some (Ret {| fetched := 0; inserted := 0;
                             announcementDate := None; errors := [] |}, [])
              else
                let firstDate := first_date items in
                let allDatesMatch := all_dates_match items firstDate in
                let announcement := if allDatesMatch then firstDate else None in
                let records := map toEarningsCalendarRecord items in
                '(outcome, trace) ← Batch.batchUpsert supabase TABLE_NAME records
                                      ON_CONFLICT
                                      InvestorTypes.log_batch_complete;
                Some (match outcome with
                      | Throw e => Throw e
                      | Ret result =>
                          Ret {| fetched := length items;
                                 inserted := Batch.inserted result;
                                 announcementDate := announcement;
                                 errors := Batch.errors result |}
                      end, trace)
          end
      end
  end.

End EarningsCalendar.

(** ** lib/cron/auth.ts *)

Module CronAuth.
Import Js.

(** [s.startsWith(prefix)] *)
Fixpoint startsWith (s prefix : string) {struct prefix} : bool :=
  match prefix with
  | EmptyString => true
  | String c prefix' =>
      match s with
      | EmptyString => false
      | String d s' => Ascii.eqb d c && startsWith s' prefix'
      end
  end.

(** [s.slice(n)] for [0 <= n]: the string without its first [n]
    characters. *)
Fixpoint slice_from (n : nat) (s : string) : string :=
  match n with
  | 0 => s
  | S n' =>
      match s with
      | EmptyString => EmptyString
      | String _ s' => slice_from n' s'
      end
  end.

(** [{ success, error? }] *)
Record AuthResult : Type := {
  success : bool;
  error : option string;
}.

(** What the routes see of the 401 response. *)
Record UnauthorizedResponse : Type := {
  status : nat;
  www_authenticate : string;
  body_error : string;
}.

Section Auth.
(** [createHash('sha256').update(s).digest()]: a 32-byte buffer. *)
Variable Digest : Type.
Context `{EqDecision Digest}.
Variable sha256 : string → Digest.

(** [secureCompare]: [timingSafeEqual] of the two digests, which have
    the same length. *)
Definition secureCompare (a b : string) : bool :=
  bool_decide (sha256 a = sha256 b).

Definition failure (message : string) : AuthResult :=
  {| success := false; error := Some message |}.

(** [verifyCronAuth(request)], given [process.env.CRON_SECRET] and
    [request.headers.get('authorization')]. *)
Definition verifyCronAuth (cronSecret authHeader : option string)
    : AuthResult :=
  if negb (CronB.truthy cronSecret) then failure "Server configuration error"
  else if negb (CronB.truthy authHeader) then
    failure "Missing Authorization header"
  else
    let secret := nullish cronSecret "" in
    let header := nullish authHeader "" in
    if negb (startsWith header "Bearer ") then
      failure "Invalid Authorization header format"
    else
      let token := slice_from 7 header in
      if negb (secureCompare token secret) then failure "Unauthorized"
      else {| success := true; error := None |}.

(** [createUnauthorizedResponse(error = 'Unauthorized')] *)
Definition createUnauthorizedResponse (error : option string)
    : UnauthorizedResponse :=
  {| status := 401;
     www_authenticate := "Bearer";
     body_error := nullish error "Unauthorized" |}.

(** [requireCronAuth(request)]: the response on failure, [null] on
    success. *)
Definition requireCronAuth (cronSecret authHeader : option string)
    : option UnauthorizedResponse :=
  let auth := verifyCronAuth cronSecret authHeader in
  if negb (success auth) then Some (createUnauthorizedResponse (error auth))
  else None.

End Auth.

End CronAuth.

(** ** lib/jquants/endpoints/index-topix.ts: getRecentTopixBarsFromDB *)

Module Topix.
Import Js.

(** A JavaScript number: a finite value, or one of the three that
    [Number.isFinite] rejects. *)
Inductive Number : Type :=
| Finite (q : Q)
| NaN
| PosInfinity
| NegInfinity.

Definition isFinite (n : Number) : bool :=
  match n with
  | Finite _ => true
  | _ => false
  end.

Definition TABLE_NAME : string := "topix_bar_daily".
Definition BASIC_COLUMNS : string :=
  "trade_date,open,high,low,close,ingested_at".
Definition MAX_RECENT_DAYS : Z := 1000.

(** [Math.min(Math.max(1, Math.floor(days)), MAX_RECENT_DAYS)] *)
Definition valid_days (days : Q) : Z :=
  Z.min (Z.max 1 (Qfloor days)) MAX_RECENT_DAYS.

(** [from(table).select(columns).order(column, { ascending }).limit(n)] *)
Record RecentQuery : Type := {
  q_table : string;
  q_columns : string;
  q_order : string * bool;
  q_limit : Z;
}.

(** JavaScript truthiness of [options?.includeRawJson]. *)
Definition wants_raw_json (includeRawJson : option bool) : bool :=
  nullish includeRawJson false.

(** [getRecentTopixBarsFromDB(days, options)]: the outcome and the
    queries sent.  [getSupabaseAdmin] is the admin client, reduced to
    its answer to a query. *)
Definition getRecentTopixBarsFromDB {T : Type}
    (getSupabaseAdmin :
       Outcome (RecentQuery → Outcome (BatchRead.SelectResponse T)))
    (days : Number) (includeRawJson : option bool)
    : Outcome (list T) * list RecentQuery :=
  match days with
  | Finite q =>
      let validDays := valid_days q in
      match getSupabaseAdmin with
      | Throw e => (Throw e, [])
      | Ret supabase =>
          let query :=
            {| q_table := TABLE_NAME;
               q_columns := if wants_raw_json includeRawJson then "*"
                            else BASIC_COLUMNS;
               q_order := ("trade_date", false);
               q_limit := validDays |} in
          match supabase query with
          | Throw e => (Throw e, [query])
          | Ret response =>
              match BatchRead.error response with
              | Some e => (Throw e, [query])
              | None =>
                  (Ret (rev (nullish (BatchRead.data response) [])), [query])
              end
          end
      end
  | _ => (Throw "getRecentTopixBarsFromDB: days must be a finite number", [])
  end.

(** A table that answers a query with its [limit] first rows in the
    requested order; [rows] are the rows in ascending date order. *)
Definition newest_first {T : Type} (rows : list T)
    : RecentQuery → Outcome (BatchRead.SelectResponse T) :=
  λ query,
    Ret {| BatchRead.data :=
             Some (take (Z.to_nat (q_limit query))
                     (if snd (q_order query) then rows else rev rows));
           BatchRead.error := None |}.

End Topix.

(** ** lib/jquants/endpoints/trading-calendar.ts: reading one day *)

Module TradingCalendarRead.
Import Js TradingCalendar.

Definition BASIC_COLUMNS : string :=
  "calendar_date,hol_div,is_business_day,ingested_at".

(** [from(TABLE_NAME).select(columns).eq('calendar_date', d).single()] *)
Record SingleQuery : Type := {
  q_table : string;
  q_columns : string;
  q_calendar_date : string;
}.

(** [{ data, error }] of [.single()]. *)
Record SingleResponse : Type := {
  data : option TradingCalendarRecord;
  error : option Pg.PgError;
}.

(** [getTradingCalendarFromDB(calendarDate, options)].  A thrown
    PostgREST error is represented by its message. *)
Definition getTradingCalendarFromDB
    (getSupabaseAdmin : Outcome (SingleQuery → Outcome SingleResponse))
    (calendarDate : string) (includeRawJson : option bool)
    : Outcome (option TradingCalendarRecord) :=
  match getSupabaseAdmin with
  | Throw e => Throw e
  | Ret supabase =>
      let query :=
        {| q_table := TradingCalendarSync.TABLE_NAME;
           q_columns := if nullish includeRawJson false then "*"
                        else BASIC_COLUMNS;
           q_calendar_date := calendarDate |} in
      match supabase query with
      | Throw e => Throw e
      | Ret response =>
          match error response with
          | Some error =>
              if String.eqb (Pg.code error) Pg.NO_ROWS_RETURNED then Ret None
              else Throw (Pg.message error)
          | None => Ret (data response)
          end
      end
  end.

(** [isBusinessDayFromDB]: [record?.is_business_day ?? null] *)
Definition isBusinessDayFromDB
    (getSupabaseAdmin : Outcome (SingleQuery → Outcome SingleResponse))
    (calendarDate : string) : Outcome (option bool) :=
  match getTradingCalendarFromDB getSupabaseAdmin calendarDate None with
  | Throw e => Throw e
  | Ret record => Ret (is_business_day <$> record)
  end.

(** The query that [isBusinessDayFromDB] sends. *)
Definition day_query (calendarDate : string) : SingleQuery :=
  {| q_table := TradingCalendarSync.TABLE_NAME;
     q_columns := BASIC_COLUMNS;
     q_calendar_date := calendarDate |}.

End TradingCalendarRead.

(** ** Observations on the traces of [batchUpsert] and of the route *)

Module Observe.
Import Js.

(** The arguments of the [onBatchComplete] calls, in call order:
    batch number, rows inserted so far, rows in all. *)
Definition progress_calls {T : Type} (trace : list (Batch.Event T))
    : list (nat * nat * nat) :=
  omap (λ e, match e with
             | Batch.EvUpsert _ _ _ => None
             | Batch.EvBatchComplete i k t => Some (i, k, t)
             end) trace.

(** A later progress call has a larger batch number and at least as
    many rows. *)
Definition progresses (a b : nat * nat * nat) : Prop :=
  a.1.1 < b.1.1 ∧ a.1.2 ≤ b.1.2.

Definition is_handler (e : CronB.Event) : bool :=
  match e with
  | CronB.EvHandleCronB _ => true
  | _ => false
  end.

End Observe.

(** Collaborators for the examples of the Cron B route. *)

Module CronBCases.
Import Js CronB.

(** The lock is held by someone else. *)
Definition refusing_env : Env unit :=
  {| requireCronAuth := None;
     createAdminClient := Ret ();
     acquireLock := λ w _ _,
       (Ret {| success := false; token := None;
               lock_error := Some "Lock is held by another process" |}, w);
     startJobRun := λ w _, (Throw "unused", w);
     updateHeartbeat := λ w _ _ _ _, (Throw "unused", w);
     handleCronB := λ w _, (Throw "unused", w);
     completeJobRun := λ w _ _ _, (Throw "unused", w);
     releaseLock := λ w _ _, (Throw "unused", w);
     isDev := false |}.

(** The handler answers [result] and its completion is recorded, but
    the heartbeat write that reports it fails; the world counts the
    calls. *)
Definition failing_final_heartbeat_env (result : CronBResult) : Env nat :=
  {| requireCronAuth := None;
     createAdminClient := Ret ();
     acquireLock := λ w _ _,
       (Ret {| success := true; token := Some "tok"; lock_error := None |}, S w);
     startJobRun := λ w _,
       (Ret {| runId := "run-1"; start_error := None |}, S w);
     updateHeartbeat := λ w _ st _ _,
       match st with
       | Running => (Ret (), S w)
       | _ => (Throw "connection reset", S w)
       end;
     handleCronB := λ w _, (Ret result, S w);
     completeJobRun := λ w _ _ _, (Ret (), S w);
     releaseLock := λ w _ _, (Ret (), S w);
     isDev := true |}.

Definition handler_failure : CronBResult :=
  {| handler_success := false; announcementDate := None; fetched := 0;
     handler_inserted := 0; handler_error := Some "upstream 503" |}.

Definition handler_success_result : CronBResult :=
  {| handler_success := true; announcementDate := Some "2024-01-16";
     fetched := 3; handler_inserted := 3; handler_error := None |}.

End CronBCases.

(** ** app/api/cron/jquants/a/route.ts and c/route.ts *)

(** The handler monad of the routes A and C: the world, the calls made
    and the local [let runId], threaded through awaited calls that
    resolve or reject. *)
Module Route.
Import Js.

Section Monad.
Variables World Event : Type.

Record State : Type := {
  world : World;
  trace : list Event;
  local_runId : string;
}.

Definition M (A : Type) : Type := State → Outcome A * State.

Definition ret {A : Type} (a : A) : M A := λ st, (Ret a, st).

Definition bind {A B : Type} (m : M A) (k : A → M B) : M B :=
  λ st, match m st with
        | (Ret a, st') => k a st'
        | (Throw e, st') => (Throw e, st')
        end.

(** [await f(...)]: record the call and run it against the world. *)
Definition call {A : Type} (e : Event) (f : World → Outcome A * World) : M A :=
  λ st, let '(r, w) := f (world st) in
        (r, {| world := w; trace := trace st ++ [e];
               local_runId := local_runId st |}).

Definition set_runId (r : string) : M unit :=
  λ st, (Ret (), {| world := world st; trace := trace st; local_runId := r |}).

Definition get_runId : M string := λ st, (Ret (local_runId st), st).

(** [try { m } catch (error) { handler(message) }] *)
Definition try_catch {A : Type} (m : M A) (handler : string → M A) : M A :=
  λ st, match m st with
        | (Ret a, st') => (Ret a, st')
        | (Throw e, st') => handler e st'
        end.

(** [try { m } finally { cleanup }]: the cleanup always runs; its own
    exception, if any, replaces the completion of [m]. *)
Definition try_finally {A : Type} (m : M A) (cleanup : M unit) : M A :=
  λ st, let '(r, st') := m st in
        match cleanup st' with
        | (Ret _, st'') => (r, st'')
        | (Throw e, st'') => (Throw e, st'')
        end.

(** [await Promise.allSettled([a, b])]: both calls are made, neither
    rejection escapes. *)
Definition allSettled2 (a b : M unit) : M unit :=
  bind (try_catch a (λ _, ret ())) (λ _, try_catch b (λ _, ret ())).

(** [await Promise.all([a, b])]: both calls are made, in this order;
    the await resolves when both do and rejects with the rejection that
    comes first in time - [second_first] says that it is the one of
    [b] when both reject.  What a call still in flight at that moment
    does to the world is part of what the world does next. *)
Definition all2 (second_first : bool) (a b : M unit) : M unit :=
  λ st, let '(ra, st1) := a st in
        let '(rb, st2) := b st1 in
        (match ra, rb with
         | Ret _, Ret _ => Ret ()
         | Throw e, Ret _ => Throw e
         | Ret _, Throw e => Throw e
         | Throw ea, Throw eb => Throw (if second_first then eb else ea)
         end, st2).

End Monad.

Arguments world {World Event} _.
Arguments trace {World Event} _.
Arguments local_runId {World Event} _.
Arguments ret {World Event A} a _.
Arguments bind {World Event A B} m k _.
Arguments call {World Event A} e f _.
Arguments set_runId {World Event} r _.
Arguments get_runId {World Event} _.
Arguments try_catch {World Event A} m handler _.
Arguments try_finally {World Event A} m cleanup _.
Arguments allSettled2 {World Event} a b _.
Arguments all2 {World Event} second_first a b _.

Definition initial {World Event : Type} (w : World) : State World Event :=
  {| world := w; trace := []; local_runId := "" |}.

(** A computation that makes none of the calls that [mark] marks. *)
Definition quiet {World Event A : Type} (mark : Event → bool)
    (m : M World Event A) : Prop :=
  ∀ st, ∃ added,
    trace (m st).2 = trace st ++ added
    ∧ Forall (λ e, mark e = false) added.

(** A computation that never throws. *)
Definition returns {World Event A : Type} (m : M World Event A) : Prop :=
  ∀ st, ∃ a, (m st).1 = Ret a.

End Route.

Module CronA.
Import Js.

Definition JOB_NAME : string := "cron_a".
Definition LOCK_TTL_SECONDS : nat := 60.

(** What the route reads of [CronAResult]. *)
Record CronAResult : Type := {
  handler_success : bool;
  targetDate : option string;
  fetched : nat;
  handler_inserted : nat;
  pageCount : option nat;
  handler_error : option string;
}.

(** The JSON bodies the route builds. *)
Inductive Body : Type :=
| BodyUnauthorized
| BodyInvalidJson
| BodyInvalidRequest
| BodyLockBusy (detail : option string)
| BodyAlreadyExecuted (detail : option string)
| BodyResult (run dataset : string) (result : CronAResult)
| BodyInternalError (detail : option string) (run : option string).

Record Response : Type := {
  status : nat;
  body : Body;
}.

(** Calls to the collaborators, in program order. *)
Inductive Event : Type :=
| EvAcquireLock (jobName : string) (ttlSeconds : nat)
| EvStartJobRun (jobName dataset : string)
| EvUpdateHeartbeat (jobName : string) (st : CronB.JobStatus) (run : string)
    (error : option string)
| EvHandleCronA (dataset run : string)
| EvCompleteJobRun (run : string) (st : CronB.JobStatus)
    (error : option string)
| EvReleaseLock (jobName : string) (lockToken : option string).

Section Handler.
Variable World : Type.

(** The collaborators of the route.  [requestJson] is
    [await request.json()], [safeParse] the [dataset] that
    [CronARequestSchema.safeParse] finds in the body, if it accepts
    it. *)
Record Env : Type := {
  requireCronAuth : option Response;
  requestJson : Outcome string;
  safeParse : string → option string;
  createAdminClient : Outcome unit;
  acquireLock : World → string → nat → Outcome CronB.LockResult * World;
  startJobRun : World → string → string → Outcome CronB.StartResult * World;
  updateHeartbeat :
    World → string → CronB.JobStatus → string → option string
    → Outcome unit * World;
  handleCronA : World → string → string → Outcome CronAResult * World;
  completeJobRun :
    World → string → CronB.JobStatus → option string → Outcome unit * World;
  releaseLock : World → string → option string → Outcome unit * World;
  (** when both writes of the [Promise.all] reject: the heartbeat's
      rejection came first *)
  heartbeatRejectsFirst : bool;
  (** [process.env.NODE_ENV === 'development'] *)
  isDev : bool;
}.

Definition M (A : Type) : Type := Route.M World Event A.

Definition json (code : nat) (b : Body) : M Response :=
  Route.ret {| status := code; body := b |}.

Definition final_status (result : CronAResult) : CronB.JobStatus :=
  if handler_success result then CronB.Success else CronB.Failed.

Variable env : Env.

(** The [try] block: steps 4 to 9. *)
Definition try_block (dataset : string) : M Response :=
  Route.bind
    (Route.call (EvStartJobRun JOB_NAME dataset)
       (λ w, startJobRun env w JOB_NAME dataset))
    (λ startResult,
       if CronB.truthy (CronB.start_error startResult) then
         json 200 (BodyAlreadyExecuted (CronB.start_error startResult))
       else
         Route.bind (Route.set_runId (CronB.runId startResult)) (λ _,
         Route.bind Route.get_runId (λ run,
         Route.bind
           (Route.call (EvUpdateHeartbeat JOB_NAME CronB.Running run None)
              (λ w, updateHeartbeat env w JOB_NAME CronB.Running run None))
           (λ _,
         Route.bind
           (Route.call (EvHandleCronA dataset run)
              (λ w, handleCronA env w dataset run))
           (λ result,
         Route.bind
           (Route.all2 (heartbeatRejectsFirst env)
              (Route.call
                 (EvCompleteJobRun run (final_status result)
                    (handler_error result))
                 (λ w, completeJobRun env w run (final_status result)
                         (handler_error result)))
              (Route.call
                 (EvUpdateHeartbeat JOB_NAME (final_status result) run
                    (handler_error result))
                 (λ w, updateHeartbeat env w JOB_NAME (final_status result)
                         run (handler_error result))))
           (λ _, json 200 (BodyResult run dataset result))))))).

(** The [catch] block. *)
Definition catch_block (errorMessage : string) : M Response :=
  Route.bind Route.get_runId (λ run,
  Route.bind
    (if CronB.truthy (Some run) then
       Route.allSettled2
         (Route.call (EvCompleteJobRun run CronB.Failed (Some errorMessage))
            (λ w, completeJobRun env w run CronB.Failed (Some errorMessage)))
         (Route.call
            (EvUpdateHeartbeat JOB_NAME CronB.Failed run (Some errorMessage))
            (λ w, updateHeartbeat env w JOB_NAME CronB.Failed run
                    (Some errorMessage)))
     else Route.ret ())
    (λ _,
       json 500 (BodyInternalError
                   (if isDev env then Some errorMessage else None)
                   (if CronB.truthy (Some run) then Some run else None)))).

(** The [finally] block: release the lock, swallow a failing release. *)
Definition finally_block (lockToken : option string) : M unit :=
  Route.try_catch
    (Route.call (EvReleaseLock JOB_NAME lockToken)
       (λ w, releaseLock env w JOB_NAME lockToken))
    (λ _, Route.ret ()).

Definition POST : M Response :=
  match requireCronAuth env with
  | Some authError => Route.ret authError
  | None =>
      match requestJson env with
      | Throw _ => json 400 BodyInvalidJson
      | Ret requestBody =>
          match safeParse env requestBody with
          | None => json 400 BodyInvalidRequest
          | Some dataset =>
              match createAdminClient env with
              | Throw e => λ st, (Throw e, st)
              | Ret _ =>
                  Route.bind
                    (Route.call (EvAcquireLock JOB_NAME LOCK_TTL_SECONDS)
                       (λ w, acquireLock env w JOB_NAME LOCK_TTL_SECONDS))
                    (λ lockResult,
                       if negb (CronB.success lockResult) then
                         json 409 (BodyLockBusy (CronB.lock_error lockResult))
                       else
                         let lockToken := CronB.token lockResult in
                         Route.bind (Route.set_runId "") (λ _,
                         Route.try_finally
                           (Route.try_catch (try_block dataset) catch_block)
                           (finally_block lockToken)))
              end
          end
      end
  end.

End Handler.

Arguments requireCronAuth {World} _.
Arguments requestJson {World} _.
Arguments safeParse {World} _ _.
Arguments createAdminClient {World} _.
Arguments acquireLock {World} _ _ _ _.
Arguments startJobRun {World} _ _ _ _.
Arguments updateHeartbeat {World} _ _ _ _ _ _.
Arguments handleCronA {World} _ _ _ _.
Arguments completeJobRun {World} _ _ _ _ _.
Arguments releaseLock {World} _ _ _ _.
Arguments heartbeatRejectsFirst {World} _.
Arguments isDev {World} _.
Arguments try_block {World} env dataset _.
Arguments catch_block {World} env errorMessage _.
Arguments finally_block {World} env lockToken _.
Arguments POST {World} env _.

(** The same collaborators with another [releaseLock]. *)
Definition with_releaseLock {World : Type} (env : Env World)
    (release : World → string → option string → Outcome unit * World)
    : Env World :=
  {| requireCronAuth := requireCronAuth env;
     requestJson := requestJson env;
     safeParse := safeParse env;
     createAdminClient := createAdminClient env;
     acquireLock := acquireLock env;
     startJobRun := startJobRun env;
     updateHeartbeat := updateHeartbeat env;
     handleCronA := handleCronA env;
     completeJobRun := completeJobRun env;
     releaseLock := release;
     heartbeatRejectsFirst := heartbeatRejectsFirst env;
     isDev := isDev env |}.

Definition is_release (e : Event) : bool :=
  match e with
  | EvReleaseLock _ _ => true
  | _ => false
  end.

(** A world that counts the calls made: the lock is granted, the run
    starts, the handler answers [handled], and both final writes
    reject. *)
Definition counting_env (handled : Outcome CronAResult) : Env nat :=
  {| requireCronAuth := None;
     requestJson := Ret "{dataset: topix}";
     safeParse := λ _, Some "topix";
     createAdminClient := Ret ();
     acquireLock := λ w _ _,
       (Ret {| CronB.success := true; CronB.token := Some "tok";
               CronB.lock_error := None |}, S w);
     startJobRun := λ w _ _,
       (Ret {| CronB.runId := "run-1"; CronB.start_error := None |}, S w);
     updateHeartbeat := λ w _ st _ _,
       match st with
       | CronB.Running => (Ret (), S w)
       | _ => (Throw "heartbeat failed", S w)
       end;
     handleCronA := λ w _ _, (handled, S w);
     completeJobRun := λ w _ _ _, (Throw "completion failed", S w);
     releaseLock := λ w _ _, (Throw "release failed", S w);
     heartbeatRejectsFirst := true;
     isDev := false |}.

End CronA.

Module CronC.
Import Js.

Definition JOB_NAME : string := "cron_c".
Definition LOCK_TTL_SECONDS : nat := 60.

(** What the route reads of [CronCResult]; [integrityWarnings] is
    [integrityCheck.warnings]. *)
Record CronCResult : Type := {
  handler_success : bool;
  fetched : nat;
  handler_inserted : nat;
  integrityWarnings : list string;
  handler_error : option string;
}.

(** The JSON bodies the route builds. *)
Inductive Body : Type :=
| BodyUnauthorized
| BodyLockBusy (detail : option string)
| BodyAlreadyExecuted (detail : option string)
| BodyResult (run : string) (result : CronCResult)
| BodyInternalError (detail : option string) (run : option string).

Record Response : Type := {
  status : nat;
  body : Body;
}.

(** Calls to the collaborators, in program order. *)
Inductive Event : Type :=
| EvAcquireLock (jobName : string) (ttlSeconds : nat)
| EvStartJobRun (jobName : string)
| EvUpdateHeartbeat (jobName : string) (st : CronB.JobStatus) (run : string)
    (error : option string)
| EvHandleCronC (run : string)
| EvCompleteJobRun (run : string) (st : CronB.JobStatus)
    (error : option string)
| EvReleaseLock (jobName : string) (lockToken : option string).

Section Handler.
Variable World : Type.

Record Env : Type := {
  requireCronAuth : option Response;
  createAdminClient : Outcome unit;
  acquireLock : World → string → nat → Outcome CronB.LockResult * World;
  startJobRun : World → string → Outcome CronB.StartResult * World;
  updateHeartbeat :
    World → string → CronB.JobStatus → string → option string
    → Outcome unit * World;
  handleCronC : World → string → Outcome CronCResult * World;
  completeJobRun :
    World → string → CronB.JobStatus → option string → Outcome unit * World;
  releaseLock : World → string → option string → Outcome unit * World;
  (** when both writes of the [Promise.all] reject: the heartbeat's
      rejection came first *)
  heartbeatRejectsFirst : bool;
  (** [process.env.NODE_ENV === 'development'] *)
  isDev : bool;
}.

Definition M (A : Type) : Type := Route.M World Event A.

Definition json (code : nat) (b : Body) : M Response :=
  Route.ret {| status := code; body := b |}.

Definition final_status (result : CronCResult) : CronB.JobStatus :=
  if handler_success result then CronB.Success else CronB.Failed.

Variable env : Env.

(** The [try] block: steps 3 to 8. *)
Definition try_block : M Response :=
  Route.bind
    (Route.call (EvStartJobRun JOB_NAME) (λ w, startJobRun env w JOB_NAME))
    (λ startResult,
       if CronB.truthy (CronB.start_error startResult) then
         json 200 (BodyAlreadyExecuted (CronB.start_error startResult))
       else
         Route.bind (Route.set_runId (CronB.runId startResult)) (λ _,
         Route.bind Route.get_runId (λ run,
         Route.bind
           (Route.call (EvUpdateHeartbeat JOB_NAME CronB.Running run None)
              (λ w, updateHeartbeat env w JOB_NAME CronB.Running run None))
           (λ _,
         Route.bind
           (Route.call (EvHandleCronC run) (λ w, handleCronC env w run))
           (λ result,
         Route.bind
           (Route.all2 (heartbeatRejectsFirst env)
              (Route.call
                 (EvCompleteJobRun run (final_status result)
                    (handler_error result))
                 (λ w, completeJobRun env w run (final_status result)
                         (handler_error result)))
              (Route.call
                 (EvUpdateHeartbeat JOB_NAME (final_status result) run
                    (handler_error result))
                 (λ w, updateHeartbeat env w JOB_NAME (final_status result)
                         run (handler_error result))))
           (λ _, json 200 (BodyResult run result))))))).

(** The [catch] block. *)
Definition catch_block (errorMessage : string) : M Response :=
  Route.bind Route.get_runId (λ run,
  Route.bind
    (if CronB.truthy (Some run) then
       Route.allSettled2
         (Route.call (EvCompleteJobRun run CronB.Failed (Some errorMessage))
            (λ w, completeJobRun env w run CronB.Failed (Some errorMessage)))
         (Route.call
            (EvUpdateHeartbeat JOB_NAME CronB.Failed run (Some errorMessage))
            (λ w, updateHeartbeat env w JOB_NAME CronB.Failed run
                    (Some errorMessage)))
     else Route.ret ())
    (λ _,
       json 500 (BodyInternalError
                   (if isDev env then Some errorMessage else None)
                   (if CronB.truthy (Some run) then Some run else None)))).

(** The [finally] block: release the lock, swallow a failing release. *)
Definition finally_block (lockToken : option string) : M unit :=
  Route.try_catch
    (Route.call (EvReleaseLock JOB_NAME lockToken)
       (λ w, releaseLock env w JOB_NAME lockToken))
    (λ _, Route.ret ()).

Definition POST : M Response :=
  match requireCronAuth env with
  | Some authError => Route.ret authError
  | None =>
      match createAdminClient env with
      | Throw e => λ st, (Throw e, st)
      | Ret _ =>
          Route.bind
            (Route.call (EvAcquireLock JOB_NAME LOCK_TTL_SECONDS)
               (λ w, acquireLock env w JOB_NAME LOCK_TTL_SECONDS))
            (λ lockResult,
               if negb (CronB.success lockResult) then
                 json 409 (BodyLockBusy (CronB.lock_error lockResult))
               else
                 let lockToken := CronB.token lockResult in
                 Route.bind (Route.set_runId "") (λ _,
                 Route.try_finally
                   (Route.try_catch try_block catch_block)
                   (finally_block lockToken)))
      end
  end.

End Handler.

Arguments requireCronAuth {World} _.
Arguments createAdminClient {World} _.
Arguments acquireLock {World} _ _ _ _.
Arguments startJobRun {World} _ _ _.
Arguments updateHeartbeat {World} _ _ _ _ _ _.
Arguments handleCronC {World} _ _ _.
Arguments completeJobRun {World} _ _ _ _ _.
Arguments releaseLock {World} _ _ _ _.
Arguments heartbeatRejectsFirst {World} _.
Arguments isDev {World} _.
Arguments try_block {World} env _.
Arguments catch_block {World} env errorMessage _.
Arguments finally_block {World} env lockToken _.
Arguments POST {World} env _.

(** The same collaborators with another [releaseLock]. *)
Definition with_releaseLock {World : Type} (env : Env World)
    (release : World → string → option string → Outcome unit * World)
    : Env World :=
  {| requireCronAuth := requireCronAuth env;
     createAdminClient := createAdminClient env;
     acquireLock := acquireLock env;
     startJobRun := startJobRun env;
     updateHeartbeat := updateHeartbeat env;
     handleCronC := handleCronC env;
     completeJobRun := completeJobRun env;
     releaseLock := release;
     heartbeatRejectsFirst := heartbeatRejectsFirst env;
     isDev := isDev env |}.

Definition is_release (e : Event) : bool :=
  match e with
  | EvReleaseLock _ _ => true
  | _ => false
  end.

(** A world that counts the calls made: the lock is granted and the
    run is found already executed. *)
Definition counting_env : Env nat :=
  {| requireCronAuth := None;
     createAdminClient := Ret ();
     acquireLock := λ w _ _,
       (Ret {| CronB.success := true; CronB.token := Some "tok";
               CronB.lock_error := None |}, S w);
     startJobRun := λ w _,
       (Ret {| CronB.runId := "";
               CronB.start_error := Some "Job already executed" |}, S w);
     updateHeartbeat := λ w _ _ _ _, (Ret (), S w);
     handleCronC := λ w _, (Throw "unused", S w);
     completeJobRun := λ w _ _ _, (Ret (), S w);
     releaseLock := λ w _ _, (Ret (), S w);
     heartbeatRejectsFirst := false;
     isDev := false |}.

End CronC.

Module BatchProofs.
Import Js Batch.

Example chunkArray_ten_by_three :
  chunkArray [1; 2; 3; 4; 5; 6; 7; 8; 9; 10] 3
  = Some [[1; 2; 3]; [4; 5; 6]; [7; 8; 9]; [10]].
Proof. reflexivity. Qed.

Example chunkArray_small : chunkArray [1; 2; 3] 10 = Some [[1; 2; 3]].
Proof. reflexivity. Qed.

Example last_segment_qualified :
  last_segment "jquants_core.equity_bar_daily" = "equity_bar_daily".
Proof. reflexivity. Qed.

Example batch_size_equity_bar_daily :
  effective_batch_size "jquants_core.equity_bar_daily" None = 1000.
Proof. vm_compute. reflexivity. Qed.

Example batchUpsert_five_by_two :
  batchUpsert echo_backend "test_table" [1; 2; 3; 4; 5] "id" (size_option 2 None)
  = Some (Ret {| inserted := 5; errors := []; batchCount := 3 |},
          [EvUpsert "test_table" [1; 2] "id";
           EvUpsert "test_table" [3; 4] "id";
           EvUpsert "test_table" [5] "id"]).
Proof. vm_compute. reflexivity. Qed.

Example batchUpsert_abort :
  batchUpsert failing_backend "test_table" [1; 2] "id" (size_option 1 (Some false))
  = Some (Throw "Batch 1/2 failed: DB Error", [EvUpsert "test_table" [1] "id"]).
Proof. vm_compute. reflexivity. Qed.

Example batchUpsert_continue :
  batchUpsert failing_backend "test_table" [1; 2] "id" (size_option 1 (Some true))
  = Some (Ret {| inserted := 0;
                 errors := ["Batch 1/2 failed: DB Error"; "Batch 2/2 failed: DB Error"];
                 batchCount := 2 |},
          [EvUpsert "test_table" [1] "id"; EvUpsert "test_table" [2] "id"]).
Proof. vm_compute. reflexivity. Qed.

(** With a zero step the loop never leaves a non-empty array. *)
Lemma chunkArray_loop_zero_diverges {T : Type} (array : list T) i fuel chunks :
  i < length array → chunkArray_loop fuel array 0 i chunks = None.
Proof.
  intros Hi. revert chunks.
  induction fuel as [|fuel IH]; intros chunks; simpl.
  - destruct (Nat.leb_spec (length array) i); [lia | done].
  - destruct (Nat.leb_spec (length array) i); [lia |].
    rewrite Nat.add_0_r. apply IH.
Qed.

Lemma slice_length {T : Type} (array : list T) i size :
  i + size ≤ length array → length (slice i (i + size) array) = size.
Proof.
  intros H. unfold slice. rewrite length_take, length_drop. lia.
Qed.

Lemma slice_nonempty {T : Type} (array : list T) i size :
  i < length array → 1 ≤ size → slice i (i + size) array ≠ [].
Proof.
  intros Hi Hs Heq. apply (f_equal length) in Heq.
  unfold slice in Heq. rewrite length_take, length_drop in Heq.
  simpl in Heq. lia.
Qed.

Lemma slice_then_rest {T : Type} (array : list T) i size :
  slice i (i + size) array ++ drop (i + size) array = drop i array.
Proof.
  unfold slice. replace (i + size - i) with size by lia.
  rewrite <- (drop_drop array size i). apply take_drop.
Qed.

(** Loop invariant: what the loop appends from position [i] on. *)
Lemma chunkArray_loop_spec {T : Type} (array : list T) size :
  1 ≤ size →
  ∀ fuel i chunks,
    length array - i ≤ fuel →
    ∃ cs,
      chunkArray_loop fuel array size i chunks = Some (chunks ++ cs)
      ∧ concat cs = drop i array
      ∧ Forall (λ c, c ≠ [] ∧ length c ≤ size) cs
      ∧ (∀ k c, cs !! k = Some c → S k < length cs → length c = size).
Proof.
  intros Hsize. induction fuel as [|fuel IH]; intros i chunks Hfuel; simpl.
  - destruct (Nat.leb_spec (length array) i) as [Hle|Hlt]; [|lia].
    exists []. rewrite app_nil_r, drop_ge by lia.
    split_and!; [done | done | constructor |].
    intros k c Hk. by rewrite lookup_nil in Hk.
  - destruct (Nat.leb_spec (length array) i) as [Hle|Hlt].
    + exists []. rewrite app_nil_r, drop_ge by lia.
      split_and!; [done | done | constructor |].
      intros k c Hk. by rewrite lookup_nil in Hk.
    + destruct (IH (i + size) (chunks ++ [slice i (i + size) array]))
        as (cs & Hrun & Hcat & Hall & Hfull); [lia |].
      exists (slice i (i + size) array :: cs).
      split_and!.
      * rewrite Hrun, <- app_assoc. done.
      * simpl. rewrite Hcat. apply slice_then_rest.
      * constructor; [|done]. split.
        -- by apply slice_nonempty.
        -- unfold slice. rewrite length_take. lia.
      * intros k c Hk Hlen. destruct k as [|k]; simpl in *.
        -- injection Hk as <-. apply slice_length.
           destruct (Nat.le_gt_cases (i + size) (length array)) as [|Hgt];
             [done |].
           exfalso. rewrite drop_ge in Hcat by lia.
           destruct cs as [|c' cs']; [simpl in Hlen; lia |].
           apply Forall_cons in Hall as [[Hne _] _].
           simpl in Hcat. apply app_eq_nil in Hcat as [? _]. done.
        -- apply (Hfull k c Hk). lia.
Qed.

(** C10. For every array and every chunk size [s >= 1], [chunkArray]
    returns, and what it returns partitions the array: the chunks
    concatenated in order give the array back, every chunk but the
    last has exactly [s] elements, no chunk is empty (so the last one
    is non-empty when the array is), and the empty array has no
    chunks. *)
Theorem chunkArray_partition {T : Type} (a : list T) (s : nat) :
  1 ≤ s →
  ∃ chunks,
    chunkArray a s = Some chunks
    ∧ concat chunks = a
    ∧ (∀ k c, chunks !! k = Some c → S k < length chunks → length c = s)
    ∧ (a ≠ [] → ∃ c, last chunks = Some c ∧ c ≠ [] ∧ length c ≤ s)
    ∧ chunkArray (@nil T) s = Some [].
Proof.
  intros Hs.
  destruct (chunkArray_loop_spec a s Hs (length a) 0 [])
    as (cs & Hrun & Hcat & Hall & Hfull); [lia |].
  exists cs. rewrite drop_0 in Hcat. split_and!; try done.
  intros Hne. destruct (last cs) as [c|] eqn:Hlast.
  - exists c. split; [done |].
    apply last_Some in Hlast as [l' ->].
    rewrite Forall_app, Forall_singleton in Hall. tauto.
  - apply last_None in Hlast. subst cs. simpl in Hcat. congruence.
Qed.

(** *** batchUpsert *)

Section LoopFacts.
Context {T : Type}.
Variable supabase : SupabaseClient T.
Variable table onConflict : string.
Variable options : option BatchUpsertOptions.
Variable n_chunks total : nat.

Lemma notify_shape i (st : LoopState T) :
  ∃ st' thrown,
    notify options total i st = (st', thrown)
    ∧ upsert_calls (st_trace st') = upsert_calls (st_trace st)
    ∧ st_errors st' = st_errors st
    ∧ st_inserted st' = st_inserted st
    ∧ (callback_total options → thrown = None).
Proof.
  unfold notify, callback_total.
  destruct (options ≫= onBatchComplete) as [callback|] eqn:Hcb.
  - destruct (callback (i + 1) (st_inserted st) total) as [[]|e] eqn:Hcall;
      eexists _, _; (split_and!; [reflexivity | | done | done |]);
      try (simpl; unfold upsert_calls; rewrite omap_app; simpl;
           by rewrite app_nil_r).
    + done.
    + intros Htot. specialize (Htot callback eq_refl (i + 1) (st_inserted st) total).
      congruence.
  - eexists _, _. split_and!; done.
Qed.

Lemma upsert_calls_log chunk (st : LoopState T) :
  upsert_calls (st_trace (log_event (EvUpsert table chunk onConflict) st))
  = upsert_calls (st_trace st) ++ [chunk].
Proof. simpl. unfold upsert_calls. by rewrite omap_app. Qed.

(** With [continueOnError] every iteration falls through to the next
    one: the chunk is sent, and a reported error is recorded. *)
Lemma iteration_continue i chunk (st : LoopState T) :
  ∃ st' es,
    iteration supabase table onConflict options true n_chunks total i chunk st
      = (st', None)
    ∧ upsert_calls (st_trace st') = upsert_calls (st_trace st) ++ [chunk]
    ∧ st_errors st' = st_errors st ++ es
    ∧ (∀ message cnt,
         upsert supabase i table chunk onConflict
           = Ret {| error := Some message; count := cnt |} →
         batch_error_message n_chunks i message ∈ es).
Proof.
  unfold iteration, try_chunk.
  destruct (upsert supabase i table chunk onConflict) as [[err cnt]|e] eqn:Hup.
  - simpl. destruct err as [message|]; simpl.
    + destruct (notify_shape i
                  (push_error (batch_error_message n_chunks i message)
                     (log_event (EvUpsert table chunk onConflict) st)))
        as (st' & thrown & -> & Hcalls & Herrs & _ & _).
      destruct thrown as [e|]; simpl.
      * exists (push_error e st'), [batch_error_message n_chunks i message; e].
        split_and!; [done | | |].
        -- simpl. rewrite Hcalls. apply upsert_calls_log.
        -- simpl. rewrite Herrs. simpl. by rewrite <- app_assoc.
        -- intros m c [= <- _]. set_solver.
      * exists st', [batch_error_message n_chunks i message].
        split_and!; [done | | |].
        -- rewrite Hcalls. apply upsert_calls_log.
        -- by rewrite Herrs.
        -- intros m c [= <- _]. set_solver.
    + destruct (notify_shape i
                  (add_inserted (nullish cnt (length chunk))
                     (log_event (EvUpsert table chunk onConflict) st)))
        as (st' & thrown & -> & Hcalls & Herrs & _ & _).
      destruct thrown as [e|]; simpl.
      * exists (push_error e st'), [e].
        split_and!; [done | | | done].
        -- simpl. rewrite Hcalls. apply upsert_calls_log.
        -- simpl. by rewrite Herrs.
      * exists st', [].
        split_and!; [done | | | done].
        -- rewrite Hcalls. apply upsert_calls_log.
        -- rewrite Herrs. simpl. by rewrite app_nil_r.
  - simpl. eexists _, [e]. split_and!; [done | | done | done].
    simpl. unfold upsert_calls. by rewrite omap_app.
Qed.

Lemma loop_continue rest : ∀ i (st : LoopState T),
  ∃ st',
    batchUpsert_loop supabase table onConflict options true n_chunks total
      i rest st = (st', None)
    ∧ upsert_calls (st_trace st') = upsert_calls (st_trace st) ++ rest
    ∧ (∀ e, e ∈ st_errors st → e ∈ st_errors st')
    ∧ (∀ k chunk message cnt,
         rest !! k = Some chunk →
         upsert supabase (i + k) table chunk onConflict
           = Ret {| error := Some message; count := cnt |} →
         batch_error_message n_chunks (i + k) message ∈ st_errors st').
Proof.
  induction rest as [|chunk rest IH]; intros i st; simpl.
  - exists st. rewrite app_nil_r. split_and!; done.
  - destruct (iteration_continue i chunk st)
      as (st1 & es & -> & Hcalls1 & Herrs1 & Hrec1).
    destruct (IH (S i) st1) as (st' & -> & Hcalls & Hmono & Hrec).
    exists st'. split_and!; [done | | |].
    + rewrite Hcalls, Hcalls1, <- app_assoc. done.
    + intros e He. apply Hmono. rewrite Herrs1. set_solver.
    + intros k c m cnt Hk Hup. destruct k as [|k]; simpl in Hk.
      * injection Hk as <-. rewrite Nat.add_0_r in *.
        apply Hmono. rewrite Herrs1.
        apply elem_of_app. right. by eapply Hrec1.
      * replace (i + S k) with (S i + k) in * by lia. by eapply Hrec.
Qed.

(** A chunk whose upsert succeeds, without [continueOnError] and with
    a callback that does not throw. *)
Lemma iteration_success i chunk cnt (st : LoopState T) :
  callback_total options →
  upsert supabase i table chunk onConflict
    = Ret {| error := None; count := cnt |} →
  ∀ c, ∃ st',
    iteration supabase table onConflict options c n_chunks total i chunk st
      = (st', None)
    ∧ upsert_calls (st_trace st') = upsert_calls (st_trace st) ++ [chunk]
    ∧ st_errors st' = st_errors st
    ∧ st_inserted st' = st_inserted st + nullish cnt (length chunk).
Proof.
  intros Htot Hup c. unfold iteration, try_chunk. rewrite Hup. simpl.
  destruct (notify_shape i
              (add_inserted (nullish cnt (length chunk))
                 (log_event (EvUpsert table chunk onConflict) st)))
    as (st' & thrown & -> & Hcalls & Herrs & Hins & Hnone).
  rewrite (Hnone Htot). exists st'. split_and!; [done | | done | done].
  rewrite Hcalls. apply upsert_calls_log.
Qed.

(** A chunk whose upsert reports an error, without [continueOnError]:
    the iteration throws the batch error. *)
Lemma iteration_abort i chunk message cnt (st : LoopState T) :
  upsert supabase i table chunk onConflict
    = Ret {| error := Some message; count := cnt |} →
  ∃ st',
    iteration supabase table onConflict options false n_chunks total i chunk st
      = (st', Some (batch_error_message n_chunks i message))
    ∧ upsert_calls (st_trace st') = upsert_calls (st_trace st) ++ [chunk].
Proof.
  intros Hup. unfold iteration, try_chunk. rewrite Hup. simpl.
  eexists. split; [done |]. simpl. unfold upsert_calls. by rewrite omap_app.
Qed.

Lemma loop_abort pre : ∀ i chunk post message cnt (st : LoopState T),
  callback_total options →
  (∀ j c, pre !! j = Some c →
     ∃ cnt', upsert supabase (i + j) table c onConflict
             = Ret {| error := None; count := cnt' |}) →
  upsert supabase (i + length pre) table chunk onConflict
    = Ret {| error := Some message; count := cnt |} →
  ∃ st',
    batchUpsert_loop supabase table onConflict options false n_chunks total
      i (pre ++ chunk :: post) st
      = (st', Some (batch_error_message n_chunks (i + length pre) message))
    ∧ upsert_calls (st_trace st')
      = upsert_calls (st_trace st) ++ pre ++ [chunk].
Proof.
  induction pre as [|c0 pre IH]; intros i chunk post message cnt st Htot Hpre Hup;
    simpl.
  - rewrite Nat.add_0_r in *.
    destruct (iteration_abort i chunk message cnt st Hup) as (st' & -> & Hcalls).
    by exists st'.
  - destruct (Hpre 0 c0 eq_refl) as [cnt0 Hup0]. rewrite Nat.add_0_r in Hup0.
    destruct (iteration_success i c0 cnt0 st Htot Hup0 false)
      as (st1 & -> & Hcalls1 & _ & _).
    destruct (IH (S i) chunk post message cnt st1 Htot) as (st' & Hrun & Hcalls).
    + intros j c Hj. replace (S i + j) with (i + S j) by lia. by apply Hpre.
    + replace (S i + length pre) with (i + length (c0 :: pre)) by (simpl; lia).
      done.
    + exists st'. simpl in *.
      replace (i + S (length pre)) with (S (i + length pre)) by lia.
      split; [done |]. rewrite Hcalls, Hcalls1, <- app_assoc. done.
Qed.

End LoopFacts.

(** An array longer than [size] and no longer than twice [size] makes
    exactly two chunks. *)
Lemma chunkArray_two {T : Type} (a : list T) size :
  size < length a → length a ≤ size + size →
  chunkArray a size = Some [take size a; drop size a].
Proof.
  intros Hlo Hhi. unfold chunkArray.
  destruct (length a) as [|[|fuel]] eqn:Hlen; [lia | lia |].
  simpl. rewrite Hlen.
  destruct (Nat.leb_spec (S (S fuel)) size) as [|_]; [lia |].
  assert (Hdone : ∀ f cs, chunkArray_loop f a size (size + size) cs = Some cs).
  { intros f cs. destruct f; simpl; rewrite Hlen;
      destruct (Nat.leb_spec (S (S fuel)) (size + size)); done || lia. }
  rewrite Hdone. unfold slice. simpl. rewrite Nat.sub_0_r.
  replace (size + size - size) with size by lia.
  rewrite (take_ge (drop size a)) by (rewrite length_drop; lia). done.
Qed.

Lemma chunkArray_partition_witness :
  ∃ chunks,
    chunkArray [1; 2; 3; 4; 5; 6; 7; 8; 9; 10] 3 = Some chunks
    ∧ concat chunks = [1; 2; 3; 4; 5; 6; 7; 8; 9; 10]
    ∧ (∀ k c, chunks !! k = Some c → S k < length chunks → length c = 3)
    ∧ ([1; 2; 3; 4; 5; 6; 7; 8; 9; 10] ≠ [] →
       ∃ c, last chunks = Some c ∧ c ≠ [] ∧ length c ≤ 3)
    ∧ chunkArray (@nil nat) 3 = Some [].
Proof. apply (chunkArray_partition [1; 2; 3; 4; 5; 6; 7; 8; 9; 10] 3). lia. Defined.

Lemma batchUpsert_nonempty {T : Type} (supabase : SupabaseClient T)
    table (data : list T) onConflict options chunks :
  data ≠ [] →
  chunkArray data (effective_batch_size table options) = Some chunks →
  batchUpsert supabase table data onConflict options
  = let '(st, thrown) :=
      batchUpsert_loop supabase table onConflict options
        (effective_continue options) (length chunks) (length data) 0 chunks
        {| st_inserted := 0; st_errors := []; st_trace := [] |} in
    Some (match thrown with
          | Some e => Throw e
          | None => Ret {| inserted := st_inserted st;
                           errors := st_errors st;
                           batchCount := length chunks |}
          end, st_trace st).
Proof.
  intros Hne Hchunks. unfold batchUpsert.
  destruct data as [|x data]; [done |]. simpl length at 1. simpl Nat.eqb.
  cbv iota. rewrite Hchunks. reflexivity.
Qed.

(** C4. [batchUpsert] (i) on an empty row list returns
    [{inserted: 0, errors: [], batchCount: 0}] and makes no backend
    call; (ii) over 1,500 rows for a table configured with chunk size
    1,000 makes exactly two upsert calls and returns the sum of the two
    reported counts; (iii) when a chunk's upsert reports an error and
    [continueOnError] is not set, throws ["Batch i/n failed: ..."] with
    the one-based index of that chunk and the number of chunks, and
    sends no later chunk; (iv) with [continueOnError] set, sends every
    chunk and returns with each reported error collected. *)
Theorem batchUpsert_contract {T : Type} :
  (∀ (supabase : SupabaseClient T) table onConflict options,
     batchUpsert supabase table [] onConflict options
     = Some (Ret {| inserted := 0; errors := []; batchCount := 0 |}, []))
  ∧ (∀ (supabase : SupabaseClient T) table data onConflict options c1 c2,
       length data = 1500 →
       options ≫= batchSize = None →
       BATCH_SIZES !! last_segment table = Some 1000 →
       callback_total options →
       upsert supabase 0 table (take 1000 data) onConflict
         = Ret {| error := None; count := Some c1 |} →
       upsert supabase 1 table (drop 1000 data) onConflict
         = Ret {| error := None; count := Some c2 |} →
       ∃ trace,
         batchUpsert supabase table data onConflict options
         = Some (Ret {| inserted := c1 + c2; errors := []; batchCount := 2 |},
                 trace)
         ∧ upsert_calls trace = [take 1000 data; drop 1000 data])
  ∧ (∀ (supabase : SupabaseClient T) table data onConflict options
       chunks i chunk message cnt,
       data ≠ [] →
       effective_continue options = false →
       chunkArray data (effective_batch_size table options) = Some chunks →
       callback_total options →
       chunks !! i = Some chunk →
       (∀ j c, j < i → chunks !! j = Some c →
          ∃ cnt', upsert supabase j table c onConflict
                  = Ret {| error := None; count := cnt' |}) →
       upsert supabase i table chunk onConflict
         = Ret {| error := Some message; count := cnt |} →
       ∃ trace,
         batchUpsert supabase table data onConflict options
         = Some (Throw ("Batch " +:+ show_nat (i + 1) +:+ "/"
                          +:+ show_nat (length chunks)
                          +:+ " failed: " +:+ message), trace)
         ∧ upsert_calls trace = take (S i) chunks)
  ∧ (∀ (supabase : SupabaseClient T) table data onConflict options chunks,
       data ≠ [] →
       effective_continue options = true →
       chunkArray data (effective_batch_size table options) = Some chunks →
       ∃ result trace,
         batchUpsert supabase table data onConflict options
         = Some (Ret result, trace)
         ∧ upsert_calls trace = chunks
         ∧ batchCount result = length chunks
         ∧ ∀ i chunk message cnt,
             chunks !! i = Some chunk →
             upsert supabase i table chunk onConflict
               = Ret {| error := Some message; count := cnt |} →
             ("Batch " +:+ show_nat (i + 1) +:+ "/"
                +:+ show_nat (length chunks)
                +:+ " failed: " +:+ message) ∈ errors result).
Proof.
  split_and!.
  - reflexivity.
  - intros supabase table data onConflict options c1 c2
      Hlen Hsize Hconf Htot Hup1 Hup2.
    assert (Hbs : effective_batch_size table options = 1000).
    { unfold effective_batch_size, lookup_batch_size.
      rewrite Hsize, Hconf. reflexivity. }
    assert (Hchunks : chunkArray data 1000 = Some [take 1000 data; drop 1000 data]).
    { apply chunkArray_two; lia. }
    rewrite (batchUpsert_nonempty supabase table data onConflict options
               [take 1000 data; drop 1000 data]);
      [| intros ->; discriminate | by rewrite Hbs].
    cbn [batchUpsert_loop].
    destruct (iteration_success supabase table onConflict options
                (length [take 1000 data; drop 1000 data]) (length data)
                0 (take 1000 data) (Some c1)
                {| st_inserted := 0; st_errors := []; st_trace := [] |}
                Htot Hup1 (effective_continue options))
      as (st1 & -> & Hcalls1 & Herrs1 & Hins1).
    destruct (iteration_success supabase table onConflict options
                (length [take 1000 data; drop 1000 data]) (length data)
                1 (drop 1000 data) (Some c2) st1
                Htot Hup2 (effective_continue options))
      as (st2 & -> & Hcalls2 & Herrs2 & Hins2).
    exists (st_trace st2). split.
    + rewrite Hins2, Hins1, Herrs2, Herrs1. reflexivity.
    + rewrite Hcalls2, Hcalls1. reflexivity.
  - intros supabase table data onConflict options chunks i chunk message cnt
      Hne Hcont Hchunks Htot Hi Hpre Hup.
    rewrite (batchUpsert_nonempty supabase table data onConflict options chunks)
      by done.
    rewrite Hcont.
    assert (Hlt : i < length chunks) by (by eapply lookup_lt_Some).
    assert (Hlen : length (take i chunks) = i) by (rewrite length_take; lia).
    destruct (loop_abort supabase table onConflict options (length chunks)
                (length data) (take i chunks) 0 chunk (drop (S i) chunks)
                message cnt
                {| st_inserted := 0; st_errors := []; st_trace := [] |} Htot)
      as (st' & Hrun & Hcalls).
    + intros j c Hj. simpl. apply (Hpre j c).
      * apply lookup_lt_Some in Hj. lia.
      * rewrite lookup_take_Some in Hj. tauto.
    + by rewrite Hlen.
    + rewrite take_drop_middle in Hrun by done. rewrite Hrun.
      exists (st_trace st'). rewrite Hlen. split; [done |].
      rewrite Hcalls. simpl. by erewrite take_S_r.
  - intros supabase table data onConflict options chunks Hne Hcont Hchunks.
    rewrite (batchUpsert_nonempty supabase table data onConflict options chunks)
      by done.
    rewrite Hcont.
    destruct (loop_continue supabase table onConflict options (length chunks)
                (length data) chunks 0
                {| st_inserted := 0; st_errors := []; st_trace := [] |})
      as (st' & -> & Hcalls & _ & Hrec).
    eexists _, _. split_and!; [reflexivity | done | done |].
    intros i chunk message cnt Hi Hup. simpl. by eapply (Hrec i).
Qed.

Lemma batchUpsert_contract_witness :
  batchUpsert echo_backend "test_table" [] "id" None
  = Some (Ret {| inserted := 0; errors := []; batchCount := 0 |}, [])
  ∧ (∃ trace,
       batchUpsert thousand_backend "equity_bar_daily" (seq 0 1500) "id" None
       = Some (Ret {| inserted := 1000 + 1000; errors := []; batchCount := 2 |},
               trace)
       ∧ upsert_calls trace = [take 1000 (seq 0 1500); drop 1000 (seq 0 1500)])
  ∧ (∃ trace,
       batchUpsert failing_backend "test_table" [1; 2] "id"
         (size_option 1 (Some false))
       = Some (Throw ("Batch " +:+ show_nat (0 + 1) +:+ "/"
                        +:+ show_nat (length [[1]; [2]])
                        +:+ " failed: " +:+ "DB Error"), trace)
       ∧ upsert_calls trace = take 1 [[1]; [2]])
  ∧ (∃ result trace,
       batchUpsert failing_backend "test_table" [1; 2] "id"
         (size_option 1 (Some true))
       = Some (Ret result, trace)
       ∧ upsert_calls trace = [[1]; [2]]
       ∧ batchCount result = length [[1]; [2]]
       ∧ ∀ i chunk message cnt,
           [[1]; [2]] !! i = Some chunk →
           upsert failing_backend i "test_table" chunk "id"
             = Ret {| error := Some message; count := cnt |} →
           ("Batch " +:+ show_nat (i + 1) +:+ "/"
              +:+ show_nat (length [[1]; [2]])
              +:+ " failed: " +:+ message) ∈ errors result).
Proof.
  destruct (@batchUpsert_contract nat) as (Hempty & Htwo & Habort & Hcont).
  split_and!.
  - apply Hempty.
  - apply (Htwo thousand_backend "equity_bar_daily" (seq 0 1500) "id" None
             1000 1000).
    + reflexivity.
    + reflexivity.
    + vm_compute. reflexivity.
    + intros callback Hcb. discriminate Hcb.
    + reflexivity.
    + reflexivity.
  - apply (Habort failing_backend "test_table" [1; 2] "id"
             (size_option 1 (Some false)) [[1]; [2]] 0 [1] "DB Error" None).
    + discriminate.
    + reflexivity.
    + reflexivity.
    + intros callback Hcb. discriminate Hcb.
    + reflexivity.
    + intros j c Hj. lia.
    + reflexivity.
  - apply (Hcont failing_backend "test_table" [1; 2] "id"
             (size_option 1 (Some true)) [[1]; [2]]).
    + discriminate.
    + reflexivity.
    + reflexivity.
Defined.

End BatchProofs.

Module TradingCalendarProofs.
Import TradingCalendar.

(** C5. [isBusinessDay] is a total function of its string argument:
    it answers [true] exactly on ["1"] and ["2"] and [false] on every
    other string, among them ["0"] and the empty string. *)
Theorem isBusinessDay_exactly_1_and_2 (holDiv : string) :
  (isBusinessDay holDiv = true ↔ holDiv = "1" ∨ holDiv = "2")
  ∧ (isBusinessDay holDiv = false ↔ holDiv ≠ "1" ∧ holDiv ≠ "2")
  ∧ isBusinessDay "0" = false
  ∧ isBusinessDay "" = false.
Proof.
  unfold isBusinessDay.
  destruct (String.eqb_spec holDiv "1") as [H1|H1];
    destruct (String.eqb_spec holDiv "2") as [H2|H2]; simpl;
    split_and!; try reflexivity; split; intros; try done; intuition congruence.
Qed.

Lemma isBusinessDay_exactly_1_and_2_witness :
  isBusinessDay "2" = true ∧ isBusinessDay "9" = false.
Proof.
  split.
  - apply (proj1 (isBusinessDay_exactly_1_and_2 "2")). right. reflexivity.
  - apply (proj1 (proj2 (isBusinessDay_exactly_1_and_2 "9"))).
    split; discriminate.
Defined.

End TradingCalendarProofs.

Module CronBProofs.
Import Js CronB.

Section RouteFacts.
Context {World : Type}.

Lemma quiet_ret {A : Type} (a : A) : quiet (ret (World := World) a).
Proof. intros st. exists []. by rewrite app_nil_r. Qed.

Lemma quiet_bind {A B : Type} (m : M World A) (k : A → M World B) :
  quiet m → (∀ a, quiet (k a)) → quiet (bind m k).
Proof.
  intros Hm Hk st. unfold bind.
  destruct (Hm st) as (added & Htr & Hq).
  destruct (m st) as [[a|e] st'] eqn:Hrun; simpl in *.
  - destruct (Hk a st') as (added' & Htr' & Hq').
    exists (added ++ added'). split.
    + by rewrite Htr', Htr, app_assoc.
    + by apply Forall_app.
  - by exists added.
Qed.

Lemma quiet_call {A : Type} (e : Event) (f : World → Outcome A * World) :
  is_release e = false → quiet (call e f).
Proof.
  intros He st. unfold call. destruct (f (world st)) as [r w]. simpl.
  exists [e]. split; [done |]. by constructor.
Qed.

Lemma quiet_set_runId (r : string) : quiet (set_runId (World := World) r).
Proof. intros st. exists []. by rewrite app_nil_r. Qed.

Lemma quiet_get_runId : quiet (get_runId (World := World)).
Proof. intros st. exists []. by rewrite app_nil_r. Qed.

Lemma quiet_try_catch {A : Type} (m : M World A) (h : string → M World A) :
  quiet m → (∀ e, quiet (h e)) → quiet (try_catch m h).
Proof.
  intros Hm Hh st. unfold try_catch.
  destruct (Hm st) as (added & Htr & Hq).
  destruct (m st) as [[a|e] st'] eqn:Hrun; simpl in *.
  - by exists added.
  - destruct (Hh e st') as (added' & Htr' & Hq').
    exists (added ++ added'). split.
    + by rewrite Htr', Htr, app_assoc.
    + by apply Forall_app.
Qed.

Lemma returns_ret {A : Type} (a : A) : returns (ret (World := World) a).
Proof. intros st. by exists a. Qed.

Lemma returns_bind {A B : Type} (m : M World A) (k : A → M World B) :
  returns m → (∀ a, returns (k a)) → returns (bind m k).
Proof.
  intros Hm Hk st. unfold bind. destruct (Hm st) as [a Ha].
  destruct (m st) as [[a'|e] st']; simpl in Ha; [apply Hk | discriminate].
Qed.

Lemma returns_try_catch {A : Type} (m : M World A) (h : string → M World A) :
  (∀ e, returns (h e)) → returns (try_catch m h).
Proof.
  intros Hh st. unfold try_catch.
  destruct (m st) as [[a|e] st']; [by exists a | apply Hh].
Qed.

Lemma returns_get_runId : returns (get_runId (World := World)).
Proof. intros st. by eexists. Qed.

Variable env : Env World.

Ltac quiet_steps :=
  repeat first
    [ apply quiet_ret
    | apply quiet_get_runId
    | apply quiet_set_runId
    | apply quiet_call; reflexivity
    | apply quiet_try_catch; [| intros ?]
    | apply quiet_bind; [| intros ?]
    | match goal with |- quiet (if ?b then _ else _) => destruct b end ].

Lemma try_block_quiet : quiet (try_block env).
Proof. unfold try_block, json. quiet_steps. Qed.

Lemma catch_block_quiet e : quiet (catch_block env e).
Proof. unfold catch_block, allSettled2, json. quiet_steps. Qed.

Lemma catch_block_returns e : returns (catch_block env e).
Proof.
  unfold catch_block, allSettled2, json.
  apply returns_bind; [apply returns_get_runId | intros run].
  apply returns_bind; [| intros ?; apply returns_ret].
  destruct (truthy (Some run)); [| apply returns_ret].
  apply returns_bind; [| intros ?];
    apply returns_try_catch; intros ?; apply returns_ret.
Qed.

(** The [try]/[catch] pair always completes with a response, and calls
    [releaseLock] nowhere. *)
Lemma try_catch_completes (st : State World) :
  ∃ response st' added,
    try_catch (try_block env) (catch_block env) st = (Ret response, st')
    ∧ trace st' = trace st ++ added
    ∧ Forall (λ e, is_release e = false) added.
Proof.
  destruct (returns_try_catch (try_block env) (catch_block env)
              (catch_block_returns) st) as [response Hret].
  destruct (quiet_try_catch (try_block env) (catch_block env)
              try_block_quiet catch_block_quiet st) as (added & Htr & Hq).
  destruct (try_catch (try_block env) (catch_block env) st) as [r st'].
  simpl in *. subst r. by exists response, st', added.
Qed.

End RouteFacts.

(** Replacing [releaseLock] leaves the [try]/[catch] pair unchanged. *)
Lemma try_catch_ignores_release {World : Type} (env : Env World) release st :
  try_catch (try_block (with_releaseLock env release))
            (catch_block (with_releaseLock env release)) st
  = try_catch (try_block env) (catch_block env) st.
Proof. reflexivity. Qed.

(** Once the lock is acquired, [POST] reduces to the guarded body. *)
Lemma POST_after_acquire {World : Type} (env : Env World) (w w1 : World)
    (lockResult : LockResult) :
  requireCronAuth env = None →
  createAdminClient env = Ret () →
  acquireLock env w JOB_NAME LOCK_TTL_SECONDS = (Ret lockResult, w1) →
  success lockResult = true →
  POST env (initial w)
  = try_finally (try_catch (try_block env) (catch_block env))
      (finally_block env (token lockResult))
      {| world := w1;
         trace := [EvAcquireLock JOB_NAME LOCK_TTL_SECONDS];
         local_runId := "" |}.
Proof.
  intros Hauth Hclient Hacq Hok. unfold POST. rewrite Hauth, Hclient.
  unfold bind at 1. unfold call at 1. simpl. rewrite Hacq, Hok. reflexivity.
Qed.

(** Route B, once the lock is acquired: the [try]/[catch] pair
    completes with a response without calling [releaseLock]; then
    [releaseLock] is run, once, on the world as it is then, for the job
    name and the token of the lock; and the response does not depend on
    what [releaseLock] does. *)
Lemma cron_b_releases_lock {World : Type} (env : Env World)
    (w w1 : World) (lockResult : LockResult) :
  requireCronAuth env = None →
  createAdminClient env = Ret () →
  acquireLock env w JOB_NAME LOCK_TTL_SECONDS = (Ret lockResult, w1) →
  success lockResult = true →
  ∃ response st1 st,
    try_catch (try_block env) (catch_block env)
      {| world := w1; trace := [EvAcquireLock JOB_NAME LOCK_TTL_SECONDS];
         local_runId := "" |}
    = (Ret response, st1)
    ∧ Forall (λ e, is_release e = false) (trace st1)
    ∧ POST env (initial w) = (Ret response, st)
    ∧ trace st = trace st1 ++ [EvReleaseLock JOB_NAME (token lockResult)]
    ∧ world st = (releaseLock env (world st1) JOB_NAME (token lockResult)).2
    ∧ ∀ release,
        (POST (with_releaseLock env release) (initial w)).1 = Ret response.
Proof.
  intros Hauth Hclient Hacq Hok.
  pose (st0 := {| world := w1;
                  trace := [EvAcquireLock JOB_NAME LOCK_TTL_SECONDS];
                  local_runId := "" |}).
  destruct (try_catch_completes env st0) as (response & st1 & added & Hrun & Htr & Hq).
  assert (Hfin : ∀ env',
            try_catch (try_block env') (catch_block env') st0 = (Ret response, st1) →
            ∃ st,
              try_finally (try_catch (try_block env') (catch_block env'))
                (finally_block env' (token lockResult)) st0 = (Ret response, st)
              ∧ trace st = trace st1
                           ++ [EvReleaseLock JOB_NAME (token lockResult)]
              ∧ world st
                = (releaseLock env' (world st1) JOB_NAME (token lockResult)).2).
  { intros env' Hrun'. unfold try_finally. rewrite Hrun'.
    unfold finally_block, try_catch, call, ret.
    destruct (releaseLock env' (world st1) JOB_NAME (token lockResult))
      as [[[]|e] w2]; simpl; eexists; split_and!; reflexivity. }
  destruct (Hfin env Hrun) as (st & Hpost & Htrace & Hworld).
  exists response, st1, st.
  split_and!.
  - exact Hrun.
  - rewrite Htr. by constructor.
  - by rewrite (POST_after_acquire env w w1 lockResult).
  - exact Htrace.
  - exact Hworld.
  - intros release.
    rewrite (POST_after_acquire (with_releaseLock env release) w w1 lockResult)
      by done.
    destruct (Hfin (with_releaseLock env release)) as (st' & Hpost' & _).
    { by rewrite try_catch_ignores_release. }
    unfold st0 in Hpost'. by rewrite Hpost'.
Qed.

Example POST_already_executed :
  POST (quiet_world_env
          (Ret {| runId := "";
                  start_error := Some "Job already executed for this target date" |})
          (Throw "unused") (Throw "release failed")) (initial ())
  = (Ret {| status := 200;
            body := BodyAlreadyExecuted
                      (Some "Job already executed for this target date") |},
     {| world := ();
        trace := [EvAcquireLock "cron_b" 60; EvStartJobRun "cron_b";
                  EvReleaseLock "cron_b" (Some "tok")];
        local_runId := "" |}).
Proof. reflexivity. Qed.

Example POST_handler_throws :
  POST (quiet_world_env (Ret {| runId := "run-1"; start_error := None |})
          (Throw "boom") (Ret ())) (initial ())
  = (Ret {| status := 500; body := BodyInternalError None (Some "run-1") |},
     {| world := ();
        trace := [EvAcquireLock "cron_b" 60; EvStartJobRun "cron_b";
                  EvUpdateHeartbeat "cron_b" Running "run-1" None;
                  EvHandleCronB "run-1";
                  EvCompleteJobRun "run-1" Failed (Some "boom");
                  EvUpdateHeartbeat "cron_b" Failed "run-1" (Some "boom");
                  EvReleaseLock "cron_b" (Some "tok")];
        local_runId := "run-1" |}).
Proof. reflexivity. Qed.

End CronBProofs.

Module JobLockProofs.
Import Pg JobLock.

Example acquire_fresh :
  acquireLock None None id ∅ test_now "cron_a" 300 "mock-uuid-token"
  = (granted "mock-uuid-token",
     {[ "cron_a" := {| locked_until := test_now + 300000;
                       lock_token := "mock-uuid-token" |} ]}).
Proof. reflexivity. Qed.

Example acquire_read_error :
  acquireLock (Some {| code := "P0001"; message := "Database error" |}) None id
    ∅ test_now "cron_a" 600 "mock-uuid-token"
  = (refused "Database error", ∅).
Proof. reflexivity. Qed.

Example acquire_update_error :
  acquireLock None (Some {| code := ""; message := "No rows updated" |}) id
    {[ "cron_a" := {| locked_until := test_now - 3600000;
                      lock_token := "old-token" |} ]}
    test_now "cron_a" 600 "mock-uuid-token"
  = (refused "Failed to acquire lock (race condition)",
     {[ "cron_a" := {| locked_until := test_now - 3600000;
                       lock_token := "old-token" |} ]}).
Proof. reflexivity. Qed.



(** *** What each statement can do to the table *)

Lemma acquire_write_inv fault tbl job tok until plan r tbl' :
  acquire_write fault tbl job tok until plan = (r, tbl') →
  (success r = false ∧ tbl' = tbl)
  ∨ (r = granted tok
     ∧ tbl' = <[job := {| locked_until := until; lock_token := tok |}]> tbl
     ∧ (plan = PlanInsert ∧ tbl !! job = None
        ∨ ∃ old, plan = PlanOverwrite (locked_until old)
                 ∧ tbl !! job = Some old)).
Proof.
  unfold acquire_write, insert_lock, update_lock_guarded.
  destruct plan as [reason| |previous_until].
  - intros [= <- <-]. by left.
  - destruct fault as [e|].
    + destruct (String.eqb (code e) UNIQUE_VIOLATION); intros [= <- <-]; by left.
    + destruct (tbl !! job) as [old|] eqn:Hold; simpl.
      * intros [= <- <-]. by left.
      * intros [= <- <-]. right. split_and!; [done | done |]. by left.
  - destruct fault as [e|].
    + intros [= <- <-]. by left.
    + destruct (tbl !! job) as [old|] eqn:Hold.
      * destruct (Z.eqb_spec (locked_until old) previous_until) as [<-|Hne].
        -- intros [= <- <-]. right. split_and!; [done | done |].
           right. by exists old.
        -- intros [= <- <-]. by left.
      * intros [= <- <-]. by left.
Qed.

Lemma releaseLock_keeps fault tbl job tok j row :
  tbl !! j = Some row → (j = job → lock_token row ≠ tok) →
  releaseLock fault tbl job tok !! j = Some row.
Proof.
  intros Hrow Hother. unfold releaseLock.
  destruct fault as [e|]; [done |].
  destruct (tbl !! job) as [held|] eqn:Hheld; [| done].
  destruct (String.eqb_spec (lock_token held) tok) as [Heq|Hne]; [| done].
  destruct (decide (j = job)) as [->|Hj].
  - rewrite Hheld in Hrow. injection Hrow as ->. by destruct Hother.
  - by rewrite lookup_delete_ne.
Qed.

Lemma extendLock_inv fault tbl now job tok ttlSeconds ok tbl' :
  extendLock fault tbl now job tok ttlSeconds = (ok, tbl') →
  (ok = false ∧ tbl' = tbl)
  ∨ (ok = true
     ∧ (∃ row, tbl !! job = Some row ∧ lock_token row = tok)
     ∧ tbl' = <[job := {| locked_until := expiry now ttlSeconds;
                           lock_token := tok |}]> tbl).
Proof.
  unfold extendLock. destruct fault as [e|]; [intros [= <- <-]; by left |].
  destruct (tbl !! job) as [row|] eqn:Hrow; [| intros [= <- <-]; by left].
  destruct (String.eqb_spec (lock_token row) tok) as [Heq|Hne].
  - intros [= <- <-]. right. split_and!; [done | by exists row | done].
  - intros [= <- <-]. by left.
Qed.

Lemma cleanup_keeps fault tbl now j row :
  tbl !! j = Some row → (now ≤ locked_until row)%Z →
  (cleanupExpiredLocks fault tbl now).2 !! j = Some row.
Proof.
  intros Hrow Hlive. unfold cleanupExpiredLocks.
  destruct fault as [e|]; [done |]. simpl.
  by apply map_lookup_filter_Some.
Qed.

(** *** The two invariants along every run *)

Lemma plans_stale_step s op :
  plans_stale s → admissible s op → plans_stale (step op s).1.
Proof.
  intros Hstale Hadm. destruct op; simpl.
  - intros p pd prev Hp Hplan. simpl in *.
    specialize (Hstale p pd prev Hp Hplan). lia.
  - intros p pd prev Hp Hplan. simpl in *.
    destruct (decide (process = p)) as [->|Hne].
    + rewrite lookup_insert_eq in Hp. injection Hp as <-. simpl in Hplan.
      unfold acquire_plan, select_lock in Hplan.
      destruct fault as [e|].
      * by destruct (String.eqb (code e) NO_ROWS_RETURNED).
      * destruct (table s !! job) as [row|]; [| done].
        unfold is_active in Hplan.
        destruct (Z.ltb_spec (clock s) (locked_until row)); [done |].
        injection Hplan as <-. done.
    + rewrite lookup_insert_ne in Hp by done. by eapply Hstale.
  - destruct (pending s !! process) as [pd0|] eqn:Hpd; [| done].
    destruct (acquire_write _ _ _ _ _ _) as [r tbl]. simpl.
    intros p pd prev Hp Hplan. simpl in *.
    apply lookup_delete_Some in Hp as [_ Hp]. by eapply Hstale.
  - exact Hstale.
  - destruct (extendLock _ _ _ _ _ _) as [ok tbl]. exact Hstale.
  - destruct (cleanupExpiredLocks _ _ _) as [n tbl]. exact Hstale.
Qed.

Lemma leases_backed_step s op :
  leases_backed s → plans_stale s → admissible s op →
  leases_backed (step op s).1.
Proof.
  intros Hback Hstale Hadm. destruct op; simpl.
  - intros t l Hl Hlive. simpl in *. apply Hback; [done | lia].
  - exact Hback.
  - destruct (pending s !! process) as [pd|] eqn:Hpd; [| done].
    destruct (acquire_write _ _ _ _ _ _) as [r tbl] eqn:Hw. simpl.
    apply acquire_write_inv in Hw as [[Hfail ->]|(-> & -> & Hwhy)].
    + rewrite Hfail. exact Hback.
    + intros t l Hl Hlive. simpl in *.
      destruct (decide (tok = t)) as [->|Hne].
      * rewrite lookup_insert_eq in Hl. injection Hl as <-. simpl.
        by rewrite lookup_insert_eq.
      * rewrite lookup_insert_ne in Hl by done.
        specialize (Hback t l Hl Hlive).
        destruct (decide (pend_job pd = lease_job l)) as [Hjob|Hjob].
        -- exfalso. rewrite <- Hjob in Hback.
           destruct Hwhy as [[_ Hnone]|(old & Hplan & Hold)].
           ++ congruence.
           ++ rewrite Hold in Hback. injection Hback as ->.
              specialize (Hstale process pd _ Hpd Hplan). simpl in Hstale. lia.
        -- by rewrite lookup_insert_ne.
  - intros t l Hl Hlive. simpl in *.
    assert (Hold : leases s !! t = Some l
                   ∧ (t = tok → lease_job l ≠ job)).
    { destruct (leases s !! tok) as [l0|] eqn:Hl0.
      - destruct (String.eqb_spec (lease_job l0) job) as [Heq|Hneq].
        + apply lookup_delete_Some in Hl as [Hne Hl]. done.
        + split; [done |]. intros ->. congruence.
      - split; [done |]. intros ->. congruence. }
    destruct Hold as [Hl' Hother].
    apply releaseLock_keeps; [by apply Hback |].
    simpl. intros Hjob Htok. by apply Hother.
  - destruct (extendLock _ _ _ _ _ _) as [ok tbl] eqn:Hext. simpl.
    apply extendLock_inv in Hext as [[-> ->]|(-> & (row & Hrow & Htok) & ->)].
    + exact Hback.
    + intros t l Hl Hlive. simpl in *.
      destruct (decide (tok = t)) as [->|Hne].
      * rewrite lookup_insert_eq in Hl. injection Hl as <-. simpl.
        by rewrite lookup_insert_eq.
      * rewrite lookup_insert_ne in Hl by done.
        specialize (Hback t l Hl Hlive).
        destruct (decide (job = lease_job l)) as [Hjob|Hjob].
        -- exfalso. rewrite <- Hjob, Hrow in Hback.
           injection Hback as ->. simpl in Htok. congruence.
        -- by rewrite lookup_insert_ne.
  - pose proof (cleanup_keeps fault (table s) (clock s)) as Hkeep.
    destruct (cleanupExpiredLocks _ _ _) as [n tbl]. simpl in *.
    intros t l Hl Hlive. simpl in *.
    apply Hkeep; [by apply Hback | simpl; lia].
Qed.

Lemma reachable_invariants s :
  reachable s → leases_backed s ∧ plans_stale s.
Proof.
  induction 1 as [|s op Hreach [Hback Hstale] Hadm].
  - split.
    + intros t l Hl. simpl in Hl. by rewrite lookup_empty in Hl.
    + intros p pd prev Hp. simpl in Hp. by rewrite lookup_empty in Hp.
  - split; [by apply leases_backed_step | by apply plans_stale_step].
Qed.

Lemma reachable_run ops : ∀ s,
  reachable s → admissible_run ops s → reachable (run ops s).1.
Proof.
  induction ops as [|op ops IH]; intros s Hreach Hadm; simpl in *.
  - done.
  - destruct Hadm as [Hop Hrest].
    destruct (step op s) as [s1 r] eqn:Hstep.
    specialize (IH s1). simpl in *.
    destruct (run ops s1) as [s2 rs]. simpl in *.
    apply IH; [| done].
    replace s1 with (step op s).1 by (by rewrite Hstep).
    by apply reachable_step.
Qed.

(** While the row of a job is active, the write of any [acquireLock] in
    flight for that job is refused and changes nothing. *)
Lemma write_refused_while_active s job row process pd ttlSeconds tok fault :
  plans_stale s →
  table s !! job = Some row → (clock s < locked_until row)%Z →
  pending s !! process = Some pd → pend_job pd = job →
  ∃ s' r,
    step (AcquireWrite process ttlSeconds tok fault) s = (s', ResLock r)
    ∧ success r = false ∧ table s' = table s ∧ leases s' = leases s.
Proof.
  intros Hstale Hrow Hactive Hpd <-. simpl. rewrite Hpd.
  destruct (acquire_write _ _ _ _ _ _) as [r tbl] eqn:Hw.
  apply acquire_write_inv in Hw as [[Hfail ->]|(-> & -> & Hwhy)].
  - eexists _, r. rewrite Hfail. by split_and!.
  - exfalso. destruct Hwhy as [[_ Hnone]|(old & Hplan & Hold)].
    + congruence.
    + rewrite Hold in Hrow. injection Hrow as ->.
      specialize (Hstale process pd _ Hpd Hplan). lia.
Qed.

(** Along every run: at most one unexpired holder per job, whose lease
    is the row; and while the row is active any other acquisition is
    refused. *)
Lemma reachable_exclusion (s : Sys) :
  reachable s →
  (∀ job t1 t2, holds s job t1 → holds s job t2 → t1 = t2)
  ∧ (∀ job t, holds s job t →
       ∃ row, table s !! job = Some row ∧ lock_token row = t
              ∧ (clock s < locked_until row)%Z)
  ∧ (∀ job row process pd ttlSeconds tok fault,
       table s !! job = Some row → (clock s < locked_until row)%Z →
       pending s !! process = Some pd → pend_job pd = job →
       ∃ s' r,
         step (AcquireWrite process ttlSeconds tok fault) s = (s', ResLock r)
         ∧ success r = false ∧ table s' = table s ∧ leases s' = leases s)
  ∧ (∀ job row process ttlSeconds tok read_fault write_fault,
       table s !! job = Some row → (clock s < locked_until row)%Z →
       ∃ s' r,
         run [AcquireRead process job read_fault;
              AcquireWrite process ttlSeconds tok write_fault] s
           = (s', [ResNothing; ResLock r])
         ∧ success r = false ∧ table s' = table s ∧ leases s' = leases s).
Proof.
  intros Hreach. destruct (reachable_invariants s Hreach) as [Hback Hstale].
  assert (Hrow : ∀ job t, holds s job t →
            ∃ row, table s !! job = Some row ∧ lock_token row = t
                   ∧ (clock s < locked_until row)%Z).
  { intros job t (l & Hl & <- & Hlive). eexists. split; [by apply Hback |]. done. }
  split_and!.
  - intros job t1 t2 H1 H2.
    destruct (Hrow job t1 H1) as (row1 & Hr1 & <- & _).
    destruct (Hrow job t2 H2) as (row2 & Hr2 & <- & _).
    congruence.
  - exact Hrow.
  - intros job row process pd ttlSeconds tok fault Hr Hactive Hpd Hjob.
    by eapply write_refused_while_active.
  - intros job row process ttlSeconds tok read_fault write_fault Hr Hactive.
    pose (s1 := (step (AcquireRead process job read_fault) s).1).
    destruct (write_refused_while_active s1 job row process
                {| pend_job := job; pend_now := clock s;
                   pend_plan := acquire_plan (clock s)
                                  (select_lock read_fault (table s) job) |}
                ttlSeconds tok write_fault)
      as (s' & r & Hstep & Hfail & Htbl & Hleases).
    + apply (plans_stale_step s (AcquireRead process job read_fault) Hstale I).
    + exact Hr.
    + exact Hactive.
    + simpl. apply lookup_insert_eq.
    + reflexivity.
    + exists s', r. split_and!; try done.
      cbn [run].
      change (step (AcquireRead process job read_fault) s)
        with (s1, ResNothing).
      cbv iota. by rewrite Hstep.
Qed.

Lemma acquired_by_a_reachable : reachable acquired_by_a.
Proof.
  apply reachable_run; [apply reachable_initial |].
  simpl. split_and!; [done | | done]. apply not_elem_of_empty.
Qed.

Lemma admissible_run_app ops1 : ∀ ops2 s,
  admissible_run (ops1 ++ ops2) s
  ↔ admissible_run ops1 s ∧ admissible_run ops2 (run ops1 s).1.
Proof.
  induction ops1 as [|op ops1 IH]; intros ops2 s; simpl.
  - tauto.
  - rewrite IH. destruct (step op s) as [s1 r]. simpl.
    destruct (run ops1 s1) as [s2 rs]. simpl. tauto.
Qed.

Lemma clock_step s op : admissible s op → (clock s ≤ clock (step op s).1)%Z.
Proof.
  intros Hadm. destruct op; simpl in *; try lia.
  - destruct (pending s !! process); [| simpl; lia].
    destruct (acquire_write _ _ _ _ _ _). simpl. lia.
  - destruct (extendLock _ _ _ _ _ _). simpl. lia.
  - destruct (cleanupExpiredLocks _ _ _). simpl. lia.
Qed.

Lemma clock_run ops : ∀ s,
  admissible_run ops s → (clock s ≤ clock (run ops s).1)%Z.
Proof.
  induction ops as [|op ops IH]; intros s Hadm; simpl in *; [lia |].
  destruct Hadm as [Hop Hrest].
  pose proof (clock_step s op Hop) as Hstep.
  destruct (step op s) as [s1 r]. simpl in *.
  specialize (IH s1 Hrest). destruct (run ops s1) as [s2 rs]. simpl in *. lia.
Qed.

(** One step leaves an active row where it is, unless it is a release or
    an extension with the token of that row. *)
Lemma active_row_step s op job row :
  reachable s → admissible s op →
  table s !! job = Some row → (clock s < locked_until row)%Z →
  releases job (lock_token row) op = false →
  extends job (lock_token row) op = false →
  table (step op s).1 !! job = Some row.
Proof.
  intros Hreach Hadm Hrow Hactive Hrel Hext.
  destruct (reachable_invariants s Hreach) as [_ Hstale].
  destruct op; simpl in *.
  - done.
  - done.
  - destruct (pending s !! process) as [pd|] eqn:Hpd; [| done].
    destruct (decide (pend_job pd = job)) as [Hjob|Hjob].
    + destruct (write_refused_while_active s job row process pd ttlSeconds tok
                  fault Hstale Hrow Hactive Hpd Hjob)
        as (s' & r & Hstep & _ & Htbl & _).
      simpl in Hstep. rewrite Hpd in Hstep.
      destruct (acquire_write _ _ _ _ _ _) as [r0 tbl].
      injection Hstep as <- <-. simpl in *. by rewrite Htbl.
    + destruct (acquire_write _ _ _ _ _ _) as [r tbl] eqn:Hw. simpl.
      apply acquire_write_inv in Hw as [[_ ->]|(_ & -> & _)]; [done |].
      by rewrite lookup_insert_ne.
  - apply releaseLock_keeps; [done |]. intros Hj Ht. subst.
    by rewrite !String.eqb_refl in Hrel.
  - destruct (extendLock _ _ _ _ _ _) as [ok tbl] eqn:Hx. simpl.
    apply extendLock_inv in Hx as [[_ ->]|(_ & (held & Hheld & Htok) & ->)];
      [done |].
    destruct (decide (job0 = job)) as [->|Hjob].
    + rewrite Hheld in Hrow. injection Hrow as ->. subst tok.
      by rewrite !String.eqb_refl in Hext.
    + by rewrite lookup_insert_ne.
  - pose proof (cleanup_keeps fault (table s) (clock s) job row Hrow) as Hkeep.
    destruct (cleanupExpiredLocks _ _ _) as [n tbl]. simpl in *.
    apply Hkeep. lia.
Qed.

Lemma active_row_run ops : ∀ s job row,
  reachable s → admissible_run ops s →
  table s !! job = Some row →
  (clock (run ops s).1 < locked_until row)%Z →
  Forall (λ op, releases job (lock_token row) op = false) ops →
  Forall (λ op, extends job (lock_token row) op = false) ops →
  table (run ops s).1 !! job = Some row.
Proof.
  induction ops as [|op ops IH]; intros s job row Hreach Hadm Hrow Hend Hrel Hext;
    simpl in *; [done |].
  destruct Hadm as [Hop Hrest].
  apply Forall_cons in Hrel as [Hrel1 Hrel].
  apply Forall_cons in Hext as [Hext1 Hext].
  pose proof (reachable_step s op Hreach Hop) as Hreach1.
  pose proof (clock_step s op Hop) as Hclock1.
  pose proof (clock_run ops (step op s).1 Hrest) as Hclock.
  pose proof (active_row_step s op job row Hreach Hop Hrow) as Hkeep.
  destruct (step op s) as [s1 r]. simpl in *.
  specialize (IH s1 job row Hreach1 Hrest).
  destruct (run ops s1) as [s2 rs]. simpl in *.
  apply IH; [| done | done | done].
  apply Hkeep; [lia | done | done].
Qed.

Lemma run_cons_fst op ops s : (run (op :: ops) s).1 = (run ops (step op s).1).1.
Proof.
  simpl. destruct (step op s) as [s1 r]. simpl.
  by destruct (run ops s1) as [s2 rs].
Qed.

(** One step keeps the row of the holder in step with the lease it
    asked for last, as long as that lease has not run out and the
    holder does not release. *)
Lemma lease_row_step s op job tok until :
  reachable s → admissible s op →
  releases job tok op = false →
  ((clock s < until)%Z →
   table s !! job = Some {| locked_until := until; lock_token := tok |}) →
  (clock (step op s).1 < lease_step job tok until op s)%Z →
  table (step op s).1 !! job
  = Some {| locked_until := lease_step job tok until op s; lock_token := tok |}.
Proof.
  intros Hreach Hadm Hrel Hrow Hlive.
  pose proof (clock_step s op Hadm) as Hclock.
  assert (Hother : extends job tok op = false →
            lease_step job tok until op s = until →
            table (step op s).1 !! job
            = Some {| locked_until := until; lock_token := tok |}).
  { intros Hext Hsame. rewrite Hsame in Hlive.
    apply (active_row_step s op job
             {| locked_until := until; lock_token := tok |});
      try done; [apply Hrow | simpl]; lia. }
  destruct op as [elapsed|process job0|process ttl0 tok0 fault|job0 tok0 fault
                 |job0 tok0 ttl0 fault|fault];
    try (rewrite (Hother eq_refl eq_refl); reflexivity).
  cbn [lease_step] in *.
  destruct (String.eqb job0 job && String.eqb tok0 tok) eqn:Hmine.
  - apply andb_true_iff in Hmine as [Hj Ht].
    apply String.eqb_eq in Hj as ->. apply String.eqb_eq in Ht as ->.
    cbn [andb] in *. simpl.
    destruct (extendLock fault (table s) (clock s) job tok ttl0)
      as [ok tbl] eqn:Hext.
    apply extendLock_inv in Hext as [[-> ->]|(-> & _ & ->)]; simpl in *.
    + apply Hrow. lia.
    + apply lookup_insert_eq.
  - cbn [andb] in *. by apply Hother.
Qed.

Lemma lease_row_run ops : ∀ s job tok until,
  reachable s → admissible_run ops s →
  Forall (λ op, releases job tok op = false) ops →
  ((clock s < until)%Z →
   table s !! job = Some {| locked_until := until; lock_token := tok |}) →
  (clock (run ops s).1 < lease_after job tok until ops s)%Z →
  table (run ops s).1 !! job
  = Some {| locked_until := lease_after job tok until ops s;
            lock_token := tok |}.
Proof.
  induction ops as [|op ops IH]; intros s job tok until Hreach Hadm Hrel Hrow Hlive.
  - simpl in *. by apply Hrow.
  - destruct Hadm as [Hop Hrest].
    apply Forall_cons in Hrel as [Hrel1 Hrel].
    rewrite run_cons_fst in *. cbn [lease_after] in *.
    apply IH; try done.
    + by apply reachable_step.
    + intros Hlive1. by apply lease_row_step.
Qed.

(** C3, amended.  (i) Once a lock is acquired with TTL [T], every write
    of an [acquireLock] by another caller for the same job, made before
    [T] has elapsed, before the holder releases the lock, and - when
    the holder has called [extendLock], which sets locked-until to
    [now + ttl] of that call, be it earlier than before - before the
    locked-until of the holder's latest successful extension, answers
    [{success: false}], whatever lock operations - [acquireLock],
    [releaseLock], [extendLock], [cleanupExpiredLocks], by anyone, the
    holder's own extensions included - and whatever time passes in
    between.  (ii) In every reachable state a job has at most one
    holder whose lease has not run out, that lease is the row of the
    job, and while the locked-until of the row is in the future any
    other [acquireLock] for the job is refused and changes nothing. *)
Theorem lock_mutual_exclusion :
  (∀ (before between : list Op) process ttlSeconds tok fault
     process' ttlSeconds' tok' fault' s1 rs1 pd s2 s3 rs3 pd' s4 r,
     admissible_run
       (before ++ [AcquireWrite process ttlSeconds tok fault] ++ between
          ++ [AcquireWrite process' ttlSeconds' tok' fault']) initial →
     run before initial = (s1, rs1) →
     pending s1 !! process = Some pd →
     step (AcquireWrite process ttlSeconds tok fault) s1
       = (s2, ResLock (granted tok)) →
     run between s2 = (s3, rs3) →
     Forall (λ op, releases (pend_job pd) tok op = false) between →
     pending s3 !! process' = Some pd' →
     pend_job pd' = pend_job pd →
     (clock s3 < expiry (pend_now pd) ttlSeconds)%Z →
     (clock s3 < lease_after (pend_job pd) tok
                   (expiry (pend_now pd) ttlSeconds) between s2)%Z →
     step (AcquireWrite process' ttlSeconds' tok' fault') s3 = (s4, ResLock r) →
     success r = false)
  ∧ (∀ s, reachable s →
       (∀ job t1 t2, holds s job t1 → holds s job t2 → t1 = t2)
       ∧ (∀ job t, holds s job t →
            ∃ row, table s !! job = Some row ∧ lock_token row = t
                   ∧ (clock s < locked_until row)%Z)
       ∧ (∀ job row process ttlSeconds tok read_fault write_fault,
            table s !! job = Some row → (clock s < locked_until row)%Z →
            ∃ s' r,
              run [AcquireRead process job read_fault;
                   AcquireWrite process ttlSeconds tok write_fault] s
                = (s', [ResNothing; ResLock r])
              ∧ success r = false ∧ table s' = table s
              ∧ leases s' = leases s)).
Proof.
  split.
  - intros before between process ttlSeconds tok fault
      process' ttlSeconds' tok' fault' s1 rs1 pd s2 s3 rs3 pd' s4 r
      Hadm Hbefore Hpd Hgrant Hbetween Hrel Hpd' Hjob Hclock Hlease Hwrite.
    apply admissible_run_app in Hadm as [Hadm1 Hadm].
    rewrite Hbefore in Hadm. simpl fst in Hadm.
    change ([AcquireWrite process ttlSeconds tok fault] ++ between
              ++ [AcquireWrite process' ttlSeconds' tok' fault'])
      with (AcquireWrite process ttlSeconds tok fault
              :: (between ++ [AcquireWrite process' ttlSeconds' tok' fault']))
      in Hadm.
    cbn [admissible_run] in Hadm. destruct Hadm as [Hadm2 Hadm].
    rewrite Hgrant in Hadm. simpl fst in Hadm.
    apply admissible_run_app in Hadm as [Hadm3 _].
    assert (Hreach1 : reachable s1).
    { replace s1 with (run before initial).1 by (by rewrite Hbefore).
      apply reachable_run; [apply reachable_initial | done]. }
    assert (Hreach2 : reachable s2).
    { replace s2 with (step (AcquireWrite process ttlSeconds tok fault) s1).1
        by (by rewrite Hgrant).
      by apply reachable_step. }
    assert (Hreach3 : reachable s3).
    { replace s3 with (run between s2).1 by (by rewrite Hbetween).
      by apply reachable_run. }
    set (until := expiry (pend_now pd) ttlSeconds) in *.
    assert (Hrow2 : table s2 !! pend_job pd
                    = Some {| locked_until := until; lock_token := tok |}).
    { simpl in Hgrant. rewrite Hpd in Hgrant.
      destruct (acquire_write _ _ _ _ _ _) as [r0 tbl] eqn:Hw.
      injection Hgrant as <- Hr0. subst r0. simpl.
      apply acquire_write_inv in Hw as [[Hno _]|(_ & -> & _)]; [done |].
      apply lookup_insert_eq. }
    assert (Hrow3 : table s3 !! pend_job pd
                    = Some {| locked_until :=
                                lease_after (pend_job pd) tok until between s2;
                              lock_token := tok |}).
    { replace s3 with (run between s2).1 by (by rewrite Hbetween).
      apply lease_row_run; try done.
      by rewrite Hbetween. }
    destruct (reachable_invariants s3 Hreach3) as [_ Hstale3].
    destruct (write_refused_while_active s3 (pend_job pd) _ process' pd'
                ttlSeconds' tok' fault' Hstale3 Hrow3 Hlease Hpd' Hjob)
      as (s' & r' & Hstep & Hfail & _).
    rewrite Hwrite in Hstep. by injection Hstep as _ <-.
  - intros s Hreach.
    destruct (reachable_exclusion s Hreach) as (Hone & Hrow & _ & Hatomic).
    by split_and!.
Qed.

Lemma lock_mutual_exclusion_witness :
  success (refused LOCK_HELD) = false
  ∧ ∃ s' r,
      run [AcquireRead 2 "cron_a" None; AcquireWrite 2 600 "token-b" None]
        acquired_by_a
      = (s', [ResNothing; ResLock r])
      ∧ success r = false
      ∧ table s' = table acquired_by_a
      ∧ leases s' = leases acquired_by_a.
Proof.
  pose (before := [AcquireRead 1 "cron_a" None]).
  pose (between := [Cleanup None; Extend "cron_a" "token-a" 1 None;
                    Extend "cron_a" "token-b" 1 None;
                    Release "cron_a" "token-b" None; Tick 500;
                    AcquireRead 2 "cron_a" None]).
  pose (s1 := (run before initial).1).
  pose (s2 := (step (AcquireWrite 1 600 "token-a" None) s1).1).
  pose (s3 := (run between s2).1).
  pose (s4 := (step (AcquireWrite 2 600 "token-b" None) s3).1).
  split.
  - apply (proj1 lock_mutual_exclusion before between 1 600%Z "token-a" None
             2 600%Z "token-b" None
             s1 (run before initial).2
             {| pend_job := "cron_a"; pend_now := 0; pend_plan := PlanInsert |}
             s2 s3 (run between s2).2
             {| pend_job := "cron_a"; pend_now := 500;
                pend_plan := PlanRefuse LOCK_HELD |}
             s4 (refused LOCK_HELD)).
    + apply (bool_decide_unpack _). vm_compute. exact I.
    + vm_compute. reflexivity.
    + vm_compute. reflexivity.
    + vm_compute. reflexivity.
    + vm_compute. reflexivity.
    + repeat constructor.
    + vm_compute. reflexivity.
    + reflexivity.
    + vm_compute. reflexivity.
    + vm_compute. reflexivity.
    + vm_compute. reflexivity.
  - apply (proj2 (proj2 (proj2 lock_mutual_exclusion acquired_by_a
                           acquired_by_a_reachable))
             "cron_a" {| locked_until := 600000; lock_token := "token-a" |}
             2 600%Z "token-b" None None).
    + vm_compute. reflexivity.
    + vm_compute. reflexivity.
Defined.

(** After the holder has called [extendLock] with a shorter TTL, the
    lock can change hands before the TTL of the acquisition is over. *)
Example extend_then_reacquire :
  run [AcquireRead 1 "cron_a" None; AcquireWrite 1 600 "token-a" None;
       Extend "cron_a" "token-a" 1 None; Tick 2000;
       AcquireRead 2 "cron_a" None; AcquireWrite 2 600 "token-b" None]
      initial
  = ({| table := {[ "cron_a" := {| locked_until := 602000;
                                   lock_token := "token-b" |} ]};
        clock := 2000;
        pending := ∅;
        issued := {[ "token-b" ]} ∪ ({[ "token-a" ]} ∪ ∅);
        leases := <[ "token-b" := {| lease_job := "cron_a";
                                     lease_until := 602000 |} ]>
                    (<[ "token-a" := {| lease_job := "cron_a";
                                        lease_until := 1000 |} ]>
                       (<[ "token-a" := {| lease_job := "cron_a";
                                           lease_until := 600000 |} ]> ∅)) |},
     [ResNothing; ResLock (granted "token-a"); ResBool true; ResNothing;
      ResNothing; ResLock (granted "token-b")]).
Proof. vm_compute. reflexivity. Qed.

(** C3 as stated fails: process 1 acquires [cron_a] for 600 seconds at
    time 0 and extends it by 1 second; 2 seconds later, with no release,
    process 2 acquires the lock. *)
Lemma exclusive_for_whole_ttl_fails : ¬ exclusive_for_whole_ttl.
Proof.
  intros Hclaim.
  pose (before := [AcquireRead 1 "cron_a" None]).
  pose (between := [Extend "cron_a" "token-a" 1 None; Tick 2000;
                    AcquireRead 2 "cron_a" None]).
  pose (s1 := (run before initial).1).
  pose (s2 := (step (AcquireWrite 1 600 "token-a" None) s1).1).
  pose (s3 := (run between s2).1).
  pose (s4 := (step (AcquireWrite 2 600 "token-b" None) s3).1).
  assert (Hfalse : success (granted "token-b") = false); [| discriminate].
  apply (Hclaim before between 1 600%Z "token-a" None 2 600%Z "token-b" None
           s1 (run before initial).2
           {| pend_job := "cron_a"; pend_now := 0; pend_plan := PlanInsert |}
           s2 s3 (run between s2).2
           {| pend_job := "cron_a"; pend_now := 2000;
              pend_plan := PlanOverwrite 1000 |}
           s4 (granted "token-b")).
  - simpl. split_and!; done.
  - vm_compute. reflexivity.
  - vm_compute. reflexivity.
  - vm_compute. reflexivity.
  - vm_compute. reflexivity.
  - repeat constructor.
  - vm_compute. reflexivity.
  - reflexivity.
  - discriminate.
  - vm_compute. reflexivity.
  - vm_compute. reflexivity.
Qed.

End JobLockProofs.

Module JobRunProofs.
Import Js Pg JobRun.

Example startJobRun_first :
  startJobRun None "test-run-id-123" ∅ 0 cron_a (Some "2024-01-15") None
  = ({| runId := "test-run-id-123"; error := None |},
     {[ "test-run-id-123" :=
          {| job_name := cron_a; target_date := Some "2024-01-15";
             status := running; started_at := 0; finished_at := None;
             error_message := None; meta := "{}" |} ]}).
Proof. vm_compute. reflexivity. Qed.

Example startJobRun_database_error :
  startJobRun (Some {| code := "P0001"; message := "Database error" |})
    "unused" ∅ 0 cron_a None None
  = ({| runId := ""; error := Some "Database error" |}, ∅).
Proof. reflexivity. Qed.

(** Without a target date the unique index does not apply: two runs of
    the same job are two rows. *)
Example startJobRun_without_date_twice :
  (startJobRun None "run-2"
     (startJobRun None "run-1" ∅ 0 cron_b None None).2 1 cron_b None None).1
  = {| runId := "run-2"; error := None |}.
Proof. vm_compute. reflexivity. Qed.



Lemma string_length_append (a b : string) :
  String.length (a +:+ b) = String.length a + String.length b.
Proof. induction a as [|c a IH]; simpl; [done | by rewrite IH]. Qed.

Lemma string_length_prefix (n : nat) : ∀ s : string,
  n ≤ String.length s → String.length (String.substring 0 n s) = n.
Proof.
  induction n as [|n IH]; intros s Hn.
  - by destruct s.
  - destruct s as [|c s]; simpl in *; [lia |]. rewrite IH; [done | lia].
Qed.

Example truncate_fifteen_thousand :
  truncate_error_message (repeat_char "x" 15000)
  = repeat_char "x" 10000 +:+ "... (truncated)".
Proof. vm_compute. reflexivity. Qed.

(** C7. [completeJobRun(runId, status, errorMessage?)] (i) always
    returns normally; (ii) sets status and finished-at of the row and
    leaves the other rows alone; (iii) stores an error message longer
    than 10,000 characters as its first 10,000 characters followed by
    the marker "... (truncated)", and a shorter one as it is; (iv) on a
    storage error still returns normally, the table being as it was. *)
Theorem completeJobRun_contract (tbl : gmap string Row) (now : Z)
    (run_id : string) (st : Status) (errorMessage : option string) :
  (∀ fault, (completeJobRun fault tbl now run_id st errorMessage).1 = Ret ())
  ∧ (∀ row, tbl !! run_id = Some row →
       (completeJobRun None tbl now run_id st errorMessage).2 !! run_id
       = Some {| job_name := job_name row; target_date := target_date row;
                 status := st; started_at := started_at row;
                 finished_at := Some now;
                 error_message := truncate_error_message <$> errorMessage;
                 meta := meta row |})
  ∧ (∀ other, other ≠ run_id →
       (completeJobRun None tbl now run_id st errorMessage).2 !! other
       = tbl !! other)
  ∧ (∀ msg, 10000 < String.length msg →
       truncate_error_message msg
       = String.substring 0 10000 msg +:+ "... (truncated)"
       ∧ String.length (truncate_error_message msg) = 10000 + 15)
  ∧ (∀ msg, String.length msg ≤ 10000 → truncate_error_message msg = msg)
  ∧ (∀ e, completeJobRun (Some e) tbl now run_id st errorMessage
          = (Ret (), tbl)).
Proof.
  split_and!.
  - intros fault. unfold completeJobRun, update_job_run. by destruct fault.
  - intros row Hrow. unfold completeJobRun, update_job_run. simpl.
    rewrite lookup_alter_eq, Hrow. reflexivity.
  - intros other Hne. unfold completeJobRun, update_job_run. simpl.
    by rewrite lookup_alter_ne.
  - intros msg Hlong.
    assert (Hcut : truncate_error_message msg
                   = String.substring 0 10000 msg +:+ "... (truncated)").
    { unfold truncate_error_message, MAX_ERROR_MESSAGE_LENGTH, TRUNCATION_MARKER.
      by rewrite (proj2 (Nat.ltb_lt _ _) Hlong). }
    split; [done |].
    rewrite Hcut, string_length_append, string_length_prefix by lia.
    reflexivity.
  - intros msg Hshort.
    unfold truncate_error_message, MAX_ERROR_MESSAGE_LENGTH.
    by rewrite (proj2 (Nat.ltb_ge _ _) Hshort).
  - intros e. reflexivity.
Qed.

Lemma completeJobRun_contract_witness :
  let row := {| job_name := cron_a; target_date := Some "2024-01-15";
                status := running; started_at := 0%Z; finished_at := None;
                error_message := None; meta := "{}" |} in
  (completeJobRun None {[ "run-123" := row ]} 7 "run-123" failed
     (Some (repeat_char "x" 15000))).2 !! "run-123"
  = Some {| job_name := cron_a; target_date := Some "2024-01-15";
            status := failed; started_at := 0%Z; finished_at := Some 7%Z;
            error_message :=
              truncate_error_message <$> Some (repeat_char "x" 15000);
            meta := "{}" |}
  ∧ truncate_error_message (repeat_char "x" 15000)
    = String.substring 0 10000 (repeat_char "x" 15000) +:+ "... (truncated)"
  ∧ truncate_error_message "API timeout" = "API timeout".
Proof.
  intros row.
  pose proof (completeJobRun_contract {[ "run-123" := row ]} 7 "run-123" failed
                (Some (repeat_char "x" 15000)))
    as (_ & Hrow & _ & Hlong & Hshort & _).
  split_and!.
  - apply (Hrow row). apply lookup_singleton_eq.
  - apply (Hlong (repeat_char "x" 15000)).
    apply Nat.ltb_lt. vm_compute. reflexivity.
  - apply (Hshort "API timeout").
    apply Nat.leb_le. vm_compute. reflexivity.
Defined.

End JobRunProofs.

Module HeartbeatProofs.
Import Heartbeat.

Example healthy_after_one_hour :
  isJobHealthy test_clock (Some (seen 1 success None)) DEFAULT_STALE_HOURS
  = {| healthy := true; reason := None |}.
Proof. reflexivity. Qed.

Example stale_after_26_hours :
  isJobHealthy test_clock (Some (seen 26 success None)) DEFAULT_STALE_HOURS
  = {| healthy := false; reason := Some (ReasonStale 26) |}.
Proof. reflexivity. Qed.

Example stale_with_custom_threshold :
  isJobHealthy test_clock (Some (seen 2 success None)) 1
  = {| healthy := false; reason := Some (ReasonStale 2) |}.
Proof. reflexivity. Qed.

(** C6. [isJobHealthy], as a function of the clock, the heartbeat record
    and the staleness threshold (25 hours by default): no record gives
    unhealthy with reason "No heartbeat record found"; a record whose
    last status is [failed] gives unhealthy however recent it is; a
    record older than the threshold gives unhealthy whatever its status;
    a record newer than the threshold whose last status is not [failed]
    - [running] included - gives healthy. *)
Theorem isJobHealthy_cases (now threshold : Z) :
  isJobHealthy now None threshold
    = {| healthy := false;
         reason := Some (ReasonText "No heartbeat record found") |}
  ∧ (∀ hb, last_status hb = failed →
       healthy (isJobHealthy now (Some hb) threshold) = false)
  ∧ (∀ hb, (threshold * 3600000 < now - last_seen_at hb)%Z →
       healthy (isJobHealthy now (Some hb) threshold) = false)
  ∧ (∀ hb, (now - last_seen_at hb < threshold * 3600000)%Z →
       last_status hb ≠ failed →
       isJobHealthy now (Some hb) threshold
       = {| healthy := true; reason := None |})
  ∧ (∀ hb, (now - last_seen_at hb < threshold * 3600000)%Z →
       last_status hb = running →
       isJobHealthy now (Some hb) threshold
       = {| healthy := true; reason := None |})
  ∧ DEFAULT_STALE_HOURS = 25%Z.
Proof.
  unfold isJobHealthy, MS_PER_HOUR. split_and!.
  - reflexivity.
  - intros hb Hfailed. rewrite Hfailed.
    by destruct (threshold * 3600000 <? now - last_seen_at hb)%Z.
  - intros hb Hold. by rewrite (proj2 (Z.ltb_lt _ _) Hold).
  - intros hb Hnew Hok. rewrite (proj2 (Z.ltb_ge _ _)) by lia.
    by destruct (last_status hb).
  - intros hb Hnew Hrun. rewrite (proj2 (Z.ltb_ge _ _)) by lia.
    by rewrite Hrun.
  - reflexivity.
Qed.

Lemma isJobHealthy_cases_witness :
  healthy (isJobHealthy test_clock (Some (seen 1 failed (Some "API timeout")))
             DEFAULT_STALE_HOURS) = false
  ∧ healthy (isJobHealthy test_clock (Some (seen 26 success None))
               DEFAULT_STALE_HOURS) = false
  ∧ isJobHealthy test_clock (Some (seen 1 success None)) DEFAULT_STALE_HOURS
    = {| healthy := true; reason := None |}
  ∧ isJobHealthy test_clock (Some (seen 0 running None)) DEFAULT_STALE_HOURS
    = {| healthy := true; reason := None |}.
Proof.
  pose proof (isJobHealthy_cases test_clock DEFAULT_STALE_HOURS)
    as (_ & Hfailed & Hstale & Hfresh & Hrunning & _).
  split_and!.
  - apply Hfailed. reflexivity.
  - apply Hstale. vm_compute. reflexivity.
  - apply Hfresh; [vm_compute; reflexivity | discriminate].
  - apply Hrunning; [vm_compute; reflexivity | reflexivity].
Defined.

End HeartbeatProofs.

Module JQuantsClientProofs.
Import Js JQuantsClient.

Example two_pages_drained :
  getEquityBarsDaily two_pages 10
  = Some (Ret ["1301 2024-01-15"; "1301 2024-01-16"],
          [EvFetch None; EvYield ["1301 2024-01-15"];
           EvFetch (Some "page2"); EvYield ["1301 2024-01-16"]]).
Proof. reflexivity. Qed.

(** C8. When the first response carries a page token and the second one
    omits it, a paginated fetch makes exactly two HTTP calls - the
    second with the token of the first page - and returns the items of
    the first page followed by those of the second; the first page is
    handed over before the second call is made: the first [next()] of
    the generator makes one call only and yields page one. *)
Theorem two_page_fetch {Item : Type}
    (request : nat → option string → Outcome (Page Item))
    (page1 page2 : list Item) (key : string) (fuel : nat) :
  request 0 None = Ret {| data := page1; pagination_key := Some key |} →
  request 1 (Some key) = Ret {| data := page2; pagination_key := None |} →
  3 ≤ fuel →
  getEquityBarsDaily request fuel
    = Some (Ret (page1 ++ page2),
            [EvFetch None; EvYield page1; EvFetch (Some key); EvYield page2])
  ∧ count_fetches [EvFetch None; EvYield page1; EvFetch (Some key);
                   EvYield page2] = 2
  ∧ requestPaginated_next request 0 NotStarted
    = (IterYield page1, AfterYield (Some key), [EvFetch None; EvYield page1])
  ∧ requestPaginated_next request 1 (AfterYield (Some key))
    = (IterYield page2, AfterYield None, [EvFetch (Some key); EvYield page2])
  ∧ requestPaginated_next request 2 (AfterYield None) = (IterDone, Finished, []).
Proof.
  intros Hfirst Hsecond Hfuel.
  destruct fuel as [|[|[|fuel]]]; [lia | lia | lia |].
  unfold getEquityBarsDaily. split_and!.
  - cbn [drain]. unfold count_fetches at 1. cbn.
    unfold fetch_page. rewrite Hfirst. cbn.
    unfold fetch_page. rewrite Hsecond. cbn. reflexivity.
  - reflexivity.
  - cbn. unfold fetch_page. by rewrite Hfirst.
  - cbn. unfold fetch_page. by rewrite Hsecond.
  - reflexivity.
Qed.

Lemma two_page_fetch_witness :
  getEquityBarsDaily two_pages 3
  = Some (Ret (["1301 2024-01-15"] ++ ["1301 2024-01-16"]),
          [EvFetch None; EvYield ["1301 2024-01-15"];
           EvFetch (Some "page2"); EvYield ["1301 2024-01-16"]]).
Proof.
  apply (two_page_fetch two_pages ["1301 2024-01-15"] ["1301 2024-01-16"]
           "page2" 3); [reflexivity | reflexivity | lia].
Defined.

End JQuantsClientProofs.

Module BatchReadProofs.
Import Js Batch BatchRead.

(** The mocks of the unit tests. *)
Example batchSelect_two_pages :
  batchSelect
    {| range := λ n _, match n with
                       | 0 => Ret {| data := Some [1; 2]; error := None |}
                       | 1 => Ret {| data := Some [3]; error := None |}
                       | _ => Ret {| data := Some []; error := None |}
                       end |}
    "test_table"
    (Some {| pageSize := Some 2; maxPages := None; columns := None;
             filter := None; orderBy := None |})
  = (Ret [1; 2; 3],
     [ {| q_table := "test_table"; q_columns := "*"; q_where := None;
          q_order := None; q_from := 0; q_to := 1 |};
       {| q_table := "test_table"; q_columns := "*"; q_where := None;
          q_order := None; q_from := 2; q_to := 3 |} ]).
Proof. reflexivity. Qed.

Example batchSelect_error_first_page :
  (batchSelect (T := nat)
     {| range := λ _ _, Ret {| data := None; error := Some "DB Error" |} |}
     "test_table" None).1
  = Throw "Batch select failed at page 0: DB Error".
Proof. reflexivity. Qed.

Section SelectFacts.
Context {T : Type}.
Variable table : string.
Variable options : option BatchSelectOptions.

Lemma page_query_from page :
  Z.to_nat (q_from (page_query table options page))
  = page * effective_page_size options.
Proof. simpl. lia. Qed.

Lemma steady_page (rows : list T) page :
  1 ≤ effective_page_size options →
  rows_between rows (q_from (page_query table options page))
    (q_to (page_query table options page))
  = take (effective_page_size options)
      (drop (page * effective_page_size options) rows).
Proof.
  intros Hsize. unfold rows_between. rewrite page_query_from. simpl.
  f_equal. lia.
Qed.

(** Reading a steady table, from a page boundary on. *)
Lemma batchSelect_loop_steady (rows : list T) :
  1 ≤ effective_page_size options →
  ∀ remaining page queries,
    page * effective_page_size options ≤ length rows →
    (batchSelect_loop (steady_table rows) table options remaining page
       (take (page * effective_page_size options) rows) queries).1
    = Ret (take ((page + remaining) * effective_page_size options) rows).
Proof.
  intros Hsize. set (size := effective_page_size options) in *.
  induction remaining as [|remaining IH]; intros page queries Hpage.
  - simpl. by rewrite Nat.add_0_r.
  - cbn [batchSelect_loop]. cbn [range steady_table error data].
    rewrite steady_page by done. fold size.
    set (pg := take size (drop (page * size) rows)).
    assert (Hlen : length pg = size `min` (length rows - page * size)).
    { unfold pg. by rewrite length_take, length_drop. }
    destruct (Nat.eqb_spec (length pg) 0) as [Hzero|Hnz].
    + simpl. rewrite !take_ge; [done | nia | lia].
    + destruct (Nat.ltb_spec (length pg) size) as [Hshort|Hfull].
      * simpl. unfold pg.
        rewrite (take_ge (drop _ _)) by (rewrite length_drop; lia).
        rewrite take_drop. rewrite take_ge; [done | nia].
      * unfold pg. rewrite take_take_drop.
        replace (page * size + size) with (S page * size) by lia.
        rewrite IH by (simpl; lia).
        do 2 f_equal. lia.
Qed.

(** Whatever the backend answers, the queries made are those of pages
    0, 1, 2, ... in order, and there are at most [remaining] new ones. *)
Lemma batchSelect_loop_queries (supabase : SupabaseReader T) :
  ∀ remaining page results queries,
    ∃ k, k ≤ remaining
         ∧ (batchSelect_loop supabase table options remaining page results
              queries).2
           = queries ++ map (page_query table options) (seq page k).
Proof.
  induction remaining as [|remaining IH]; intros page results queries.
  - exists 0. simpl. by rewrite app_nil_r.
  - cbn [batchSelect_loop].
    assert (Hone : queries ++ [page_query table options page]
                   = queries ++ map (page_query table options) (seq page 1))
      by done.
    destruct (range supabase (length queries) (page_query table options page))
      as [[d err]|e]; simpl; [| exists 1; split; [lia | done]].
    destruct err as [message|]; [exists 1; split; [lia | done] |].
    destruct d as [rows|]; [| exists 1; split; [lia | done]].
    destruct (length rows =? 0); [exists 1; split; [lia | done] |].
    destruct (length rows <? effective_page_size options);
      [exists 1; split; [lia | done] |].
    destruct (IH (S page) (results ++ rows)
                (queries ++ [page_query table options page])) as (k & Hk & ->).
    exists (S k). split; [lia |]. simpl. by rewrite <- app_assoc.
Qed.

(** Full pages up to page [p], then an error. *)
Lemma batchSelect_loop_error (supabase : SupabaseReader T) p message d :
  range supabase p (page_query table options p)
    = Ret {| data := d; error := Some message |} →
  ∀ gap page results queries,
    p = page + gap → length queries = page →
    (∀ j, page ≤ j < p →
       ∃ rows, range supabase j (page_query table options j)
               = Ret {| data := Some rows; error := None |}
               ∧ length rows = effective_page_size options ∧ rows ≠ []) →
    ∀ remaining, gap < remaining →
      batchSelect_loop supabase table options remaining page results queries
      = (Throw (select_error_message p message),
         queries ++ map (page_query table options) (seq page (S gap))).
Proof.
  intros Hfail. induction gap as [|gap IH];
    intros page results queries -> Hq Hfull remaining Hrem;
    (destruct remaining as [|remaining]; [lia |]); cbn [batchSelect_loop];
    rewrite Hq.
  - rewrite Nat.add_0_r in *. by rewrite Hfail.
  - destruct (Hfull page) as (rows & -> & Hlen & Hne); [lia |]. simpl.
    destruct rows as [|x rows]; [done |].
    simpl in Hlen. simpl length. rewrite <- Hlen.
    rewrite Nat.ltb_irrefl. simpl.
    rewrite (IH (S page)); try lia.
    + by rewrite <- app_assoc.
    + rewrite length_app. simpl. lia.
    + intros j Hj. apply Hfull. lia.
Qed.

Lemma batchSelect_loop_ext (supabase : SupabaseReader T)
    (options' : option BatchSelectOptions) :
  (∀ page, page_query table options' page = page_query table options page) →
  effective_page_size options' = effective_page_size options →
  ∀ remaining page results queries,
    batchSelect_loop supabase table options' remaining page results queries
    = batchSelect_loop supabase table options remaining page results queries.
Proof.
  intros Hq Hsize. induction remaining as [|remaining IH];
    intros page results queries; [done |].
  cbn [batchSelect_loop]. rewrite Hq, Hsize.
  destruct (range supabase (length queries) (page_query table options page))
    as [[d err]|e]; [| done]. simpl.
  destruct err; [done |]. destruct d as [rows|]; [| done].
  destruct (length rows =? 0); [done |].
  destruct (length rows <? effective_page_size options); [done |].
  apply IH.
Qed.

End SelectFacts.

(** X1. [batchSelect] over a table that does not change while it is read
    returns its rows in order, cut off without any error after
    [maxPages * pageSize] rows. *)
Theorem batchSelect_reassembles {T : Type} (rows : list T) (table : string)
    (options : option BatchSelectOptions) :
  1 ≤ effective_page_size options →
  (batchSelect (steady_table rows) table options).1
  = Ret (take (effective_max_pages options * effective_page_size options) rows).
Proof.
  intros Hsize. unfold batchSelect.
  apply (batchSelect_loop_steady table options rows Hsize
           (effective_max_pages options) 0 []). simpl. lia.
Qed.

Lemma batchSelect_reassembles_witness :
  (batchSelect (steady_table [1; 2; 3; 4; 5; 6; 7]) "test_table"
     (Some {| pageSize := Some 2; maxPages := Some 3; columns := None;
              filter := None; orderBy := None |})).1
  = Ret (take (3 * 2) [1; 2; 3; 4; 5; 6; 7]).
Proof.
  apply (batchSelect_reassembles [1; 2; 3; 4; 5; 6; 7] "test_table"
           (Some {| pageSize := Some 2; maxPages := Some 3; columns := None;
                    filter := None; orderBy := None |})).
  unfold effective_page_size. simpl. lia.
Defined.

(** X2. Whatever the backend answers, [batchSelect] makes at most
    [maxPages] queries, and they are the ranges of pages 0, 1, 2, ... in
    that order, none skipped and none repeated. *)
Theorem batchSelect_queries_bounded {T : Type} (supabase : SupabaseReader T)
    (table : string) (options : option BatchSelectOptions) :
  ∃ k, k ≤ effective_max_pages options
       ∧ (batchSelect supabase table options).2
         = map (page_query table options) (seq 0 k).
Proof.
  destruct (batchSelect_loop_queries table options supabase
              (effective_max_pages options) 0 [] []) as (k & Hk & Hq).
  by exists k.
Qed.

(** X3. When the pages before page [p] come back full and page [p] comes
    back with an error, [batchSelect] throws "Batch select failed at page
    p: message" - the page counted from zero - after exactly [p + 1]
    queries, and the rows read so far are lost. *)
Theorem batchSelect_error_names_page {T : Type} (supabase : SupabaseReader T)
    (table : string) (options : option BatchSelectOptions)
    (p : nat) (message : string) (d : option (list T)) :
  p < effective_max_pages options →
  (∀ j, j < p →
     ∃ rows, range supabase j (page_query table options j)
             = Ret {| data := Some rows; error := None |}
             ∧ length rows = effective_page_size options ∧ rows ≠ []) →
  range supabase p (page_query table options p)
    = Ret {| data := d; error := Some message |} →
  batchSelect supabase table options
  = (Throw ("Batch select failed at page " +:+ show_nat p +:+ ": " +:+ message),
     map (page_query table options) (seq 0 (S p))).
Proof.
  intros Hp Hfull Hfail. unfold batchSelect.
  rewrite (batchSelect_loop_error table options supabase p message d Hfail
             p 0 [] []); try done.
  intros j Hj. apply Hfull. lia.
Qed.

Lemma batchSelect_error_names_page_witness :
  batchSelect
    {| range := λ n _, match n with
                       | 0 => Ret {| data := Some [1; 2]; error := None |}
                       | _ => Ret {| data := None; error := Some "DB Error" |}
                       end |}
    "test_table"
    (Some {| pageSize := Some 2; maxPages := None; columns := None;
             filter := None; orderBy := None |})
  = (Throw ("Batch select failed at page " +:+ show_nat 1 +:+ ": " +:+ "DB Error"),
     map (page_query "test_table"
            (Some {| pageSize := Some 2; maxPages := None; columns := None;
                     filter := None; orderBy := None |})) (seq 0 2)).
Proof.
  apply (batchSelect_error_names_page _ "test_table" _ 1 "DB Error" None).
  - unfold effective_max_pages. simpl. lia.
  - intros j Hj. destruct j as [|j]; [| lia].
    exists [1; 2]. split_and!; [reflexivity | reflexivity | discriminate].
  - reflexivity.
Defined.

(** X4. A filter whose operator is not one of [eq], [gte], [lte], [gt],
    [lt] is dropped without any error: the call behaves as if no filter
    had been given. *)
Theorem batchSelect_unknown_operator_ignored {T : Type}
    (supabase : SupabaseReader T) (table : string)
    (size pages : option nat) (cols : option string) (f : FilterSpec)
    (order : option OrderSpec) :
  operator f ≠ "eq" → operator f ≠ "gte" → operator f ≠ "lte" →
  operator f ≠ "gt" → operator f ≠ "lt" →
  batchSelect supabase table
    (Some {| pageSize := size; maxPages := pages; columns := cols;
             filter := Some f; orderBy := order |})
  = batchSelect supabase table
      (Some {| pageSize := size; maxPages := pages; columns := cols;
               filter := None; orderBy := order |}).
Proof.
  intros H1 H2 H3 H4 H5. unfold batchSelect.
  apply batchSelect_loop_ext; [| done].
  intros page. unfold page_query. simpl. unfold comparison_of.
  by repeat match goal with
            | |- context [String.eqb ?a ?b] =>
                destruct (String.eqb_spec a b); [congruence |]
            end.
Qed.

Lemma batchSelect_unknown_operator_ignored_witness :
  batchSelect (steady_table [1; 2; 3]) "test_table"
    (Some {| pageSize := None; maxPages := None; columns := None;
             filter := Some {| column := "status"; operator := "neq";
                               value := "active" |};
             orderBy := None |})
  = batchSelect (steady_table [1; 2; 3]) "test_table"
      (Some {| pageSize := None; maxPages := None; columns := None;
               filter := None; orderBy := None |}).
Proof.
  apply (batchSelect_unknown_operator_ignored (steady_table [1; 2; 3])
           "test_table" None None None
           {| column := "status"; operator := "neq"; value := "active" |} None);
    discriminate.
Defined.

(** *** batchProcess *)

Example batchProcess_indices :
  batchProcess (λ (item : string) i,
                  Promised (Ret (item +:+ "-" +:+ show_nat i)))
    ["a"; "b"; "c"] 2
  = Some (Resolved ["a-0"; "b-1"; "c-2"], [0; 1; 2]).
Proof. reflexivity. Qed.

Example batchProcess_rejection :
  batchProcess (λ (item : nat) _,
                  Promised (if item =? 2 then Throw "Processing failed"
                            else Ret item))
    [1; 2; 3] 1
  = Some (Rejected ["Processing failed"], [0; 1]).
Proof. reflexivity. Qed.

(** A call that throws on the spot: the item after it, in the same
    chunk, is not called. *)
Example batchProcess_synchronous_throw :
  batchProcess (λ (item : nat) _,
                  if item =? 2 then Raised "Processing failed"
                  else Promised (Ret item))
    [1; 2; 3] 3
  = Some (Rejected ["Processing failed"], [0; 1]).
Proof. reflexivity. Qed.

Section ProcessFacts.
Context {T R : Type}.
Variable fn : T → nat → Invoked R.

(** A chunk in which every call returns a promise: the map goes
    through, one promise per item. *)
Lemma start_chunk_promised (chunk : list T) : ∀ offset,
  (∀ i x, chunk !! i = Some x → ∃ o, fn x (offset + i) = Promised o) →
  ∃ os,
    start_chunk fn offset chunk = (os, None)
    ∧ length os = length chunk
    ∧ (∀ i x, chunk !! i = Some x →
         ∃ o, os !! i = Some o ∧ fn x (offset + i) = Promised o).
Proof.
  induction chunk as [|x chunk IH]; intros offset Hall.
  - exists []. split_and!; [done | done |].
    intros i y Hi. by rewrite lookup_nil in Hi.
  - destruct (Hall 0 x eq_refl) as [o Ho]. rewrite Nat.add_0_r in Ho.
    destruct (IH (S offset)) as (os & Hstart & Hlen & Hlook).
    { intros i y Hi. replace (S offset + i) with (offset + S i) by lia.
      by apply Hall. }
    exists (o :: os). simpl. rewrite Ho, Hstart.
    split_and!; [done | by rewrite Hlen |].
    intros i y Hi. destruct i as [|i]; simpl in *.
    + injection Hi as <-. exists o. by rewrite Nat.add_0_r.
    + destruct (Hlook i y Hi) as (o' & Ho' & Hcall). exists o'.
      split; [done |]. by replace (offset + S i) with (S offset + i) by lia.
Qed.

(** A chunk in which every call resolves. *)
Lemma chunk_all_resolve (chunk : list T) : ∀ offset,
  (∀ i x, chunk !! i = Some x → ∃ r, fn x (offset + i) = Promised (Ret r)) →
  ∃ os,
    start_chunk fn offset chunk = (os, None)
    ∧ length os = length chunk
    ∧ rejections os = []
    ∧ length (fulfilled os) = length chunk
    ∧ (∀ i x, chunk !! i = Some x →
         ∃ r, fulfilled os !! i = Some r
              ∧ fn x (offset + i) = Promised (Ret r)).
Proof.
  induction chunk as [|x chunk IH]; intros offset Hall.
  - exists []. split_and!; [done | done | done | done |].
    intros i y Hi. by rewrite lookup_nil in Hi.
  - destruct (Hall 0 x eq_refl) as [r Hr]. rewrite Nat.add_0_r in Hr.
    destruct (IH (S offset)) as (os & Hstart & Hlen & Hrej & Hful & Hres).
    { intros i y Hi. replace (S offset + i) with (offset + S i) by lia.
      by apply Hall. }
    exists (Ret r :: os). simpl. rewrite Hr, Hstart.
    unfold rejections, fulfilled in *. simpl.
    split_and!; [done | by rewrite Hlen | done | f_equal; exact Hful |].
    intros i y Hi. destruct i as [|i]; simpl in *.
    + injection Hi as <-. exists r. by rewrite Nat.add_0_r.
    + destruct (Hres i y Hi) as (r' & Hlook & Hcall).
      exists r'. split; [done |].
      by replace (offset + S i) with (S offset + i) by lia.
Qed.

(** The rejections of a chunk whose map went through are those of its
    calls. *)
Lemma chunk_rejections (chunk : list T) : ∀ offset os,
  start_chunk fn offset chunk = (os, None) →
  ∀ e, e ∈ rejections os
       ↔ ∃ i x, chunk !! i = Some x
                ∧ fn x (offset + i) = Promised (Throw e).
Proof.
  induction chunk as [|x chunk IH]; intros offset os Hstart e.
  - injection Hstart as <-. split; [intros Hin; by apply elem_of_nil in Hin |].
    intros (i & y & Hi & _). by rewrite lookup_nil in Hi.
  - simpl in Hstart. destruct (fn x offset) as [e0|o] eqn:Hx; [done |].
    destruct (start_chunk fn (S offset) chunk) as [os' raised] eqn:Hrest.
    injection Hstart as <- ->.
    specialize (IH (S offset) os' Hrest e).
    assert (Hshift : (∃ i y, chunk !! i = Some y
                             ∧ fn y (S offset + i) = Promised (Throw e))
                     ↔ ∃ i y, (x :: chunk) !! S i = Some y
                              ∧ fn y (offset + S i) = Promised (Throw e)).
    { split; intros (i & y & Hi & Hcall); exists i, y; (split; [done |]).
      - by replace (offset + S i) with (S offset + i) by lia.
      - by replace (S offset + i) with (offset + S i) by lia. }
    unfold rejections in *. simpl. split.
    + intros Hin.
      assert (Hcase : o = Throw e
                      ∨ e ∈ omap (λ o, match o with
                                       | Ret _ => None
                                       | Throw e => Some e
                                       end) os').
      { destruct o as [r|e1]; [by right |].
        apply elem_of_cons in Hin as [->|Hin]; [by left | by right]. }
      destruct Hcase as [->|Hin'].
      * exists 0, x. by rewrite Nat.add_0_r.
      * apply IH, Hshift in Hin' as (i & y & Hi & Hcall). by exists (S i), y.
    + intros (i & y & Hi & Hcall). destruct i as [|i].
      * simpl in Hi. injection Hi as <-. rewrite Nat.add_0_r, Hx in Hcall.
        injection Hcall as ->. apply elem_of_cons. by left.
      * assert (Hin : e ∈ omap (λ o, match o with
                                      | Ret _ => None
                                      | Throw e => Some e
                                      end) os').
        { apply IH, Hshift. by exists i, y. }
        destruct o; [done | by apply elem_of_cons; right].
Qed.

(** A chunk whose [k]-th call throws on the spot, the calls before it
    having returned promises: the map stops there. *)
Lemma start_chunk_raised (chunk : list T) : ∀ offset k x e,
  chunk !! k = Some x →
  fn x (offset + k) = Raised e →
  (∀ j y, j < k → chunk !! j = Some y →
     ∃ o, fn y (offset + j) = Promised o) →
  ∃ os, start_chunk fn offset chunk = (os, Some e) ∧ length os = k.
Proof.
  induction chunk as [|x0 chunk IH]; intros offset k x e Hk Hraise Hbefore.
  - by rewrite lookup_nil in Hk.
  - destruct k as [|k]; simpl in Hk.
    + injection Hk as ->. rewrite Nat.add_0_r in Hraise.
      exists []. simpl. by rewrite Hraise.
    + destruct (Hbefore 0 x0 ltac:(lia) eq_refl) as [o Ho].
      rewrite Nat.add_0_r in Ho.
      destruct (IH (S offset) k x e Hk) as (os & Hstart & Hlen).
      { by replace (S offset + k) with (offset + S k) by lia. }
      { intros j y Hj Hy. replace (S offset + j) with (offset + S j) by lia.
        apply Hbefore; [lia | done]. }
      exists (o :: os). simpl. rewrite Ho, Hstart. split; [done |].
      by rewrite Hlen.
Qed.

Lemma batchProcess_loop_resolves (chunks : list (list T)) :
  ∀ (results : list R) (calls : list nat),
    (∀ i x, concat chunks !! i = Some x →
       ∃ r, fn x (length results + i) = Promised (Ret r)) →
    ∃ rs,
      batchProcess_loop fn chunks results calls
      = (Resolved (results ++ rs),
         calls ++ seq (length results) (length (concat chunks)))
      ∧ length rs = length (concat chunks)
      ∧ (∀ i x, concat chunks !! i = Some x →
           ∃ r, rs !! i = Some r
                ∧ fn x (length results + i) = Promised (Ret r)).
Proof.
  induction chunks as [|chunk chunks IH]; intros results calls Hall.
  - exists []. simpl. rewrite !app_nil_r.
    split_and!; [done | done |]. intros i x Hi. by rewrite lookup_nil in Hi.
  - cbn [batchProcess_loop concat].
    destruct (chunk_all_resolve chunk (length results))
      as (os & Hstart & Hos & Hrej & Hlen & Hres).
    { intros i x Hi. apply Hall. simpl. by apply lookup_app_l_Some. }
    rewrite Hstart. unfold calls_made. cbn [fst snd]. rewrite Hrej, Hos.
    set (done_ := fulfilled os) in *.
    destruct (IH (results ++ done_) (calls ++ seq (length results) (length chunk)))
      as (rs & Hrun & Hrs & Hrest).
    { intros i x Hi. rewrite length_app, Hlen.
      replace (length results + length chunk + i)
        with (length results + (length chunk + i)) by lia.
      apply Hall. simpl. rewrite lookup_app_r by lia.
      by replace (length chunk + i - length chunk) with i by lia. }
    exists (done_ ++ rs). split_and!.
    + rewrite Hrun, length_app, Hlen, <- !app_assoc. do 2 f_equal.
      rewrite length_app. by rewrite seq_app.
    + rewrite !length_app. lia.
    + intros i x Hi. simpl in Hi.
      destruct (decide (i < length chunk)) as [Hlt|Hge].
      * rewrite lookup_app_l in Hi by done.
        destruct (Hres i x Hi) as (r & Hlook & Hcall).
        exists r. split; [| done]. rewrite lookup_app_l by lia. done.
      * rewrite lookup_app_r in Hi by lia.
        destruct (Hrest (i - length chunk) x Hi) as (r & Hlook & Hcall).
        exists r. split.
        -- rewrite lookup_app_r by lia. by rewrite Hlen.
        -- rewrite length_app, Hlen in Hcall.
           by replace (length results + length chunk + (i - length chunk))
                with (length results + i) in Hcall by lia.
Qed.

(** Chunks that resolve entirely are passed over: the loop goes on
    with the chunks after them, one result and one call per item
    later. *)
Lemma batchProcess_loop_skip (pre : list (list T)) :
  ∀ rest (results : list R) (calls : list nat),
    (∀ i x, concat pre !! i = Some x →
       ∃ r, fn x (length results + i) = Promised (Ret r)) →
    ∃ rs,
      length rs = length (concat pre)
      ∧ batchProcess_loop fn (pre ++ rest) results calls
        = batchProcess_loop fn rest (results ++ rs)
            (calls ++ seq (length results) (length (concat pre))).
Proof.
  induction pre as [|chunk pre IH]; intros rest results calls Hall.
  - exists []. simpl. by rewrite !app_nil_r.
  - cbn [app batchProcess_loop concat].
    destruct (chunk_all_resolve chunk (length results))
      as (os & Hstart & Hos & Hrej & Hlen & _).
    { intros i x Hi. apply Hall. simpl. by apply lookup_app_l_Some. }
    rewrite Hstart. unfold calls_made. cbn [fst snd]. rewrite Hrej, Hos.
    set (done_ := fulfilled os) in *.
    destruct (IH rest (results ++ done_)
                (calls ++ seq (length results) (length chunk)))
      as (rs & Hrs & Hrun).
    { intros i x Hi. rewrite length_app, Hlen.
      replace (length results + length chunk + i)
        with (length results + (length chunk + i)) by lia.
      apply Hall. simpl. rewrite lookup_app_r by lia.
      by replace (length chunk + i - length chunk) with i by lia. }
    exists (done_ ++ rs). split; [rewrite !length_app; lia |].
    rewrite Hrun, length_app, Hlen, <- !app_assoc. do 2 f_equal.
    rewrite length_app. by rewrite seq_app.
Qed.

End ProcessFacts.

(** X5. With a concurrency of at least 1 and an [fn] that resolves on
    every item, [batchProcess] returns one result per item, in input
    order: the result at position [i] is what [fn] gave for item [i],
    called with index [i]; [fn] is called once per item, indices
    0 .. n-1 in order. *)
Theorem batchProcess_maps_in_order {T R : Type} (fn : T → nat → Invoked R)
    (items : list T) (concurrency : nat) :
  1 ≤ concurrency →
  (∀ i x, items !! i = Some x → ∃ r, fn x i = Promised (Ret r)) →
  ∃ results,
    batchProcess fn items concurrency
    = Some (Resolved results, seq 0 (length items))
    ∧ length results = length items
    ∧ (∀ i x, items !! i = Some x →
         ∃ r, results !! i = Some r ∧ fn x i = Promised (Ret r)).
Proof.
  intros Hc Hall. unfold batchProcess, chunkArray.
  destruct (BatchProofs.chunkArray_loop_spec items concurrency Hc
              (length items) 0 []) as (chunks & -> & Hcat & _); [lia |].
  rewrite drop_0 in Hcat. simpl.
  destruct (batchProcess_loop_resolves fn chunks [] []) as (rs & -> & Hlen & Hres).
  { rewrite Hcat. exact Hall. }
  rewrite Hcat in *. exists rs. simpl. by split_and!.
Qed.

Lemma batchProcess_maps_in_order_witness :
  ∃ results,
    batchProcess (λ (item : nat) (i : nat), Promised (Ret (item * 2)))
      [1; 2; 3; 4; 5] 5
    = Some (Resolved results, seq 0 (length [1; 2; 3; 4; 5]))
    ∧ length results = length [1; 2; 3; 4; 5]
    ∧ (∀ i x, [1; 2; 3; 4; 5] !! i = Some x →
         ∃ r, results !! i = Some r
              ∧ (λ (item : nat) (i : nat), Promised (Ret (item * 2))) x i
                = Promised (Ret r)).
Proof.
  apply (batchProcess_maps_in_order
           (λ (item : nat) (i : nat), Promised (Ret (item * 2)))
           [1; 2; 3; 4; 5] 5); [lia |].
  intros i x _. by eexists.
Defined.

(** X6. When the chunks before some chunk resolve entirely,
    [batchProcess] stops at the chunk that fails, and no item of a
    later chunk is ever called.  (a) When every call of that chunk
    returns a promise and one of them rejects, [batchProcess] rejects
    with a rejection of that chunk, and every item of the chunk has
    been called all the same.  (b) When a call of that chunk throws on
    the spot, the calls before it having returned promises,
    [batchProcess] rejects with that exception, and the items after it
    in the chunk are not called either. *)
Theorem batchProcess_stops_at_failed_chunk {T R : Type}
    (fn : T → nat → Invoked R) (items : list T) (concurrency : nat)
    (pre : list (list T)) (bad : list T) (post : list (list T)) :
  chunkArray items concurrency = Some (pre ++ bad :: post) →
  (∀ i x, concat pre !! i = Some x → ∃ r, fn x i = Promised (Ret r)) →
  ((∀ i x, bad !! i = Some x →
      ∃ o, fn x (length (concat pre) + i) = Promised o) →
   (∃ i x e, bad !! i = Some x
             ∧ fn x (length (concat pre) + i) = Promised (Throw e)) →
   ∃ errs,
     batchProcess fn items concurrency
     = Some (Rejected errs, seq 0 (length (concat pre) + length bad))
     ∧ errs ≠ []
     ∧ (∀ e, e ∈ errs
             ↔ ∃ i x, bad !! i = Some x
                      ∧ fn x (length (concat pre) + i) = Promised (Throw e)))
  ∧ (∀ k x e,
       bad !! k = Some x →
       fn x (length (concat pre) + k) = Raised e →
       (∀ j y, j < k → bad !! j = Some y →
          ∃ o, fn y (length (concat pre) + j) = Promised o) →
       batchProcess fn items concurrency
       = Some (Rejected [e], seq 0 (length (concat pre) + S k))).
Proof.
  intros Hchunks Hpre. unfold batchProcess. rewrite Hchunks. simpl.
  destruct (batchProcess_loop_skip fn pre (bad :: post) [] [] Hpre)
    as (rs & Hrs & ->).
  cbn [batchProcess_loop app length]. rewrite Hrs.
  split.
  - intros Hpromised Hbad.
    destruct (start_chunk_promised fn bad (length (concat pre)) Hpromised)
      as (os & Hstart & Hos & _).
    rewrite Hstart. unfold calls_made. cbn [fst snd]. rewrite Hos.
    pose proof (chunk_rejections fn bad (length (concat pre)) os Hstart)
      as Hrej.
    destruct (rejections os) as [|e es] eqn:Herrs.
    + exfalso. destruct Hbad as (i & x & e & Hi & Hcall).
      assert (Hin : e ∈ @nil string) by (apply Hrej; by exists i, x).
      by apply elem_of_nil in Hin.
    + exists (e :: es). split_and!; [| done | exact Hrej].
      do 2 f_equal. symmetry. apply seq_app.
  - intros k x e Hk Hraise Hbefore.
    destruct (start_chunk_raised fn bad (length (concat pre)) k x e
                Hk Hraise Hbefore) as (os & Hstart & Hos).
    rewrite Hstart. unfold calls_made. cbn [fst snd]. rewrite Hos.
    do 2 f_equal. symmetry. apply seq_app.
Qed.

Lemma batchProcess_stops_at_failed_chunk_witness :
  batchProcess (λ (item : nat) (_ : nat),
                  if item =? 3 then Raised "Processing failed"
                  else if item =? 4 then Promised (Throw "too late")
                  else Promised (Ret item))
    [1; 2; 3; 4; 5; 6] 2
  = Some (Rejected ["Processing failed"],
          seq 0 (length (concat [[1; 2]]) + 1))
  ∧ ∃ errs,
      batchProcess (λ (item : nat) (_ : nat),
                      Promised (if item =? 3 then Throw "Processing failed"
                                else Ret item))
        [1; 2; 3; 4; 5; 6] 2
      = Some (Rejected errs, seq 0 (length (concat [[1; 2]]) + length [3; 4]))
      ∧ errs ≠ []
      ∧ (∀ e, e ∈ errs
              ↔ ∃ i x, [3; 4] !! i = Some x
                       ∧ (λ (item : nat) (_ : nat),
                            Promised (if item =? 3
                                      then Throw "Processing failed"
                                      else Ret item))
                           x (length (concat [[1; 2]]) + i)
                         = Promised (Throw e)).
Proof.
  split.
  - apply (proj2 (batchProcess_stops_at_failed_chunk
                    (λ (item : nat) (_ : nat),
                       if item =? 3 then Raised "Processing failed"
                       else if item =? 4 then Promised (Throw "too late")
                       else Promised (Ret item))
                    [1; 2; 3; 4; 5; 6] 2 [[1; 2]] [3; 4] [[5; 6]] eq_refl
                    ltac:(intros i x Hi;
                          destruct i as [|[|i]]; simpl in Hi;
                          try discriminate; injection Hi as <-; by eexists))
             0 3 "Processing failed" eq_refl eq_refl).
    intros j y Hj. lia.
  - apply (proj1 (batchProcess_stops_at_failed_chunk
                    (λ (item : nat) (_ : nat),
                       Promised (if item =? 3 then Throw "Processing failed"
                                 else Ret item))
                    [1; 2; 3; 4; 5; 6] 2 [[1; 2]] [3; 4] [[5; 6]] eq_refl
                    ltac:(intros i x Hi;
                          destruct i as [|[|i]]; simpl in Hi;
                          try discriminate; injection Hi as <-; by eexists))).
    + intros i x _. by eexists.
    + exists 0, 3, "Processing failed". split; reflexivity.
Defined.

End BatchReadProofs.

Module BatchUpsertProofs.
Import Js Batch.

Section MoreLoopFacts.
Context {T : Type}.
Variable supabase : SupabaseClient T.
Variable table onConflict : string.
Variable options : option BatchUpsertOptions.
Variable n_chunks total : nat.

(** Every iteration sends its chunk, once, whatever happens next. *)
Lemma iteration_sends_chunk continue_on_error i chunk (st : LoopState T) :
  upsert_calls
    (st_trace (iteration supabase table onConflict options continue_on_error
                 n_chunks total i chunk st).1)
  = upsert_calls (st_trace st) ++ [chunk].
Proof.
  unfold iteration, try_chunk.
  pose proof (BatchProofs.upsert_calls_log table onConflict chunk st) as Hlog.
  destruct (upsert supabase i table chunk onConflict) as [[err cnt]|e]; simpl.
  - destruct err as [message|]; simpl.
    + destruct continue_on_error; simpl; [| done].
      destruct (BatchProofs.notify_shape options total i
                  (push_error (batch_error_message n_chunks i message)
                     (log_event (EvUpsert table chunk onConflict) st)))
        as (st' & thrown & -> & Hcalls & _).
      destruct thrown; simpl; by rewrite Hcalls.
    + destruct (BatchProofs.notify_shape options total i
                  (add_inserted (nullish cnt (length chunk))
                     (log_event (EvUpsert table chunk onConflict) st)))
        as (st' & thrown & -> & Hcalls & _).
      destruct thrown; simpl; [destruct continue_on_error; simpl |];
        by rewrite Hcalls.
  - by destruct continue_on_error.
Qed.

Lemma loop_sends_prefix continue_on_error rest : ∀ i (st : LoopState T),
  ∃ sent,
    upsert_calls
      (st_trace (batchUpsert_loop supabase table onConflict options
                   continue_on_error n_chunks total i rest st).1)
    = upsert_calls (st_trace st) ++ sent
    ∧ sent `prefix_of` rest
    ∧ ((batchUpsert_loop supabase table onConflict options continue_on_error
          n_chunks total i rest st).2 = None → sent = rest).
Proof.
  induction rest as [|chunk rest IH]; intros i st; simpl.
  - exists []. by rewrite app_nil_r.
  - pose proof (iteration_sends_chunk continue_on_error i chunk st) as Hsend.
    destruct (iteration _ _ _ _ _ _ _ _ _ _) as [st1 [e|]]; simpl in *.
    + exists [chunk]. split_and!; [done | by apply prefix_cons, prefix_nil | done].
    + destruct (IH (S i) st1) as (sent & Hcalls & Hpre & Hall).
      exists (chunk :: sent). split_and!.
      * by rewrite Hcalls, Hsend, <- app_assoc.
      * by apply prefix_cons.
      * intros Hnone. by rewrite Hall.
Qed.

(** All chunks accepted, no count reported: the rows sent are counted. *)
Lemma loop_counts_rows continue_on_error rest : ∀ i (st : LoopState T),
  callback_total options →
  (∀ k chunk, rest !! k = Some chunk →
     upsert supabase (i + k) table chunk onConflict
     = Ret {| error := None; count := None |}) →
  ∃ st',
    batchUpsert_loop supabase table onConflict options continue_on_error
      n_chunks total i rest st = (st', None)
    ∧ st_inserted st' = st_inserted st + length (concat rest)
    ∧ st_errors st' = st_errors st.
Proof.
  induction rest as [|chunk rest IH]; intros i st Htot Hall; simpl.
  - exists st. split_and!; [done | lia | done].
  - pose proof (Hall 0 chunk eq_refl) as Hup. rewrite Nat.add_0_r in Hup.
    destruct (BatchProofs.iteration_success supabase table onConflict options
                n_chunks total i chunk None st Htot Hup continue_on_error)
      as (st1 & -> & _ & Herr1 & Hins1).
    destruct (IH (S i) st1 Htot) as (st' & -> & Hins & Herr).
    { intros k c Hk. replace (S i + k) with (i + S k) by lia. by apply Hall. }
    exists st'. split_and!; [done | | congruence].
    rewrite Hins, Hins1, length_app. simpl. lia.
Qed.

(** Without [continueOnError], an iteration that does not throw records
    no error. *)
Lemma iteration_abort_mode_clean i chunk (st st' : LoopState T) :
  iteration supabase table onConflict options false n_chunks total i chunk st
    = (st', None) →
  st_errors st' = st_errors st.
Proof.
  unfold iteration, try_chunk.
  destruct (upsert supabase i table chunk onConflict) as [[err cnt]|e]; simpl;
    [| done].
  destruct err as [message|]; simpl; [done |].
  destruct (BatchProofs.notify_shape options total i
              (add_inserted (nullish cnt (length chunk))
                 (log_event (EvUpsert table chunk onConflict) st)))
    as (st1 & thrown & -> & _ & Herr & _).
  destruct thrown; [done |]. intros [= <-]. by rewrite Herr.
Qed.

Lemma loop_abort_mode_clean rest : ∀ i (st st' : LoopState T),
  batchUpsert_loop supabase table onConflict options false n_chunks total
    i rest st = (st', None) →
  st_errors st' = st_errors st.
Proof.
  induction rest as [|chunk rest IH]; intros i st st'; simpl.
  - by intros [= <-].
  - destruct (iteration _ _ _ _ _ _ _ _ _ _) as [st1 [e|]] eqn:Hit; [done |].
    intros Hrun. apply IH in Hrun. apply iteration_abort_mode_clean in Hit.
    congruence.
Qed.

End MoreLoopFacts.

(** X7. Whatever the backend answers and whatever the options,
    [batchUpsert] sends the chunks of [chunkArray] in order, each at
    most once and none out of turn: the chunks sent are a prefix of the
    chunks; and when it returns rather than throws, every chunk has been
    sent and [batchCount] is their number. *)
Theorem batchUpsert_sends_prefix {T : Type} (supabase : SupabaseClient T)
    (table : string) (data : list T) (onConflict : string)
    (options : option BatchUpsertOptions) (chunks : list (list T)) :
  data ≠ [] →
  chunkArray data (effective_batch_size table options) = Some chunks →
  ∃ outcome trace,
    batchUpsert supabase table data onConflict options = Some (outcome, trace)
    ∧ upsert_calls trace `prefix_of` chunks
    ∧ (∀ result, outcome = Ret result →
         upsert_calls trace = chunks ∧ batchCount result = length chunks).
Proof.
  intros Hne Hchunks.
  rewrite (BatchProofs.batchUpsert_nonempty supabase table data onConflict
             options chunks) by done.
  destruct (loop_sends_prefix supabase table onConflict options (length chunks)
              (length data) (effective_continue options) chunks 0
              {| st_inserted := 0; st_errors := []; st_trace := [] |})
    as (sent & Hcalls & Hpre & Hall).
  destruct (batchUpsert_loop _ _ _ _ _ _ _ _ _ _) as [st thrown].
  simpl in *. eexists _, _. split_and!; [reflexivity | by rewrite Hcalls |].
  intros result Hret. destruct thrown as [e|]; [discriminate |].
  injection Hret as <-. simpl. rewrite Hcalls. by rewrite Hall.
Qed.

Lemma batchUpsert_sends_prefix_witness :
  ∃ outcome trace,
    batchUpsert failing_backend "test_table" [1; 2] "id"
      (size_option 1 (Some false))
    = Some (outcome, trace)
    ∧ upsert_calls trace `prefix_of` [[1]; [2]]
    ∧ (∀ result, outcome = Ret result →
         upsert_calls trace = [[1]; [2]]
         ∧ batchCount result = length [[1]; [2]]).
Proof.
  apply (batchUpsert_sends_prefix failing_backend "test_table" [1; 2] "id"
           (size_option 1 (Some false)) [[1]; [2]]);
    [discriminate | reflexivity].
Defined.

(** X8. When every upsert succeeds without reporting a count and the
    progress callback does not throw, [batchUpsert] sends every chunk
    and returns with [inserted] equal to the number of rows in the
    chunks it sent, no error, and [batchCount] the number of chunks.
    With a numeric batch size - an explicit [batchSize], an own entry
    of [BATCH_SIZES] or the default - the chunks sent hold exactly the
    rows given, so [inserted] is their number.  For a table whose last
    segment names a property inherited from [Object.prototype]
    ([toString], [constructor], ...) and no [batchSize] option,
    non-empty data is sent as one empty chunk and [inserted] is 0. *)
Theorem batchUpsert_counts_rows_sent {T : Type} (supabase : SupabaseClient T)
    (table : string) (data : list T) (onConflict : string)
    (options : option BatchUpsertOptions) (chunks : list (list T)) :
  chunkArray data (effective_batch_size table options) = Some chunks →
  callback_total options →
  (∀ k chunk, chunks !! k = Some chunk →
     upsert supabase k table chunk onConflict
     = Ret {| error := None; count := None |}) →
  ∃ trace,
    batchUpsert supabase table data onConflict options
    = Some (Ret {| inserted := length (concat chunks); errors := [];
                   batchCount := length chunks |}, trace)
    ∧ upsert_calls trace = chunks
    ∧ (∀ n : nat, effective_batch_size table options = Count n →
         concat chunks = data ∧ length (concat chunks) = length data)
    ∧ (∀ key, effective_batch_size table options = Inherited key →
         data ≠ [] → chunks = [[]] ∧ length (concat chunks) = 0).
Proof.
  intros Hchunks Htot Hall.
  assert (Hcount : ∀ n : nat, effective_batch_size table options = Count n →
            concat chunks = data ∧ length (concat chunks) = length data).
  { intros n Hn. rewrite Hn in Hchunks. simpl in Hchunks.
    destruct n as [|n].
    - destruct data as [|x data]; [by injection Hchunks as <- |].
      rewrite BatchProofs.chunkArray_loop_zero_diverges in Hchunks; [done | simpl; lia].
    - destruct (BatchProofs.chunkArray_loop_spec data (S n) ltac:(lia)
                  (length data) 0 []) as (cs & Hrun & Hcat & _); [lia |].
      rewrite Hrun in Hchunks. injection Hchunks as <-.
      rewrite drop_0 in Hcat. by rewrite Hcat. }
  assert (Hinherited : ∀ key, effective_batch_size table options = Inherited key →
            data ≠ [] → chunks = [[]] ∧ length (concat chunks) = 0).
  { intros key Hkey Hne. rewrite Hkey in Hchunks. simpl in Hchunks.
    destruct data as [|x data]; [done |]. by injection Hchunks as <-. }
  destruct data as [|x data].
  - assert (chunks = []) as ->.
    { destruct (effective_batch_size table options) as [n|key];
        simpl in Hchunks; [| by injection Hchunks as <-].
      unfold chunkArray_loop in Hchunks. destruct n; simpl in Hchunks;
        by injection Hchunks as <-. }
    eexists. split; [reflexivity |]. by split_and!.
  - rewrite (BatchProofs.batchUpsert_nonempty supabase table (x :: data)
               onConflict options chunks) by done.
    destruct (loop_counts_rows supabase table onConflict options (length chunks)
                (length (x :: data)) (effective_continue options) chunks 0
                {| st_inserted := 0; st_errors := []; st_trace := [] |} Htot Hall)
      as (st' & Hrun & Hins & Herr).
    destruct (loop_sends_prefix supabase table onConflict options
                (length chunks) (length (x :: data)) (effective_continue options)
                chunks 0 {| st_inserted := 0; st_errors := []; st_trace := [] |})
      as (sent & Hsent & _ & Hdone).
    rewrite Hrun in Hsent, Hdone |- *. simpl in Hsent, Hdone.
    exists (st_trace st'). rewrite Hins, Herr. simpl.
    split; [reflexivity |]. split_and!; [| done | done].
    by rewrite Hsent, (Hdone eq_refl).
Qed.

Lemma batchUpsert_counts_rows_sent_witness :
  ∃ trace,
    batchUpsert {| upsert := λ _ _ _ _, Ret {| error := None; count := None |} |}
      "toString" [1; 2; 3] "id" None
    = Some (Ret {| inserted := length (concat [@nil nat]); errors := [];
                   batchCount := length [@nil nat] |}, trace)
    ∧ upsert_calls trace = [[]]
    ∧ (∀ n : nat, effective_batch_size "toString" None = Count n →
         concat [@nil nat] = [1; 2; 3]
         ∧ length (concat [@nil nat]) = length [1; 2; 3])
    ∧ (∀ key, effective_batch_size "toString" None = Inherited key →
         [1; 2; 3] ≠ [] → [@nil nat] = [[]] ∧ length (concat [@nil nat]) = 0).
Proof.
  apply (batchUpsert_counts_rows_sent
           {| upsert := λ _ _ _ _, Ret {| error := None; count := None |} |}
           "toString" [1; 2; 3] "id" None [[]]).
  - vm_compute. reflexivity.
  - intros callback Hcb. discriminate Hcb.
  - intros k chunk _. reflexivity.
Defined.

(** X9. Without [continueOnError], a [batchUpsert] that returns has an
    empty [errors] list: an error either aborts the call or, with
    [continueOnError], is collected - never both returned and lost. *)
Theorem batchUpsert_returns_no_errors {T : Type} (supabase : SupabaseClient T)
    (table : string) (data : list T) (onConflict : string)
    (options : option BatchUpsertOptions) (result : BatchUpsertResult)
    (trace : list (Event T)) :
  effective_continue options = false →
  batchUpsert supabase table data onConflict options = Some (Ret result, trace) →
  errors result = [].
Proof.
  intros Hcont. unfold batchUpsert.
  destruct (length data =? 0); [by intros [= <- _] |].
  rewrite Hcont.
  destruct (chunkArray data (effective_batch_size table options)) as [chunks|];
    [| done]. simpl.
  destruct (batchUpsert_loop _ _ _ _ _ _ _ _ _ _) as [st thrown] eqn:Hloop.
  destruct thrown as [e|]; [done |]. intros [= <- _]. simpl.
  by apply loop_abort_mode_clean in Hloop.
Qed.

Lemma batchUpsert_returns_no_errors_witness :
  errors {| inserted := 5; errors := []; batchCount := 3 |} = [].
Proof.
  apply (batchUpsert_returns_no_errors echo_backend "test_table" [1; 2; 3; 4; 5]
           "id" (size_option 2 None)
           {| inserted := 5; errors := []; batchCount := 3 |}
           [EvUpsert "test_table" [1; 2] "id";
            EvUpsert "test_table" [3; 4] "id";
            EvUpsert "test_table" [5] "id"]);
    reflexivity.
Defined.

Lemma string_append_empty (a : string) : a +:+ "" = a.
Proof.
  induction a as [|c a IH]; [done |].
  change (String c a +:+ "") with (String c (a +:+ "")). by rewrite IH.
Qed.

Lemma string_append_char (a : string) c (b : string) :
  (a +:+ String c "") +:+ b = a +:+ String c b.
Proof.
  induction a as [|d a IH]; [done |].
  change (String d ((a +:+ String c "") +:+ b) = String d (a +:+ String c b)).
  by rewrite IH.
Qed.

Lemma last_segment_from_dot_free (name : string) : ∀ segment,
  BatchRead.dot_free name = true →
  last_segment_from segment name = segment +:+ name.
Proof.
  induction name as [|c name IH]; intros segment Hfree; simpl in *.
  - by rewrite string_append_empty.
  - apply andb_true_iff in Hfree as [Hc Hfree].
    destruct (Ascii.eqb c "."%char); [done |].
    rewrite IH by done. apply string_append_char.
Qed.

Lemma last_segment_from_qualified (schema name : string) : ∀ segment,
  BatchRead.dot_free name = true →
  last_segment_from segment (schema +:+ "." +:+ name) = name.
Proof.
  induction schema as [|c schema IH]; intros segment Hfree; simpl.
  - by rewrite last_segment_from_dot_free.
  - destruct (Ascii.eqb c "."%char); by apply IH.
Qed.

(** X10. A schema prefix does not change the batch size: for a table
    name without a dot, [schema.table] gets the batch size of [table],
    whatever the schema and the options. *)
Theorem batch_size_ignores_schema (schema name : string)
    (options : option BatchUpsertOptions) :
  BatchRead.dot_free name = true →
  effective_batch_size (schema +:+ "." +:+ name) options
  = effective_batch_size name options.
Proof.
  intros Hfree. unfold effective_batch_size, last_segment.
  rewrite last_segment_from_qualified by done.
  by rewrite last_segment_from_dot_free.
Qed.

Lemma batch_size_ignores_schema_witness :
  effective_batch_size ("jquants_core" +:+ "." +:+ "investor_type_trading") None
  = effective_batch_size "investor_type_trading" None.
Proof.
  apply (batch_size_ignores_schema "jquants_core" "investor_type_trading" None).
  reflexivity.
Defined.

End BatchUpsertProofs.

Module InvestorTypesProofs.
Import Js InvestorTypes.

Example full_item_makes_48 :
  length (toInvestorTypeTradingRecords full_item) = 48.
Proof. vm_compute. reflexivity. Qed.

(** Two nested loops are one loop over the pairs. *)
Lemma nested_foldl_pairs {A B S : Type} (f : A → B → S → S) (bs : list B)
    (l : list A) : ∀ st,
  foldl (λ st a, foldl (λ st b, f a b st) st bs) st l
  = foldl (λ st ab, f ab.1 ab.2 st) st (a ← l; b ← bs; [(a, b)]).
Proof.
  induction l as [|a l IH]; intros st; [done |].
  cbn [foldl mbind list_bind]. change (foldr _ _ _) with (a ← l; b ← bs; [(a, b)]).
  rewrite IH. clear IH.
  change (mbind ?g l) with (a ← l; b ← bs; [(a, b)]).
  rewrite foldl_app. f_equal.
  clear. revert st. induction bs as [|b bs IHb]; intros st; [done |].
  simpl. apply IHb.
Qed.

Lemma foldl_visit_later item (pairs : list (string * string)) : ∀ records,
  foldl (λ st ab, visit item ab.1 ab.2 st) (records, false) pairs
  = (records ++ map (record_of item false) (present item pairs), false).
Proof.
  induction pairs as [|[it mk] pairs IH]; intros records; simpl.
  - by rewrite app_nil_r.
  - unfold present. simpl.
    destruct (values item !! (it +:+ mk)) as [v|]; simpl.
    + rewrite IH, <- app_assoc. done.
    + apply IH.
Qed.

Lemma foldl_visit_first item (pairs : list (string * string)) :
  (foldl (λ st ab, visit item ab.1 ab.2 st) ([], true) pairs).1
  = match present item pairs with
    | [] => []
    | f :: fs => record_of item true f :: map (record_of item false) fs
    end.
Proof.
  induction pairs as [|[it mk] pairs IH]; simpl; [done |].
  unfold present. simpl.
  destruct (values item !! (it +:+ mk)) as [v|]; simpl.
  - by rewrite foldl_visit_later.
  - apply IH.
Qed.

Lemma toInvestorTypeTradingRecords_spec item :
  toInvestorTypeTradingRecords item
  = match present item field_pairs with
    | [] => []
    | f :: fs => record_of item true f :: map (record_of item false) fs
    end.
Proof.
  unfold toInvestorTypeTradingRecords.
  rewrite (nested_foldl_pairs (visit item) METRICS INVESTOR_TYPES).
  apply foldl_visit_first.
Qed.

Lemma present_cons item it mk (pairs : list (string * string)) :
  present item ((it, mk) :: pairs)
  = match values item !! (it +:+ mk) with
    | Some v => (it, mk, v) :: present item pairs
    | None => present item pairs
    end.
Proof.
  unfold present. simpl. by destruct (values item !! (it +:+ mk)).
Qed.

Lemma present_keys_sublist item (pairs : list (string * string)) first :
  map (λ f, key_of (record_of item first f)) (present item pairs)
    `sublist_of` map (λ p, (p.1, METRIC_NAMES !!! p.2)) pairs.
Proof.
  induction pairs as [|[it mk] pairs IH]; simpl; [constructor |].
  unfold present. simpl.
  destruct (values item !! (it +:+ mk)) as [v|]; simpl.
  - by apply sublist_skip.
  - by apply sublist_cons.
Qed.

Lemma field_keys_distinct :
  NoDup (map (λ p : string * string, (p.1, METRIC_NAMES !!! p.2)) field_pairs).
Proof. apply (bool_decide_unpack _). vm_compute. exact I. Qed.

(** The investor type, metric and value of the present fields. *)
Lemma present_triples item (pairs : list (string * string)) :
  map (λ f : string * string * Z, (f.1.1, METRIC_NAMES !!! f.1.2, f.2))
    (present item pairs)
  = omap (λ p, (λ v, (p.1, METRIC_NAMES !!! p.2, v))
                 <$> values item !! (p.1 +:+ p.2)) pairs.
Proof.
  induction pairs as [|[it mk] pairs IH]; [done |].
  rewrite present_cons. cbn [omap list_omap fst snd].
  destruct (values item !! (it +:+ mk)) as [v|]; cbn [fmap option_fmap option_map].
  - cbn [map fst snd]. by rewrite IH.
  - exact IH.
Qed.

(** X11. [toInvestorTypeTradingRecords] makes one record per numeric
    field present in the item - 48 at most - and nothing else: read in
    order, the records give the investor type, the metric name and the
    value of the present fields, in loop order, each field's value
    under its own type and metric.  Each record carries the item's
    published date, period and section; no two records of an item have
    the same (investor type, metric), so the rows of one item never
    collide on the conflict key. *)
Theorem investor_records_shape (item : InvestorTypeTradingItem) :
  let records := toInvestorTypeTradingRecords item in
  length records
    = length (filter (λ p, is_Some (values item !! (p.1 +:+ p.2))) field_pairs)
  ∧ length records ≤ 48
  ∧ map (λ r, (investor_type r, metric r, value_kjpy r)) records
    = omap (λ p, (λ v, (p.1, METRIC_NAMES !!! p.2, v))
                   <$> values item !! (p.1 +:+ p.2)) field_pairs
  ∧ Forall (λ r, published_date r = PubDate item
                 ∧ start_date r = StartDate item
                 ∧ end_date r = EndDate item
                 ∧ section r = Section item) records
  ∧ NoDup (map (λ r, (investor_type r, metric r)) records).
Proof.
  intros records. unfold records. rewrite toInvestorTypeTradingRecords_spec.
  assert (Hlen : length (present item field_pairs)
                 = length (filter (λ p, is_Some (values item !! (p.1 +:+ p.2)))
                             field_pairs)).
  { generalize field_pairs. intros pairs.
    induction pairs as [|[it mk] pairs IH]; [done |].
    unfold present in *. cbn [omap list_omap]. rewrite filter_cons.
    destruct (decide (is_Some (values item !! ((it, mk).1 +:+ (it, mk).2))))
      as [[v Hv]|Hn]; simpl in *.
    - rewrite Hv. simpl. f_equal. exact IH.
    - destruct (values item !! (it +:+ mk)) as [v|] eqn:Hv.
      + exfalso. apply Hn. by eexists.
      + simpl. exact IH. }
  assert (Hle : length (present item field_pairs) ≤ 48).
  { rewrite Hlen. etrans; [apply length_filter |]. vm_compute. lia. }
  pose proof (present_keys_sublist item field_pairs false) as Hsub.
  pose proof (sublist_NoDup _ _ field_keys_distinct Hsub) as Hnd.
  pose proof (present_triples item field_pairs) as Htriples.
  destruct (present item field_pairs) as [|f fs].
  - split_and!;
      [exact Hlen | cbn [length]; lia | exact Htriples | constructor
      | constructor].
  - split_and!.
    + rewrite <- Hlen. cbn [length]. by rewrite length_map.
    + cbn [length] in *. by rewrite length_map.
    + rewrite <- Htriples. cbn [map]. rewrite map_map. reflexivity.
    + constructor; [done |]. apply Forall_map. by apply Forall_true.
    + cbn [map] in *. rewrite map_map. exact Hnd.
Qed.

(** X12. Only the first record made from an item carries the item as
    [raw_json]; all the others have [raw_json: null].  When the item has
    its [PropS] field, that first record is (Prop, sales), and the
    (Total, sales) record has no [raw_json]. *)
Theorem raw_json_on_first_record_only (item : InvestorTypeTradingItem) :
  (∀ first rest, toInvestorTypeTradingRecords item = first :: rest →
     raw_json first = Some item ∧ Forall (λ r, raw_json r = None) rest)
  ∧ (∀ v, values item !! "PropS" = Some v →
       ∃ rest,
         toInvestorTypeTradingRecords item
         = {| published_date := PubDate item; start_date := StartDate item;
              end_date := EndDate item; section := Section item;
              investor_type := "Prop"; metric := "sales"; value_kjpy := v;
              raw_json := Some item |} :: rest
         ∧ ∀ r, r ∈ toInvestorTypeTradingRecords item →
                investor_type r = "Total" → metric r = "sales" →
                raw_json r = None).
Proof.
  split.
  - intros first rest. rewrite toInvestorTypeTradingRecords_spec.
    destruct (present item field_pairs) as [|f fs]; [done |].
    intros [= <- <-]. split; [done |]. apply Forall_map. by apply Forall_true.
  - intros v Hv. rewrite toInvestorTypeTradingRecords_spec.
    assert (Hhead : ∃ fs, present item field_pairs = ("Prop", "S", v) :: fs).
    { assert (Hfp : field_pairs = ("Prop", "S") :: tail field_pairs)
        by (vm_compute; reflexivity).
      rewrite Hfp, present_cons.
      change ("Prop" +:+ "S") with "PropS". rewrite Hv. by eexists. }
    destruct Hhead as [fs ->]. eexists. split; [reflexivity |].
    intros r Hin Htype Hmetric.
    apply elem_of_cons in Hin as [->|Hin]; [discriminate |].
    apply list_elem_of_fmap in Hin as (f & -> & _). reflexivity.
Qed.

Lemma raw_json_on_first_record_only_witness :
  ∃ rest,
    toInvestorTypeTradingRecords full_item
    = {| published_date := PubDate full_item; start_date := StartDate full_item;
         end_date := EndDate full_item; section := Section full_item;
         investor_type := "Prop"; metric := "sales"; value_kjpy := 0;
         raw_json := Some full_item |} :: rest
    ∧ ∀ r, r ∈ toInvestorTypeTradingRecords full_item →
           investor_type r = "Total" → metric r = "sales" →
           raw_json r = None.
Proof.
  apply (proj2 (raw_json_on_first_record_only full_item) 0%Z).
  vm_compute. reflexivity.
Defined.

End InvestorTypesProofs.

(** * The sync functions of the endpoints: fetch, convert, [batchUpsert] *)

Module SyncProofs.
Import Js.

(** A run of [batchUpsert] that stops at the first failure (the caller
    did not set [continueOnError]) with a batch size of at least one:
    it returns or throws, what it sent is an initial part of the data
    cut into non-empty batches no longer than the batch size, and a
    returned result means that all of the data was sent and that the
    result lists no error. *)
Lemma batchUpsert_abort_mode_run {T : Type} (supabase : Batch.SupabaseClient T)
    (table : string) (data : list T) (onConflict : string)
    (options : option Batch.BatchUpsertOptions) (n : nat) :
  Batch.effective_batch_size table options = Batch.Count n →
  1 ≤ n →
  Batch.effective_continue options = false →
  ∃ outcome trace,
    Batch.batchUpsert supabase table data onConflict options
    = Some (outcome, trace)
    ∧ concat (Batch.upsert_calls trace) `prefix_of` data
    ∧ Forall (λ c, c ≠ [] ∧ length c ≤ n) (Batch.upsert_calls trace)
    ∧ (∀ result, outcome = Ret result →
         concat (Batch.upsert_calls trace) = data
         ∧ Batch.errors result = []).
Proof.
  intros Hn Hsize Hcont.
  destruct data as [|x data].
  { eexists _, _. split; [reflexivity |]. simpl.
    split_and!; [done | constructor |]. by intros result [= <-]. }
  destruct (BatchProofs.chunkArray_loop_spec (x :: data) n Hsize
              (length (x :: data)) 0 [])
    as (cs & Hrun & Hcat & Hall & _); [lia |].
  rewrite drop_0 in Hcat. simpl app in Hrun.
  rewrite (BatchProofs.batchUpsert_nonempty supabase table (x :: data)
             onConflict options cs) by (by rewrite ?Hn).
  rewrite Hcont.
  destruct (BatchUpsertProofs.loop_sends_prefix supabase table onConflict
              options (length cs) (length (x :: data)) false cs 0
              {| Batch.st_inserted := 0; Batch.st_errors := [];
                 Batch.st_trace := [] |})
    as (sent & Hsent & [rest ->] & Hdone).
  pose proof (BatchUpsertProofs.loop_abort_mode_clean supabase table onConflict
                options (length (sent ++ rest)) (length (x :: data))
                (sent ++ rest) 0
                {| Batch.st_inserted := 0; Batch.st_errors := [];
                   Batch.st_trace := [] |}) as Hclean.
  destruct (Batch.batchUpsert_loop _ _ _ _ _ _ _ _ _ _) as [st thrown].
  simpl in Hsent, Hdone. cbv beta iota.
  eexists _, _. split; [reflexivity |]. rewrite Hsent.
  split_and!.
  - rewrite <- Hcat, concat_app. by apply prefix_app_r.
  - rewrite Forall_app in Hall. tauto.
  - intros result Hret. destruct thrown as [e|]; [done |].
    injection Hret as <-. simpl.
    rewrite (Hdone eq_refl), Hcat. split; [done |].
    by rewrite (Hclean st eq_refl).
Qed.

(** X13. [syncTradingCalendar] always settles, whatever the API and the
    database answer.  Every write it makes is a non-empty batch of at
    most 2000 rows, and the rows written are, in order, an initial part
    of the fetched items converted one by one.  When it returns, the
    items were fetched, [fetched] is their number, every one of them
    was written, and [errors] is empty. *)
Theorem syncTradingCalendar_writes_converted_items (createClient : Outcome unit)
    (getSupabaseAdmin :
       Outcome (Batch.SupabaseClient TradingCalendar.TradingCalendarRecord))
    (getTradingCalendar : Outcome (list TradingCalendar.TradingCalendarItem)) :
  ∃ outcome trace,
    TradingCalendarSync.syncTradingCalendar createClient getSupabaseAdmin
      getTradingCalendar = Some (outcome, trace)
    ∧ Forall (λ c, c ≠ [] ∧ length c ≤ 2000) (Batch.upsert_calls trace)
    ∧ (∀ items, getTradingCalendar = Ret items →
         concat (Batch.upsert_calls trace)
           `prefix_of` map TradingCalendar.toTradingCalendarRecord items)
    ∧ (∀ result, outcome = Ret result →
         ∃ items,
           getTradingCalendar = Ret items
           ∧ TradingCalendarSync.fetched result = length items
           ∧ TradingCalendarSync.errors result = []
           ∧ concat (Batch.upsert_calls trace)
             = map TradingCalendar.toTradingCalendarRecord items).
Proof.
  unfold TradingCalendarSync.syncTradingCalendar.
  destruct createClient as [[]|e];
    [| eexists _, _; split; [reflexivity |];
       split_and!; [constructor | intros; apply prefix_nil | done]].
  destruct getSupabaseAdmin as [supabase|e];
    [| eexists _, _; split; [reflexivity |];
       split_and!; [constructor | intros; apply prefix_nil | done]].
  destruct getTradingCalendar as [items|e];
    [| eexists _, _; split; [reflexivity |];
       split_and!; [constructor | intros; apply prefix_nil | done]].
  destruct items as [|item items].
  { eexists _, _. split; [reflexivity |].
    split_and!; [constructor | intros; apply prefix_nil |].
    intros result [= <-]. by exists []. }
  change (length (item :: items) =? 0) with false. cbv iota.
  destruct (batchUpsert_abort_mode_run supabase TradingCalendarSync.TABLE_NAME
              (map TradingCalendar.toTradingCalendarRecord (item :: items))
              TradingCalendarSync.ON_CONFLICT InvestorTypes.log_batch_complete 2000)
    as (outcome & trace & -> & Hpre & Hall & Hret).
  { vm_compute. reflexivity. }
  { apply Nat.leb_le. vm_compute. reflexivity. }
  { reflexivity. }
  eexists _, _. split; [reflexivity |].
  split_and!.
  - exact Hall.
  - by intros ? [= <-].
  - intros result Hres. destruct outcome as [r|e]; [| done].
    injection Hres as <-. destruct (Hret r eq_refl) as [Hcat Herr].
    by exists (item :: items).
Qed.

(** [allDatesMatch] for a non-empty list: every item carries the date
    of the first one. *)
Lemma all_dates_match_spec (item : EarningsCalendar.EarningsCalendarItem)
    (items : list EarningsCalendar.EarningsCalendarItem) :
  EarningsCalendar.all_dates_match (item :: items)
    (EarningsCalendar.first_date (item :: items)) = true
  ↔ Forall (λ it, EarningsCalendar.Date it = EarningsCalendar.Date item)
      (item :: items).
Proof.
  unfold EarningsCalendar.all_dates_match, EarningsCalendar.first_date.
  change (EarningsCalendar.Date <$> head (item :: items))
    with (Some (EarningsCalendar.Date item)).
  generalize (item :: items) as l. intros l.
  rewrite <- Is_true_true, forallb_True, !Forall_forall.
  split; intros Hall it Hin; specialize (Hall it Hin).
  - apply bool_decide_unpack in Hall. congruence.
  - apply bool_decide_pack. by f_equal.
Qed.

(** X14. [syncEarningsCalendar] always settles.  Every write is a
    non-empty batch of at most 1000 rows, and the rows written are an
    initial part of the converted items.  When it returns, every
    fetched item was written, [errors] is empty, and
    [announcementDate] is a date exactly when there is at least one
    item and every item carries that date; with mixed dates it is null
    although all rows were written. *)
Theorem syncEarningsCalendar_announcement_date (createClient : Outcome unit)
    (getSupabaseAdmin :
       Outcome (Batch.SupabaseClient EarningsCalendar.EarningsCalendarRecord))
    (getEarningsCalendar : Outcome (list EarningsCalendar.EarningsCalendarItem)) :
  ∃ outcome trace,
    EarningsCalendar.syncEarningsCalendar createClient getSupabaseAdmin
      getEarningsCalendar = Some (outcome, trace)
    ∧ Forall (λ c, c ≠ [] ∧ length c ≤ 1000) (Batch.upsert_calls trace)
    ∧ (∀ items, getEarningsCalendar = Ret items →
         concat (Batch.upsert_calls trace)
           `prefix_of` map EarningsCalendar.toEarningsCalendarRecord items)
    ∧ (∀ result, outcome = Ret result →
         ∃ items,
           getEarningsCalendar = Ret items
           ∧ EarningsCalendar.fetched result = length items
           ∧ EarningsCalendar.errors result = []
           ∧ concat (Batch.upsert_calls trace)
             = map EarningsCalendar.toEarningsCalendarRecord items
           ∧ (∀ d, EarningsCalendar.announcementDate result = Some d
                   ↔ items ≠ []
                     ∧ Forall (λ item, EarningsCalendar.Date item = d) items)).
Proof.
  unfold EarningsCalendar.syncEarningsCalendar.
  destruct createClient as [[]|e];
    [| eexists _, _; split; [reflexivity |];
       split_and!; [constructor | intros; apply prefix_nil | done]].
  destruct getSupabaseAdmin as [supabase|e];
    [| eexists _, _; split; [reflexivity |];
       split_and!; [constructor | intros; apply prefix_nil | done]].
  destruct getEarningsCalendar as [items|e];
    [| eexists _, _; split; [reflexivity |];
       split_and!; [constructor | intros; apply prefix_nil | done]].
  destruct items as [|item items].
  { eexists _, _. split; [reflexivity |].
    split_and!; [constructor | intros; apply prefix_nil |].
    intros result [= <-]. exists []. split_and!; try done.
    intros d. simpl. split; [done | by intros [? _]]. }
  change (length (item :: items) =? 0) with false. cbv iota zeta.
  pose proof (all_dates_match_spec item items) as Hspec.
  set (allDatesMatch := EarningsCalendar.all_dates_match (item :: items) _) in *.
  clearbody allDatesMatch.
  destruct (batchUpsert_abort_mode_run supabase EarningsCalendar.TABLE_NAME
              (map EarningsCalendar.toEarningsCalendarRecord (item :: items))
              EarningsCalendar.ON_CONFLICT InvestorTypes.log_batch_complete 1000)
    as (outcome & trace & -> & Hpre & Hall & Hret).
  { vm_compute. reflexivity. }
  { apply Nat.leb_le. vm_compute. reflexivity. }
  { reflexivity. }
  eexists _, _. split; [reflexivity |].
  split_and!.
  - exact Hall.
  - by intros ? [= <-].
  - intros result Hres. destruct outcome as [r|e]; [| done].
    injection Hres as <-. destruct (Hret r eq_refl) as [Hcat Herr].
    exists (item :: items). split_and!; try done.
    intros d. simpl. destruct allDatesMatch.
    + split.
      * intros Hd. injection Hd as <-.
        split; [done |]. by apply Hspec.
      * intros [_ Hsame].
        change (Some (EarningsCalendar.Date item) = Some d).
        f_equal. by inversion Hsame.
    + split; [done |]. intros [_ Hsame].
      assert (false = true) as Hno; [| done].
      apply Hspec. by inversion Hsame as [|? ? Hd Hrest]; subst.
Qed.

(** X15. [syncInvestorTypes] always settles.  Every write is a
    non-empty batch of at most 2000 rows, and the rows written are an
    initial part of the vertical records of the items, item after
    item.  When it returns, [fetched] counts the items (not the
    records), every record of every item was written, and [errors] is
    empty. *)
Theorem syncInvestorTypes_writes_vertical_records (createClient : Outcome unit)
    (getSupabaseAdmin :
       Outcome (Batch.SupabaseClient InvestorTypes.InvestorTypeTradingRecord))
    (getInvestorTypes : Outcome (list InvestorTypes.InvestorTypeTradingItem)) :
  ∃ outcome trace,
    InvestorTypes.syncInvestorTypes createClient getSupabaseAdmin
      getInvestorTypes = Some (outcome, trace)
    ∧ Forall (λ c, c ≠ [] ∧ length c ≤ 2000) (Batch.upsert_calls trace)
    ∧ (∀ items, getInvestorTypes = Ret items →
         concat (Batch.upsert_calls trace)
           `prefix_of` flat_map InvestorTypes.toInvestorTypeTradingRecords items)
    ∧ (∀ result, outcome = Ret result →
         ∃ items,
           getInvestorTypes = Ret items
           ∧ InvestorTypes.fetched result = length items
           ∧ InvestorTypes.errors result = []
           ∧ concat (Batch.upsert_calls trace)
             = flat_map InvestorTypes.toInvestorTypeTradingRecords items).
Proof.
  unfold InvestorTypes.syncInvestorTypes.
  destruct createClient as [[]|e];
    [| eexists _, _; split; [reflexivity |];
       split_and!; [constructor | intros; apply prefix_nil | done]].
  destruct getSupabaseAdmin as [supabase|e];
    [| eexists _, _; split; [reflexivity |];
       split_and!; [constructor | intros; apply prefix_nil | done]].
  destruct getInvestorTypes as [items|e];
    [| eexists _, _; split; [reflexivity |];
       split_and!; [constructor | intros; apply prefix_nil | done]].
  destruct items as [|item items].
  { eexists _, _. split; [reflexivity |].
    split_and!; [constructor | intros; apply prefix_nil |].
    intros result [= <-]. by exists []. }
  change (length (item :: items) =? 0) with false. cbv iota zeta.
  destruct (batchUpsert_abort_mode_run supabase InvestorTypes.TABLE_NAME
              (flat_map InvestorTypes.toInvestorTypeTradingRecords (item :: items))
              InvestorTypes.ON_CONFLICT InvestorTypes.log_batch_complete 2000)
    as (outcome & trace & -> & Hpre & Hall & Hret).
  { vm_compute. reflexivity. }
  { apply Nat.leb_le. vm_compute. reflexivity. }
  { reflexivity. }
  eexists _, _. split; [reflexivity |].
  split_and!.
  - exact Hall.
  - by intros ? [= <-].
  - intros result Hres. destruct outcome as [r|e]; [| done].
    injection Hres as <-. destruct (Hret r eq_refl) as [Hcat Herr].
    by exists (item :: items).
Qed.

End SyncProofs.

(** * The Cron B route: what each path calls and answers *)

Module CronBRouteProofs.
Import Js CronB.

(** [finally]: one [releaseLock] call, whose outcome is dropped. *)
Lemma try_finally_release {World : Type} (env : Env World)
    (m : M World Response) (lockToken : option string)
    (st st1 : State World) (r : Outcome Response) :
  m st = (r, st1) →
  ∃ st2,
    try_finally m (finally_block env lockToken) st = (r, st2)
    ∧ trace st2 = trace st1 ++ [EvReleaseLock JOB_NAME lockToken]
    ∧ local_runId st2 = local_runId st1.
Proof.
  intros Hm. unfold try_finally. rewrite Hm.
  unfold finally_block, try_catch, call, ret.
  destruct (releaseLock env (world st1) JOB_NAME lockToken) as [[[]|e] w2];
    simpl; eexists; split_and!; reflexivity.
Qed.

(** The [catch] block: it answers 500, after trying both clean-up
    writes when a run was started, whatever they do. *)
Lemma catch_block_run {World : Type} (env : Env World) (e : string)
    (st : State World) :
  ∃ st1,
    catch_block env e st
    = (Ret {| status := 500;
              body := BodyInternalError
                        (if isDev env then Some e else None)
                        (if truthy (Some (local_runId st))
                         then Some (local_runId st) else None) |}, st1)
    ∧ trace st1
      = trace st
        ++ (if truthy (Some (local_runId st))
            then [EvCompleteJobRun (local_runId st) Failed (Some e);
                  EvUpdateHeartbeat JOB_NAME Failed (local_runId st) (Some e)]
            else [])
    ∧ local_runId st1 = local_runId st.
Proof.
  unfold catch_block, bind, get_runId, json, ret.
  destruct (truthy (Some (local_runId st))).
  - unfold allSettled2, bind, try_catch, call, ret.
    destruct (completeJobRun env (world st) (local_runId st) Failed (Some e))
      as [[[]|e1] w1]; simpl;
      destruct (updateHeartbeat env w1 JOB_NAME Failed (local_runId st) (Some e))
        as [[[]|e2] w2]; simpl;
      eexists; split_and!; try reflexivity; by rewrite <- app_assoc.
  - eexists. split_and!; try reflexivity. simpl. by rewrite app_nil_r.
Qed.

(** X16. Unless [acquireLock] reports success, the route does no work:
    it calls neither [startJobRun] nor the handler nor [completeJobRun]
    nor [updateHeartbeat], and it does not release a lock that it does
    not hold.  At most the lock attempt itself is made.  A response, if
    there is one, is the authentication error or a 409. *)
Theorem POST_without_lock_runs_nothing {World : Type} (env : Env World)
    (w : World) :
  (∀ lockResult w1,
     acquireLock env w JOB_NAME LOCK_TTL_SECONDS = (Ret lockResult, w1) →
     success lockResult = false) →
  trace (POST env (initial w)).2
    `prefix_of` [EvAcquireLock JOB_NAME LOCK_TTL_SECONDS]
  ∧ (∀ response, (POST env (initial w)).1 = Ret response →
       requireCronAuth env = Some response
       ∨ (status response = 409
          ∧ body_error (body response) = Some "Another job is running")).
Proof.
  intros Hrefused.
  assert (∃ r st,
            POST env (initial w) = (r, st)
            ∧ trace st `prefix_of` [EvAcquireLock JOB_NAME LOCK_TTL_SECONDS]
            ∧ ∀ response, r = Ret response →
                requireCronAuth env = Some response
                ∨ (status response = 409
                   ∧ body_error (body response)
                     = Some "Another job is running"))
    as (r & st & -> & Htrace & Hresp); [| done].
  unfold POST.
  destruct (requireCronAuth env) as [authError|].
  { eexists _, _. split; [reflexivity |].
    split; [apply prefix_nil |]. intros response [= <-]. by left. }
  destruct (createAdminClient env) as [[]|e].
  2:{ eexists _, _. split; [reflexivity |]. split; [apply prefix_nil | done]. }
  unfold bind at 1. unfold call at 1. cbn [world trace local_runId initial].
  destruct (acquireLock env w JOB_NAME LOCK_TTL_SECONDS)
    as [[lockResult|e] w1] eqn:Hacq.
  - rewrite (Hrefused lockResult w1 eq_refl). unfold json, ret.
    eexists _, _. split; [reflexivity |].
    split; [done |]. intros response [= <-]. by right.
  - eexists _, _. split; [reflexivity |]. split; [done | done].
Qed.

Lemma POST_without_lock_runs_nothing_witness :
  trace (POST CronBCases.refusing_env (initial ())).2
    `prefix_of` [EvAcquireLock JOB_NAME LOCK_TTL_SECONDS]
  ∧ (∀ response,
       (POST CronBCases.refusing_env (initial ())).1 = Ret response →
       requireCronAuth CronBCases.refusing_env = Some response
       ∨ (status response = 409
          ∧ body_error (body response) = Some "Another job is running")).
Proof.
  apply (POST_without_lock_runs_nothing CronBCases.refusing_env ()).
  intros lockResult w1 Hacq. injection Hacq as <- _. reflexivity.
Defined.

(** X17. When the lock is acquired and [startJobRun] reports an error
    (the run already exists), the route answers 200 with "Job already
    executed", calls neither the handler nor [updateHeartbeat] nor
    [completeJobRun], and releases the lock: the three calls are the
    lock, the start and the release. *)
Theorem POST_already_executed_skips_handler {World : Type} (env : Env World)
    (w w1 w2 : World) (lockResult : LockResult) (startResult : StartResult) :
  requireCronAuth env = None →
  createAdminClient env = Ret () →
  acquireLock env w JOB_NAME LOCK_TTL_SECONDS = (Ret lockResult, w1) →
  success lockResult = true →
  startJobRun env w1 JOB_NAME = (Ret startResult, w2) →
  truthy (start_error startResult) = true →
  ∃ st,
    POST env (initial w)
    = (Ret {| status := 200;
              body := BodyAlreadyExecuted (start_error startResult) |}, st)
    ∧ trace st = [EvAcquireLock JOB_NAME LOCK_TTL_SECONDS;
                  EvStartJobRun JOB_NAME;
                  EvReleaseLock JOB_NAME (token lockResult)].
Proof.
  intros Hauth Hclient Hacq Hok Hstart Herr.
  rewrite (CronBProofs.POST_after_acquire env w w1 lockResult) by done.
  edestruct (try_finally_release env
               (try_catch (try_block env) (catch_block env))
               (token lockResult)) as (st2 & -> & Htrace & _).
  { unfold try_catch, try_block. unfold bind at 1. unfold call at 1.
    cbn [world trace local_runId]. rewrite Hstart, Herr. reflexivity. }
  eexists. split; [reflexivity |]. by rewrite Htrace.
Qed.

Lemma POST_already_executed_skips_handler_witness :
  ∃ st,
    POST (quiet_world_env
            (Ret {| runId := ""; start_error := Some "Job already executed" |})
            (Throw "unused") (Throw "release failed")) (initial ())
    = (Ret {| status := 200;
              body := BodyAlreadyExecuted
                        (start_error
                           {| runId := "";
                              start_error := Some "Job already executed" |}) |},
       st)
    ∧ trace st = [EvAcquireLock JOB_NAME LOCK_TTL_SECONDS;
                  EvStartJobRun JOB_NAME;
                  EvReleaseLock JOB_NAME
                    (token {| success := true; token := Some "tok";
                              lock_error := None |})].
Proof.
  apply (POST_already_executed_skips_handler
           (quiet_world_env
              (Ret {| runId := ""; start_error := Some "Job already executed" |})
              (Throw "unused") (Throw "release failed")) () () ()
           {| success := true; token := Some "tok"; lock_error := None |}
           {| runId := ""; start_error := Some "Job already executed" |});
    reflexivity.
Defined.

(** The [try] block up to the handler call. *)
Lemma try_block_to_handler {World : Type} (env : Env World) (st : State World)
    (startResult : StartResult) (w2 w3 w4 : World)
    (handled : Outcome CronBResult) :
  startJobRun env (world st) JOB_NAME = (Ret startResult, w2) →
  truthy (start_error startResult) = false →
  updateHeartbeat env w2 JOB_NAME Running (runId startResult) None
    = (Ret (), w3) →
  handleCronB env w3 (runId startResult) = (handled, w4) →
  try_block env st
  = bind (λ _, (handled,
                {| world := w4;
                   trace := trace st
                            ++ [EvStartJobRun JOB_NAME;
                                EvUpdateHeartbeat JOB_NAME Running
                                  (runId startResult) None;
                                EvHandleCronB (runId startResult)];
                   local_runId := runId startResult |}))
      (λ result,
         bind (call (EvCompleteJobRun (runId startResult) (final_status result)
                       (handler_error result))
                 (λ w, completeJobRun env w (runId startResult)
                         (final_status result) (handler_error result)))
           (λ _,
              bind (call (EvUpdateHeartbeat JOB_NAME (final_status result)
                            (runId startResult) (handler_error result))
                      (λ w, updateHeartbeat env w JOB_NAME (final_status result)
                              (runId startResult) (handler_error result)))
                (λ _, json 200 (BodyResult (runId startResult) result))))
      st.
Proof.
  intros Hstart Hok Hbeat Hhandle.
  unfold try_block. unfold bind at 1. unfold call at 1.
  rewrite Hstart, Hok.
  unfold bind at 1. unfold set_runId.
  unfold bind at 1. unfold get_runId. cbn [local_runId world trace].
  unfold bind at 1. unfold call at 1. cbn [local_runId world trace].
  rewrite Hbeat.
  unfold bind at 1. unfold call at 1. cbn [local_runId world trace].
  rewrite Hhandle.
  unfold bind at 3. rewrite <- !app_assoc. simpl app.
  by destruct handled.
Qed.

(** X18. When the handler throws, the route answers 500 - with the
    message in [detail] only in a development build - after trying to
    record the failure: [completeJobRun] with 'failed' and the
    message, then the 'failed' heartbeat, then the release of the lock,
    whatever the two clean-up writes do.  A run id that is the empty
    string skips the two writes. *)
Theorem POST_handler_exception_cleanup {World : Type} (env : Env World)
    (w w1 w2 w3 w4 : World) (lockResult : LockResult)
    (startResult : StartResult) (e : string) :
  requireCronAuth env = None →
  createAdminClient env = Ret () →
  acquireLock env w JOB_NAME LOCK_TTL_SECONDS = (Ret lockResult, w1) →
  success lockResult = true →
  startJobRun env w1 JOB_NAME = (Ret startResult, w2) →
  truthy (start_error startResult) = false →
  updateHeartbeat env w2 JOB_NAME Running (runId startResult) None
    = (Ret (), w3) →
  handleCronB env w3 (runId startResult) = (Throw e, w4) →
  ∃ st,
    POST env (initial w)
    = (Ret {| status := 500;
              body := BodyInternalError
                        (if isDev env then Some e else None)
                        (if truthy (Some (runId startResult))
                         then Some (runId startResult) else None) |}, st)
    ∧ trace st
      = [EvAcquireLock JOB_NAME LOCK_TTL_SECONDS;
         EvStartJobRun JOB_NAME;
         EvUpdateHeartbeat JOB_NAME Running (runId startResult) None;
         EvHandleCronB (runId startResult)]
        ++ (if truthy (Some (runId startResult))
            then [EvCompleteJobRun (runId startResult) Failed (Some e);
                  EvUpdateHeartbeat JOB_NAME Failed (runId startResult) (Some e)]
            else [])
        ++ [EvReleaseLock JOB_NAME (token lockResult)].
Proof.
  intros Hauth Hclient Hacq Hok Hstart Hnew Hbeat Hhandle.
  rewrite (CronBProofs.POST_after_acquire env w w1 lockResult) by done.
  set (st0 := {| world := w1;
                 trace := [EvAcquireLock JOB_NAME LOCK_TTL_SECONDS];
                 local_runId := "" |}).
  pose proof (try_block_to_handler env st0 startResult w2 w3 w4 (Throw e)
                Hstart Hnew Hbeat Hhandle) as Htry.
  unfold bind at 1 in Htry.
  destruct (catch_block_run env e
              {| world := w4;
                 trace := trace st0
                          ++ [EvStartJobRun JOB_NAME;
                              EvUpdateHeartbeat JOB_NAME Running
                                (runId startResult) None;
                              EvHandleCronB (runId startResult)];
                 local_runId := runId startResult |})
    as (st1 & Hcatch & Htrace1 & _).
  edestruct (try_finally_release env
               (try_catch (try_block env) (catch_block env))
               (token lockResult) st0) as (st2 & -> & Htrace2 & _).
  { unfold try_catch. rewrite Htry. exact Hcatch. }
  eexists. split; [reflexivity |].
  rewrite Htrace2, Htrace1. cbn [trace local_runId]. unfold st0.
  cbn [trace]. by rewrite <- !app_assoc.
Qed.

Lemma POST_handler_exception_cleanup_witness :
  ∃ st,
    POST (quiet_world_env (Ret {| runId := "run-1"; start_error := None |})
            (Throw "boom") (Throw "release failed")) (initial ())
    = (Ret {| status := 500;
              body := BodyInternalError
                        (if isDev (quiet_world_env
                                     (Ret {| runId := "run-1";
                                             start_error := None |})
                                     (Throw "boom") (Throw "release failed"))
                         then Some "boom" else None)
                        (if truthy (Some (runId {| runId := "run-1";
                                                   start_error := None |}))
                         then Some (runId {| runId := "run-1";
                                             start_error := None |})
                         else None) |}, st)
    ∧ trace st
      = [EvAcquireLock JOB_NAME LOCK_TTL_SECONDS;
         EvStartJobRun JOB_NAME;
         EvUpdateHeartbeat JOB_NAME Running
           (runId {| runId := "run-1"; start_error := None |}) None;
         EvHandleCronB (runId {| runId := "run-1"; start_error := None |})]
        ++ (if truthy (Some (runId {| runId := "run-1"; start_error := None |}))
            then [EvCompleteJobRun
                    (runId {| runId := "run-1"; start_error := None |})
                    Failed (Some "boom");
                  EvUpdateHeartbeat JOB_NAME Failed
                    (runId {| runId := "run-1"; start_error := None |})
                    (Some "boom")]
            else [])
        ++ [EvReleaseLock JOB_NAME
              (token {| success := true; token := Some "tok";
                        lock_error := None |})].
Proof.
  apply (POST_handler_exception_cleanup
           (quiet_world_env (Ret {| runId := "run-1"; start_error := None |})
              (Throw "boom") (Throw "release failed")) () () () () ()
           {| success := true; token := Some "tok"; lock_error := None |}
           {| runId := "run-1"; start_error := None |} "boom");
    reflexivity.
Defined.

(** X19. When the handler has returned and its completion has been
    recorded, but the final heartbeat write fails, the route treats it
    as an exception: it records the run again, now as 'failed' with
    the message of the write error, writes a 'failed' heartbeat,
    releases the lock and answers 500 - although the handler's own
    result may have been a success. *)
Theorem POST_heartbeat_failure_overrides_result {World : Type}
    (env : Env World) (w w1 w2 w3 w4 w5 w6 : World) (lockResult : LockResult)
    (startResult : StartResult) (result : CronBResult) (e : string) :
  requireCronAuth env = None →
  createAdminClient env = Ret () →
  acquireLock env w JOB_NAME LOCK_TTL_SECONDS = (Ret lockResult, w1) →
  success lockResult = true →
  startJobRun env w1 JOB_NAME = (Ret startResult, w2) →
  truthy (start_error startResult) = false →
  truthy (Some (runId startResult)) = true →
  updateHeartbeat env w2 JOB_NAME Running (runId startResult) None
    = (Ret (), w3) →
  handleCronB env w3 (runId startResult) = (Ret result, w4) →
  completeJobRun env w4 (runId startResult) (final_status result)
    (handler_error result) = (Ret (), w5) →
  updateHeartbeat env w5 JOB_NAME (final_status result) (runId startResult)
    (handler_error result) = (Throw e, w6) →
  ∃ st,
    POST env (initial w)
    = (Ret {| status := 500;
              body := BodyInternalError
                        (if isDev env then Some e else None)
                        (Some (runId startResult)) |}, st)
    ∧ trace st
      = [EvAcquireLock JOB_NAME LOCK_TTL_SECONDS;
         EvStartJobRun JOB_NAME;
         EvUpdateHeartbeat JOB_NAME Running (runId startResult) None;
         EvHandleCronB (runId startResult);
         EvCompleteJobRun (runId startResult) (final_status result)
           (handler_error result);
         EvUpdateHeartbeat JOB_NAME (final_status result) (runId startResult)
           (handler_error result);
         EvCompleteJobRun (runId startResult) Failed (Some e);
         EvUpdateHeartbeat JOB_NAME Failed (runId startResult) (Some e);
         EvReleaseLock JOB_NAME (token lockResult)].
Proof.
  intros Hauth Hclient Hacq Hok Hstart Hnew Hrun Hbeat Hhandle Hdone Hfinal.
  rewrite (CronBProofs.POST_after_acquire env w w1 lockResult) by done.
  set (st0 := {| world := w1;
                 trace := [EvAcquireLock JOB_NAME LOCK_TTL_SECONDS];
                 local_runId := "" |}).
  pose proof (try_block_to_handler env st0 startResult w2 w3 w4 (Ret result)
                Hstart Hnew Hbeat Hhandle) as Htry.
  unfold bind at 1 in Htry.
  unfold bind at 1 in Htry. unfold call at 1 in Htry.
  cbn [world trace local_runId] in Htry. rewrite Hdone in Htry.
  unfold bind at 1 in Htry. unfold call at 1 in Htry.
  cbn [world trace local_runId] in Htry. rewrite Hfinal in Htry.
  match type of Htry with _ = (Throw _, ?st_thrown) =>
    destruct (catch_block_run env e st_thrown) as (st1 & Hcatch & Htrace1 & _)
  end.
  cbn [local_runId] in Hcatch, Htrace1. rewrite Hrun in Hcatch, Htrace1.
  edestruct (try_finally_release env
               (try_catch (try_block env) (catch_block env))
               (token lockResult) st0) as (st2 & -> & Htrace2 & _).
  { unfold try_catch. rewrite Htry. exact Hcatch. }
  eexists. split; [reflexivity |].
  rewrite Htrace2, Htrace1. cbn [trace]. unfold st0. cbn [trace].
  by rewrite <- !app_assoc.
Qed.

Lemma POST_heartbeat_failure_overrides_result_witness :
  ∃ st,
    POST (CronBCases.failing_final_heartbeat_env
            CronBCases.handler_success_result) (initial 0)
    = (Ret {| status := 500;
              body := BodyInternalError
                        (if isDev (CronBCases.failing_final_heartbeat_env
                                     CronBCases.handler_success_result)
                         then Some "connection reset" else None)
                        (Some (runId {| runId := "run-1";
                                        start_error := None |})) |}, st)
    ∧ trace st
      = [EvAcquireLock JOB_NAME LOCK_TTL_SECONDS;
         EvStartJobRun JOB_NAME;
         EvUpdateHeartbeat JOB_NAME Running
           (runId {| runId := "run-1"; start_error := None |}) None;
         EvHandleCronB (runId {| runId := "run-1"; start_error := None |});
         EvCompleteJobRun (runId {| runId := "run-1"; start_error := None |})
           (final_status CronBCases.handler_success_result)
           (handler_error CronBCases.handler_success_result);
         EvUpdateHeartbeat JOB_NAME
           (final_status CronBCases.handler_success_result)
           (runId {| runId := "run-1"; start_error := None |})
           (handler_error CronBCases.handler_success_result);
         EvCompleteJobRun (runId {| runId := "run-1"; start_error := None |})
           Failed (Some "connection reset");
         EvUpdateHeartbeat JOB_NAME Failed
           (runId {| runId := "run-1"; start_error := None |})
           (Some "connection reset");
         EvReleaseLock JOB_NAME
           (token {| success := true; token := Some "tok";
                     lock_error := None |})].
Proof.
  apply (POST_heartbeat_failure_overrides_result
           (CronBCases.failing_final_heartbeat_env
              CronBCases.handler_success_result) 0 1 2 3 4 5 6
           {| success := true; token := Some "tok"; lock_error := None |}
           {| runId := "run-1"; start_error := None |}
           CronBCases.handler_success_result "connection reset");
    reflexivity.
Defined.

(** X20. When every collaborator resolves, the route answers 200 with
    the handler's result - also when that result reports a failure -
    and records the same status twice, in [completeJobRun] and in the
    heartbeat: 'success' exactly when the result says so, 'failed'
    otherwise, with the handler's error message.  The calls are, in
    order: lock, start, 'running' heartbeat, handler, completion,
    final heartbeat, release. *)
Theorem POST_reports_handler_result {World : Type} (env : Env World)
    (w w1 w2 w3 w4 w5 w6 : World) (lockResult : LockResult)
    (startResult : StartResult) (result : CronBResult) :
  requireCronAuth env = None →
  createAdminClient env = Ret () →
  acquireLock env w JOB_NAME LOCK_TTL_SECONDS = (Ret lockResult, w1) →
  success lockResult = true →
  startJobRun env w1 JOB_NAME = (Ret startResult, w2) →
  truthy (start_error startResult) = false →
  updateHeartbeat env w2 JOB_NAME Running (runId startResult) None
    = (Ret (), w3) →
  handleCronB env w3 (runId startResult) = (Ret result, w4) →
  completeJobRun env w4 (runId startResult) (final_status result)
    (handler_error result) = (Ret (), w5) →
  updateHeartbeat env w5 JOB_NAME (final_status result) (runId startResult)
    (handler_error result) = (Ret (), w6) →
  ∃ st,
    POST env (initial w)
    = (Ret {| status := 200; body := BodyResult (runId startResult) result |},
       st)
    ∧ trace st
      = [EvAcquireLock JOB_NAME LOCK_TTL_SECONDS;
         EvStartJobRun JOB_NAME;
         EvUpdateHeartbeat JOB_NAME Running (runId startResult) None;
         EvHandleCronB (runId startResult);
         EvCompleteJobRun (runId startResult) (final_status result)
           (handler_error result);
         EvUpdateHeartbeat JOB_NAME (final_status result) (runId startResult)
           (handler_error result);
         EvReleaseLock JOB_NAME (token lockResult)]
    ∧ (final_status result = Success ↔ handler_success result = true)
    ∧ world st = (releaseLock env w6 JOB_NAME (token lockResult)).2.
Proof.
  intros Hauth Hclient Hacq Hok Hstart Hnew Hbeat Hhandle Hdone Hfinal.
  rewrite (CronBProofs.POST_after_acquire env w w1 lockResult) by done.
  set (st0 := {| world := w1;
                 trace := [EvAcquireLock JOB_NAME LOCK_TTL_SECONDS];
                 local_runId := "" |}).
  pose proof (try_block_to_handler env st0 startResult w2 w3 w4 (Ret result)
                Hstart Hnew Hbeat Hhandle) as Htry.
  unfold bind at 1 in Htry.
  unfold bind at 1 in Htry. unfold call at 1 in Htry.
  cbn [world trace local_runId] in Htry. rewrite Hdone in Htry.
  unfold bind at 1 in Htry. unfold call at 1 in Htry.
  cbn [world trace local_runId] in Htry. rewrite Hfinal in Htry.
  unfold json, ret in Htry.
  unfold try_finally, try_catch. rewrite Htry.
  unfold finally_block, try_catch, call, ret. cbn [world trace local_runId].
  destruct (releaseLock env w6 JOB_NAME (token lockResult)) as [[[]|e] w7];
    eexists; (split; [reflexivity |]); cbn [trace world snd]; unfold st0;
    cbn [trace]; rewrite <- !app_assoc;
    (split_and!; [done | by unfold final_status; destruct (handler_success result)
                 | done]).
Qed.

Lemma POST_reports_handler_result_witness :
  ∃ st,
    POST (quiet_world_env (Ret {| runId := "run-1"; start_error := None |})
            (Ret CronBCases.handler_failure) (Ret ())) (initial ())
    = (Ret {| status := 200;
              body := BodyResult
                        (runId {| runId := "run-1"; start_error := None |})
                        CronBCases.handler_failure |}, st)
    ∧ trace st
      = [EvAcquireLock JOB_NAME LOCK_TTL_SECONDS;
         EvStartJobRun JOB_NAME;
         EvUpdateHeartbeat JOB_NAME Running
           (runId {| runId := "run-1"; start_error := None |}) None;
         EvHandleCronB (runId {| runId := "run-1"; start_error := None |});
         EvCompleteJobRun (runId {| runId := "run-1"; start_error := None |})
           (final_status CronBCases.handler_failure)
           (handler_error CronBCases.handler_failure);
         EvUpdateHeartbeat JOB_NAME (final_status CronBCases.handler_failure)
           (runId {| runId := "run-1"; start_error := None |})
           (handler_error CronBCases.handler_failure);
         EvReleaseLock JOB_NAME
           (token {| success := true; token := Some "tok";
                     lock_error := None |})]
    ∧ (final_status CronBCases.handler_failure = Success
       ↔ handler_success CronBCases.handler_failure = true)
    ∧ world st
      = (releaseLock
           (quiet_world_env (Ret {| runId := "run-1"; start_error := None |})
              (Ret CronBCases.handler_failure) (Ret ()))
           () JOB_NAME
           (token {| success := true; token := Some "tok";
                     lock_error := None |})).2.
Proof.
  apply (POST_reports_handler_result
           (quiet_world_env (Ret {| runId := "run-1"; start_error := None |})
              (Ret CronBCases.handler_failure) (Ret ())) () () () () () () ()
           {| success := true; token := Some "tok"; lock_error := None |}
           {| runId := "run-1"; start_error := None |}
           CronBCases.handler_failure);
    reflexivity.
Defined.

End CronBRouteProofs.

(** * Cron authentication *)

Module CronAuthProofs.
Import Js CronAuth.

Lemma startsWith_append (prefix rest : string) :
  startsWith (prefix +:+ rest) prefix = true.
Proof.
  induction prefix as [|c prefix IH]; [done |].
  change (String c prefix +:+ rest) with (String c (prefix +:+ rest)).
  simpl. by rewrite Ascii.eqb_refl, IH.
Qed.

Lemma slice_from_append (prefix rest : string) :
  slice_from (String.length prefix) (prefix +:+ rest) = rest.
Proof.
  induction prefix as [|c prefix IH]; [done |].
  change (String c prefix +:+ rest) with (String c (prefix +:+ rest)).
  simpl. exact IH.
Qed.

Lemma startsWith_split (prefix : string) : ∀ s,
  startsWith s prefix = true →
  s = prefix +:+ slice_from (String.length prefix) s.
Proof.
  induction prefix as [|c prefix IH]; intros s Hs; [done |].
  destruct s as [|d s]; [done |]. simpl in Hs.
  apply andb_true_iff in Hs as [Hc Hs]. apply Ascii.eqb_eq in Hc as ->.
  change (String c prefix +:+ slice_from (String.length (String c prefix))
                                (String c s))
    with (String c (prefix +:+ slice_from (String.length prefix) s)).
  f_equal. by apply IH.
Qed.

Lemma truthy_spec (s : option string) :
  CronB.truthy s = true ↔ ∃ v, s = Some v ∧ v ≠ "".
Proof.
  destruct s as [v|]; simpl.
  - rewrite negb_true_iff. split.
    + intros Hne. exists v. split; [done |]. intros ->. by simpl in Hne.
    + intros (v' & [= <-] & Hne). apply not_true_is_false.
      intros Heq. by apply String.eqb_eq in Heq.
  - split; [done | by intros (? & ? & _)].
Qed.

Section AuthFacts.
Context {Digest : Type} `{EqDecision Digest}.
Variable sha256 : string → Digest.

(** X21. [requireCronAuth] lets a request through exactly when
    [CRON_SECRET] is set and not empty and the value that
    [headers.get('authorization')] returns is [Bearer ] followed by a
    token whose SHA-256 digest is that of the secret; in particular
    the secret itself is accepted, and an unset or empty secret
    accepts nothing, not even an empty token. *)
Theorem requireCronAuth_accepts_iff (cronSecret authHeader : option string) :
  requireCronAuth Digest sha256 cronSecret authHeader = None
  ↔ ∃ secret token,
      cronSecret = Some secret ∧ secret ≠ ""
      ∧ authHeader = Some ("Bearer " +:+ token)
      ∧ sha256 token = sha256 secret.
Proof.
  unfold requireCronAuth, verifyCronAuth, secureCompare, failure.
  split.
  - destruct (CronB.truthy cronSecret) eqn:Hsecret; [| done].
    destruct (CronB.truthy authHeader) eqn:Hheader; [| done].
    apply truthy_spec in Hsecret as (secret & -> & Hne).
    apply truthy_spec in Hheader as (header & -> & _).
    cbn [negb nullish].
    destruct (startsWith header "Bearer ") eqn:Hprefix; [| done].
    cbn [negb]. destruct (bool_decide _) eqn:Hsame; [| done].
    intros _. exists secret, (slice_from 7 header).
    split_and!; [done | done | | by apply bool_decide_eq_true in Hsame].
    f_equal. by apply (startsWith_split "Bearer ").
  - intros (secret & token & -> & Hne & -> & Hsame).
    assert (CronB.truthy (Some secret) = true) as ->.
    { apply truthy_spec. by exists secret. }
    assert (CronB.truthy (Some ("Bearer " +:+ token)) = true) as ->.
    { apply truthy_spec. by eexists. }
    cbn [negb nullish].
    rewrite (startsWith_append "Bearer " token).
    change 7 with (String.length "Bearer ").
    rewrite (slice_from_append "Bearer " token).
    cbn [negb]. by rewrite bool_decide_eq_true_2.
Qed.

(** X22. Every refusal of [requireCronAuth] is a 401 with
    [WWW-Authenticate: Bearer] and one of four messages.  When
    [CRON_SECRET] is unset or empty the message is the configuration
    error whatever the request carries, and "Unauthorized" is
    answered only for a well-formed bearer token that does not match
    a configured secret. *)
Theorem requireCronAuth_refusal (cronSecret authHeader : option string)
    (response : UnauthorizedResponse) :
  requireCronAuth Digest sha256 cronSecret authHeader = Some response →
  status response = 401
  ∧ www_authenticate response = "Bearer"
  ∧ body_error response
      ∈ ["Server configuration error"; "Missing Authorization header";
         "Invalid Authorization header format"; "Unauthorized"]
  ∧ (CronB.truthy cronSecret = false
     → body_error response = "Server configuration error")
  ∧ (body_error response = "Unauthorized"
     → ∃ secret token,
         cronSecret = Some secret ∧ secret ≠ ""
         ∧ authHeader = Some ("Bearer " +:+ token)
         ∧ sha256 token ≠ sha256 secret).
Proof.
  unfold requireCronAuth, verifyCronAuth, secureCompare, failure.
  destruct (CronB.truthy cronSecret) eqn:Hsecret; cbn [negb].
  2:{ intros [= <-]. simpl. split_and!; try done. set_solver. }
  destruct (CronB.truthy authHeader) eqn:Hheader; cbn [negb].
  2:{ intros [= <-]. simpl. split_and!; try done. set_solver. }
  apply truthy_spec in Hsecret as (secret & -> & Hne).
  apply truthy_spec in Hheader as (header & -> & _).
  cbn [nullish].
  destruct (startsWith header "Bearer ") eqn:Hprefix; cbn [negb].
  2:{ intros [= <-]. simpl. split_and!; try done. set_solver. }
  destruct (bool_decide _) eqn:Hsame; cbn [negb]; [done |].
  intros [= <-]. simpl. split_and!; try done; [set_solver |].
  intros _. exists secret, (slice_from 7 header).
  split_and!; [done | done | | by apply bool_decide_eq_false in Hsame].
  f_equal. by apply (startsWith_split "Bearer ").
Qed.

End AuthFacts.

Lemma requireCronAuth_refusal_witness :
  status {| status := 401; www_authenticate := "Bearer";
            body_error := "Unauthorized" |} = 401
  ∧ www_authenticate {| status := 401; www_authenticate := "Bearer";
                        body_error := "Unauthorized" |} = "Bearer"
  ∧ body_error {| status := 401; www_authenticate := "Bearer";
                  body_error := "Unauthorized" |}
      ∈ ["Server configuration error"; "Missing Authorization header";
         "Invalid Authorization header format"; "Unauthorized"]
  ∧ (CronB.truthy (Some "s3cret") = false
     → body_error {| status := 401; www_authenticate := "Bearer";
                     body_error := "Unauthorized" |}
       = "Server configuration error")
  ∧ (body_error {| status := 401; www_authenticate := "Bearer";
                   body_error := "Unauthorized" |} = "Unauthorized"
     → ∃ secret token,
         Some "s3cret" = Some secret ∧ secret ≠ ""
         ∧ Some "Bearer guess" = Some ("Bearer " +:+ token)
         ∧ (λ s : string, s) token ≠ (λ s : string, s) secret).
Proof.
  apply (requireCronAuth_refusal (λ s : string, s) (Some "s3cret")
           (Some "Bearer guess")
           {| status := 401; www_authenticate := "Bearer";
              body_error := "Unauthorized" |}).
  reflexivity.
Defined.

End CronAuthProofs.

(** * Recent TOPIX bars *)

Module TopixProofs.
Import Js Topix.

Lemma valid_days_bounds (days : Q) : (1 ≤ valid_days days ≤ 1000)%Z.
Proof. unfold valid_days, MAX_RECENT_DAYS. lia. Qed.

(** X23. [getRecentTopixBarsFromDB] sends at most one query, and only
    for a finite [days]: NaN and the infinities are refused with an
    exception before the database client is even created.  The query
    reads [topix_bar_daily], newest first, with a limit between 1 and
    1000 whatever [days] is - the floor of [days] when that lies in
    the range, 1 below it and 1000 above. *)
Theorem getRecentTopixBarsFromDB_limit_clamped {T : Type}
    (getSupabaseAdmin :
       Outcome (RecentQuery → Outcome (BatchRead.SelectResponse T)))
    (days : Number) (includeRawJson : option bool) :
  let run := getRecentTopixBarsFromDB getSupabaseAdmin days includeRawJson in
  length run.2 ≤ 1
  ∧ Forall (λ query,
              q_table query = TABLE_NAME
              ∧ q_order query = ("trade_date", false)
              ∧ (1 ≤ q_limit query ≤ 1000)%Z
              ∧ ∀ q, days = Finite q →
                  ((1 ≤ Qfloor q ≤ 1000)%Z → q_limit query = Qfloor q)
                  ∧ ((Qfloor q < 1)%Z → q_limit query = 1%Z)
                  ∧ ((1000 < Qfloor q)%Z → q_limit query = 1000%Z))
      run.2
  ∧ (isFinite days = false →
     run = (Throw "getRecentTopixBarsFromDB: days must be a finite number", [])).
Proof.
  unfold getRecentTopixBarsFromDB.
  destruct days as [q| | |]; simpl;
    try (split_and!; [lia | constructor | done]).
  assert (Forall
            (λ query : RecentQuery,
               q_table query = TABLE_NAME
               ∧ q_order query = ("trade_date", false)
               ∧ (1 ≤ q_limit query ≤ 1000)%Z
               ∧ ∀ q0, Finite q = Finite q0 →
                   ((1 ≤ Qfloor q0 ≤ 1000)%Z → q_limit query = Qfloor q0)
                   ∧ ((Qfloor q0 < 1)%Z → q_limit query = 1%Z)
                   ∧ ((1000 < Qfloor q0)%Z → q_limit query = 1000%Z))
            [{| q_table := TABLE_NAME;
                q_columns := if wants_raw_json includeRawJson then "*"
                             else BASIC_COLUMNS;
                q_order := ("trade_date", false);
                q_limit := valid_days q |}]) as Hquery.
  { constructor; [| constructor]. simpl.
    split_and!; [done | done | apply valid_days_bounds.. |].
    intros q0 [= <-]. unfold valid_days, MAX_RECENT_DAYS. lia. }
  destruct getSupabaseAdmin as [supabase|e]; simpl;
    [| split_and!; [lia | constructor | done]].
  destruct (supabase _) as [response|e]; simpl;
    [| split_and!; [lia | done | done]].
  destruct (BatchRead.error response); simpl;
    split_and!; try done; lia.
Qed.

Lemma rev_take_rev {T : Type} (n : nat) (rows : list T) :
  rev (take n (rev rows)) = drop (length rows - n) rows.
Proof.
  assert (∀ l : list T, rev l = reverse l) as Hrev by (intros; apply rev_alt).
  by rewrite !Hrev, take_reverse, reverse_involutive.
Qed.

(** X24. Against a table that honours order and limit,
    [getRecentTopixBarsFromDB] returns the latest rows in ascending
    date order: the last [n] rows of the table, all of them when the
    table has fewer, where [n] is [days] rounded down and clamped to
    1..1000.  So it never returns more than 1000 rows, and never none
    from a table that has rows. *)
Theorem getRecentTopixBarsFromDB_latest_ascending {T : Type}
    (rows : list T) (days : Q) (includeRawJson : option bool) :
  ∃ n result,
    Z.of_nat n = valid_days days
    ∧ (getRecentTopixBarsFromDB (Ret (newest_first rows)) (Finite days)
         includeRawJson).1 = Ret result
    ∧ result = drop (length rows - n) rows
    ∧ length result = Nat.min n (length rows)
    ∧ length result ≤ 1000
    ∧ (rows ≠ [] → result ≠ []).
Proof.
  pose proof (valid_days_bounds days) as Hbounds.
  exists (Z.to_nat (valid_days days)), (drop (length rows - Z.to_nat (valid_days days)) rows).
  assert (length (drop (length rows - Z.to_nat (valid_days days)) rows)
          = Nat.min (Z.to_nat (valid_days days)) (length rows)) as Hlen.
  { rewrite length_drop. lia. }
  split_and!.
  - lia.
  - unfold getRecentTopixBarsFromDB, newest_first. simpl.
    by rewrite rev_take_rev.
  - done.
  - done.
  - rewrite Hlen. lia.
  - intros Hne Hnil. apply (f_equal length) in Hnil. rewrite Hlen in Hnil.
    destruct rows; [done |]. simpl in Hnil. lia.
Qed.

End TopixProofs.

(** * Reading the trading calendar *)

Module TradingCalendarReadProofs.
Import Js TradingCalendar TradingCalendarRead.

Local Ltac settle :=
  repeat match goal with
         | H : _ ∧ _ |- _ => destruct H
         | H : ∃ _, _ |- _ => destruct H
         | H : Some _ = Some _ |- _ => injection H as H
         | H : Ret _ = Ret _ |- _ => injection H as H
         | H : Throw _ = Throw _ |- _ => injection H as H
         end;
  subst; try done; try congruence; eauto 6.

(** X25. [isBusinessDayFromDB] keeps three answers apart.  It reads
    the answer to one query, for the given date.  It returns null
    exactly when the
    database reports that no row matches (PGRST116) or answers
    without a row; it returns a boolean exactly when a row came back,
    and then the row's [is_business_day]; every other database error
    is thrown, never read as "not a business day".  For a row as
    [toTradingCalendarRecord] writes it, the answer is true exactly for
    the divisions 1 and 2. *)
Theorem isBusinessDayFromDB_three_answers
    (supabase : SingleQuery → Outcome SingleResponse) (calendarDate : string)
    (response : SingleResponse) :
  supabase (day_query calendarDate) = Ret response →
  let answer := isBusinessDayFromDB (Ret supabase) calendarDate in
  (answer = Ret None
   ↔ match error response with
     | Some e => Pg.code e = Pg.NO_ROWS_RETURNED
     | None => data response = None
     end)
  ∧ (∀ b, answer = Ret (Some b)
          ↔ error response = None
            ∧ ∃ row, data response = Some row ∧ is_business_day row = b)
  ∧ (∀ message, answer = Throw message
          ↔ ∃ e, error response = Some e
                 ∧ Pg.code e ≠ Pg.NO_ROWS_RETURNED
                 ∧ Pg.message e = message)
  ∧ (∀ item, error response = None →
       data response = Some (toTradingCalendarRecord item) →
       answer = Ret (Some true) ↔ HolDiv item = "1" ∨ HolDiv item = "2").
Proof.
  intros Hquery. unfold isBusinessDayFromDB, getTradingCalendarFromDB.
  cbn [nullish]. fold (day_query calendarDate). rewrite Hquery.
  destruct response as [[row|] [e|]]; cbn [error data].
  - destruct (String.eqb_spec (Pg.code e) Pg.NO_ROWS_RETURNED) as [Hcode|Hcode];
      simpl; split_and!; intros; split; intros; settle.
  - simpl. split_and!.
    + split; intros; settle.
    + intros b. split; intros; settle.
    + intros message. split; intros; settle.
    + intros item _ [= ->]. simpl. unfold isBusinessDay.
      destruct (String.eqb_spec (HolDiv item) "1") as [H1|H1];
        destruct (String.eqb_spec (HolDiv item) "2") as [H2|H2];
        simpl; split; intros; settle; tauto.
  - destruct (String.eqb_spec (Pg.code e) Pg.NO_ROWS_RETURNED) as [Hcode|Hcode];
      simpl; split_and!; intros; split; intros; settle.
  - simpl. split_and!; intros; split; intros; settle.
Qed.

Lemma isBusinessDayFromDB_three_answers_witness :
  let response := {| data := None; error := Some Pg.no_rows |} in
  let answer := isBusinessDayFromDB (Ret (λ _, Ret response)) "2024-01-13" in
  (answer = Ret None
   ↔ match error response with
     | Some e => Pg.code e = Pg.NO_ROWS_RETURNED
     | None => data response = None
     end)
  ∧ (∀ b, answer = Ret (Some b)
          ↔ error response = None
            ∧ ∃ row, data response = Some row ∧ is_business_day row = b)
  ∧ (∀ message, answer = Throw message
          ↔ ∃ e, error response = Some e
                 ∧ Pg.code e ≠ Pg.NO_ROWS_RETURNED
                 ∧ Pg.message e = message)
  ∧ (∀ item, error response = None →
       data response = Some (toTradingCalendarRecord item) →
       answer = Ret (Some true) ↔ HolDiv item = "1" ∨ HolDiv item = "2").
Proof.
  apply (isBusinessDayFromDB_three_answers
           (λ _, Ret {| data := None; error := Some Pg.no_rows |})
           "2024-01-13" {| data := None; error := Some Pg.no_rows |}).
  reflexivity.
Defined.

End TradingCalendarReadProofs.

(** * Progress reports of [batchUpsert]; the handler call of the route *)

Module ObserveProofs.
Import Js Batch Observe.

Section ProgressFacts.
Context {T : Type}.
Variable supabase : SupabaseClient T.
Variable table : string.
Variable onConflict : string.
Variable options : option BatchUpsertOptions.
Variable continue_on_error : bool.
Variable n_chunks : nat.
Variable total : nat.

Lemma progress_calls_app (a b : list (Event T)) :
  progress_calls (a ++ b) = progress_calls a ++ progress_calls b.
Proof. unfold progress_calls. apply omap_app. Qed.

Lemma notify_progress i (st st' : LoopState T) thrown :
  notify options total i st = (st', thrown) →
  st_inserted st' = st_inserted st
  ∧ (progress_calls (st_trace st') = progress_calls (st_trace st)
     ∨ progress_calls (st_trace st')
       = progress_calls (st_trace st) ++ [(i + 1, st_inserted st, total)]).
Proof.
  unfold notify. destruct (options ≫= onBatchComplete) as [callback|].
  - destruct (callback _ _ _); intros [= <- <-]; simpl;
      (split; [done |]); right; by rewrite progress_calls_app.
  - intros [= <- <-]. by split; [| left].
Qed.

(** One iteration makes at most one progress call, for its own batch
    number, with the count as it stands after the iteration. *)
Lemma iteration_progress i chunk (st st' : LoopState T) thrown :
  iteration supabase table onConflict options continue_on_error n_chunks total
    i chunk st = (st', thrown) →
  st_inserted st ≤ st_inserted st'
  ∧ (progress_calls (st_trace st') = progress_calls (st_trace st)
     ∨ progress_calls (st_trace st')
       = progress_calls (st_trace st) ++ [(i + 1, st_inserted st', total)]).
Proof.
  unfold iteration, try_chunk.
  destruct (upsert supabase i table chunk onConflict) as [[err cnt]|e]; simpl.
  - destruct err as [message|]; simpl.
    + destruct continue_on_error; simpl.
      * destruct (notify _ _ _ _) as [st1 thrown1] eqn:Hnotify.
        apply notify_progress in Hnotify as [Hins Hcalls]. simpl in *.
        rewrite progress_calls_app, app_nil_r in Hcalls.
        rewrite <- Hins in Hcalls.
        destruct thrown1; intros [= <- <-]; simpl; (split; [lia | done]).
      * intros [= <- <-]. simpl. split; [lia |]. left.
        by rewrite progress_calls_app, app_nil_r.
    + destruct (notify _ _ _ _) as [st1 thrown1] eqn:Hnotify.
      apply notify_progress in Hnotify as [Hins Hcalls]. simpl in *.
      rewrite progress_calls_app, app_nil_r in Hcalls.
      rewrite <- Hins in Hcalls.
      destruct thrown1 as [e|]; [destruct continue_on_error |];
        intros [= <- <-]; simpl; (split; [lia | done]).
  - destruct continue_on_error; intros [= <- <-]; simpl; (split; [lia |]);
      left; by rewrite progress_calls_app, app_nil_r.
Qed.

Lemma loop_progress rest : ∀ i (st st' : LoopState T) thrown,
  batchUpsert_loop supabase table onConflict options continue_on_error
    n_chunks total i rest st = (st', thrown) →
  ∃ calls,
    progress_calls (st_trace st') = progress_calls (st_trace st) ++ calls
    ∧ st_inserted st ≤ st_inserted st'
    ∧ Forall (λ c, i < c.1.1 ≤ i + length rest
                   ∧ st_inserted st ≤ c.1.2 ≤ st_inserted st'
                   ∧ c.2 = total) calls
    ∧ StronglySorted progresses calls.
Proof.
  induction rest as [|chunk rest IH]; intros i st st' thrown; simpl.
  - intros [= <- <-]. exists []. rewrite app_nil_r.
    split_and!; [done | done | constructor | constructor].
  - destruct (iteration _ _ _ _ _ _ _ _ _ _) as [st1 thrown1] eqn:Hit.
    apply iteration_progress in Hit as [Hins1 Hcalls1].
    assert (∃ calls1,
              progress_calls (st_trace st1)
              = progress_calls (st_trace st) ++ calls1
              ∧ (calls1 = [] ∨ calls1 = [(i + 1, st_inserted st1, total)]))
      as (calls1 & Heq1 & Hshape1).
    { destruct Hcalls1 as [Hsame|Hone].
      - exists []. rewrite app_nil_r. by split; [| left].
      - eexists. split; [exact Hone | by right]. }
    destruct thrown1 as [e|].
    + intros [= <- <-]. exists calls1. split_and!; [done | done | |].
      * destruct Hshape1 as [->| ->]; constructor; [| constructor].
        simpl. lia.
      * destruct Hshape1 as [->| ->]; repeat constructor.
    + intros Hrun. apply IH in Hrun as (calls & Heq & Hins & Hall & Hsorted).
      exists (calls1 ++ calls). split_and!.
      * by rewrite Heq, Heq1, app_assoc.
      * lia.
      * apply Forall_app. split.
        -- destruct Hshape1 as [->| ->]; constructor; [| constructor].
           simpl. lia.
        -- eapply Forall_impl; [exact Hall |]. simpl. intros c Hc. lia.
      * destruct Hshape1 as [->| ->]; [done |]. simpl.
        constructor; [done |].
        eapply Forall_impl; [exact Hall |]. unfold progresses. simpl.
        intros c Hc. lia.
Qed.

End ProgressFacts.

(** X26. Whatever the backend answers and whatever the options, the
    progress callback of [batchUpsert] sees a consistent account: its
    calls come with strictly increasing batch numbers starting at 1 or
    later (at most one call per batch), with a count of inserted rows
    that never decreases, and always with [data.length] as the total;
    and when [batchUpsert] returns, no call has reported more rows
    than the returned [inserted] or a batch number beyond
    [batchCount]. *)
Theorem batchUpsert_progress_reports {T : Type} (supabase : SupabaseClient T)
    (table : string) (data : list T) (onConflict : string)
    (options : option BatchUpsertOptions)
    (outcome : Outcome BatchUpsertResult) (trace : list (Event T)) :
  batchUpsert supabase table data onConflict options = Some (outcome, trace) →
  Forall (λ c, 1 ≤ c.1.1 ∧ c.2 = length data) (progress_calls trace)
  ∧ StronglySorted progresses (progress_calls trace)
  ∧ (∀ result, outcome = Ret result →
       Forall (λ c, c.1.1 ≤ batchCount result ∧ c.1.2 ≤ inserted result)
         (progress_calls trace)).
Proof.
  unfold batchUpsert. destruct (length data =? 0).
  { intros [= <- <-]. split_and!; [constructor | constructor |].
    intros result _. constructor. }
  destruct (chunkArray data (effective_batch_size table options))
    as [chunks|]; [| done]. simpl.
  destruct (batchUpsert_loop _ _ _ _ _ _ _ _ _ _) as [st thrown] eqn:Hloop.
  apply loop_progress in Hloop as (calls & Heq & _ & Hall & Hsorted).
  simpl in Heq. intros [= <- <-]. rewrite Heq.
  split_and!.
  - eapply Forall_impl; [exact Hall |]. simpl. intros c Hc. lia.
  - done.
  - intros result Hret. destruct thrown as [e|]; [done |].
    injection Hret as <-. simpl.
    eapply Forall_impl; [exact Hall |]. simpl. intros c Hc. lia.
Qed.

Lemma batchUpsert_progress_reports_witness :
  Forall (λ c, 1 ≤ c.1.1 ∧ c.2 = length [10; 20; 30])
    (progress_calls
       [EvUpsert "test_table" [10; 20; 30] "id"; EvBatchComplete 1 3 3])
  ∧ StronglySorted progresses
      (progress_calls
         [EvUpsert "test_table" [10; 20; 30] "id"; EvBatchComplete 1 3 3])
  ∧ (∀ result,
       Ret {| inserted := 3; errors := []; batchCount := 1 |} = Ret result →
       Forall (λ c, c.1.1 ≤ batchCount result ∧ c.1.2 ≤ inserted result)
         (progress_calls
            [EvUpsert "test_table" [10; 20; 30] "id"; EvBatchComplete 1 3 3])).
Proof.
  apply (batchUpsert_progress_reports echo_backend "test_table" [10; 20; 30]
           "id" InvestorTypes.log_batch_complete
           (Ret {| inserted := 3; errors := []; batchCount := 1 |})
           [EvUpsert "test_table" [10; 20; 30] "id"; EvBatchComplete 1 3 3]).
  vm_compute. reflexivity.
Defined.

Import CronB.

Local Ltac next_call :=
  match goal with
  | H : context [requireCronAuth ?e] |- _ =>
      destruct (requireCronAuth e)
  | H : context [createAdminClient ?e] |- _ =>
      destruct (createAdminClient e) as [[]|?]
  | H : context [acquireLock ?e ?w ?j ?t] |- _ =>
      destruct (acquireLock e w j t) as [[[[] ? ?]|?] ?]
  | H : context [startJobRun ?e ?w ?j] |- _ =>
      destruct (startJobRun e w j) as [[[? ?]|?] ?]
  | H : context [handleCronB ?e ?w ?r] |- _ =>
      destruct (handleCronB e w r) as [[?|?] ?]
  | H : context [completeJobRun ?e ?w ?r ?s ?m] |- _ =>
      destruct (completeJobRun e w r s m) as [[[]|?] ?]
  | H : context [updateHeartbeat ?e ?w ?j ?s ?r ?m] |- _ =>
      destruct (updateHeartbeat e w j s r m) as [[[]|?] ?]
  | H : context [releaseLock ?e ?w ?j ?t] |- _ =>
      destruct (releaseLock e w j t) as [[[]|?] ?]
  | H : context [truthy ?x] |- _ => destruct (truthy x)
  end; cbn [world trace local_runId fst snd negb success token runId
            start_error app] in *.

(** X27. On every path through the Cron B route - whatever the
    collaborators answer, resolve or reject - the handler is called at
    most once, and never unguarded: when it is called, the calls
    before it are exactly the lock attempt, [startJobRun] and the
    'running' heartbeat for the same run id, and the last call of the
    request is [releaseLock]. *)
Theorem POST_handler_called_once_under_lock {World : Type} (env : Env World)
    (w : World) :
  let calls := CronB.trace (POST env (initial w)).2 in
  length (List.filter is_handler calls) ≤ 1
  ∧ ∀ run, In (EvHandleCronB run) calls →
      take 4 calls
      = [EvAcquireLock JOB_NAME LOCK_TTL_SECONDS;
         EvStartJobRun JOB_NAME;
         EvUpdateHeartbeat JOB_NAME Running run None;
         EvHandleCronB run]
      ∧ ∃ lockToken, last calls = Some (EvReleaseLock JOB_NAME lockToken).
Proof.
  intros calls. remember calls as observed eqn:Hcalls. unfold calls in Hcalls.
  clear calls.
  unfold POST, try_finally, try_catch, try_block, catch_block, finally_block,
    allSettled2, try_catch, bind, call, set_runId, get_runId, json, ret,
    initial in Hcalls.
  cbn [world trace local_runId fst snd] in Hcalls.
  repeat next_call;
    subst observed; simpl;
    (split; [lia |]);
    intros run Hin;
    repeat (destruct Hin as [Hin|Hin];
            [try discriminate Hin;
             try (injection Hin as <-; split; [reflexivity | by eexists]) |]);
    done.
Qed.

End ObserveProofs.

(** * The cron routes A, B and C release the lock *)

Module CronRoutesProofs.
Import Js.

Section MonadFacts.
Context {World Event : Type}.
Variable mark : Event → bool.

Lemma route_quiet_ret {A : Type} (a : A) :
  Route.quiet mark (Route.ret (World := World) (Event := Event) a).
Proof. intros st. exists []. by rewrite app_nil_r. Qed.

Lemma route_quiet_bind {A B : Type} (m : Route.M World Event A)
    (k : A → Route.M World Event B) :
  Route.quiet mark m → (∀ a, Route.quiet mark (k a)) →
  Route.quiet mark (Route.bind m k).
Proof.
  intros Hm Hk st. unfold Route.bind.
  destruct (Hm st) as (added & Htr & Hq).
  destruct (m st) as [[a|e] st'] eqn:Hrun; simpl in *.
  - destruct (Hk a st') as (added' & Htr' & Hq').
    exists (added ++ added'). split.
    + by rewrite Htr', Htr, app_assoc.
    + by apply Forall_app.
  - by exists added.
Qed.

Lemma route_quiet_call {A : Type} (e : Event)
    (f : World → Outcome A * World) :
  mark e = false → Route.quiet mark (Route.call e f).
Proof.
  intros He st. unfold Route.call. destruct (f (Route.world st)) as [r w].
  simpl. exists [e]. split; [done |]. by constructor.
Qed.

Lemma route_quiet_set_runId (r : string) :
  Route.quiet mark (Route.set_runId (World := World) (Event := Event) r).
Proof. intros st. exists []. by rewrite app_nil_r. Qed.

Lemma route_quiet_get_runId :
  Route.quiet mark (Route.get_runId (World := World) (Event := Event)).
Proof. intros st. exists []. by rewrite app_nil_r. Qed.

Lemma route_quiet_try_catch {A : Type} (m : Route.M World Event A)
    (h : string → Route.M World Event A) :
  Route.quiet mark m → (∀ e, Route.quiet mark (h e)) →
  Route.quiet mark (Route.try_catch m h).
Proof.
  intros Hm Hh st. unfold Route.try_catch.
  destruct (Hm st) as (added & Htr & Hq).
  destruct (m st) as [[a|e] st'] eqn:Hrun; simpl in *.
  - by exists added.
  - destruct (Hh e st') as (added' & Htr' & Hq').
    exists (added ++ added'). split.
    + by rewrite Htr', Htr, app_assoc.
    + by apply Forall_app.
Qed.

Lemma route_quiet_all2 (second_first : bool)
    (a b : Route.M World Event unit) :
  Route.quiet mark a → Route.quiet mark b →
  Route.quiet mark (Route.all2 second_first a b).
Proof.
  intros Ha Hb st. unfold Route.all2.
  destruct (Ha st) as (added & Htr & Hq).
  destruct (a st) as [ra st1]. simpl in *.
  destruct (Hb st1) as (added' & Htr' & Hq').
  destruct (b st1) as [rb st2]. simpl in *.
  exists (added ++ added'). split.
  - by rewrite Htr', Htr, app_assoc.
  - by apply Forall_app.
Qed.

Lemma route_returns_ret {A : Type} (a : A) :
  Route.returns (Route.ret (World := World) (Event := Event) a).
Proof. intros st. by exists a. Qed.

Lemma route_returns_bind {A B : Type} (m : Route.M World Event A)
    (k : A → Route.M World Event B) :
  Route.returns m → (∀ a, Route.returns (k a)) →
  Route.returns (Route.bind m k).
Proof.
  intros Hm Hk st. unfold Route.bind. destruct (Hm st) as [a Ha].
  destruct (m st) as [[a'|e] st']; simpl in Ha; [apply Hk | discriminate].
Qed.

Lemma route_returns_try_catch {A : Type} (m : Route.M World Event A)
    (h : string → Route.M World Event A) :
  (∀ e, Route.returns (h e)) → Route.returns (Route.try_catch m h).
Proof.
  intros Hh st. unfold Route.try_catch.
  destruct (m st) as [[a|e] st']; [by exists a | apply Hh].
Qed.

Lemma route_returns_get_runId :
  Route.returns (Route.get_runId (World := World) (Event := Event)).
Proof. intros st. by eexists. Qed.

(** [try { m } finally { try { await release } catch {} }] around a
    body that always returns: the release is run once, on the world
    that the body leaves, and does not touch the response. *)
Lemma route_release_in_finally {A : Type} (m : Route.M World Event A)
    (e : Event) (release : World → Outcome unit * World)
    (st : Route.State World Event) :
  Route.returns m → Route.quiet mark m →
  ∃ a st1 st2,
    m st = (Ret a, st1)
    ∧ (∃ added, Route.trace st1 = Route.trace st ++ added
                ∧ Forall (λ e, mark e = false) added)
    ∧ Route.try_finally m
        (Route.try_catch (Route.call e release) (λ _, Route.ret ())) st
      = (Ret a, st2)
    ∧ Route.trace st2 = Route.trace st1 ++ [e]
    ∧ Route.world st2 = (release (Route.world st1)).2.
Proof.
  intros Hret Hquiet.
  destruct (Hret st) as [a Ha]. destruct (Hquiet st) as (added & Htr & Hq).
  destruct (m st) as [r st1] eqn:Hrun. simpl in *. subst r.
  unfold Route.try_finally. rewrite Hrun.
  unfold Route.try_catch, Route.call, Route.ret.
  destruct (release (Route.world st1)) as [[[]|e1] w2] eqn:Hrelease;
    eexists a, st1, _;
    (split_and!;
       [reflexivity | by exists added | reflexivity | reflexivity
       | by rewrite Hrelease]).
Qed.

End MonadFacts.

Local Ltac route_quiet_steps :=
  repeat first
    [ apply route_quiet_ret
    | apply route_quiet_get_runId
    | apply route_quiet_set_runId
    | apply route_quiet_call; reflexivity
    | apply route_quiet_all2
    | apply route_quiet_try_catch; [| intros ?]
    | apply route_quiet_bind; [| intros ?]
    | match goal with |- Route.quiet _ (if ?c then _ else _) => destruct c end ].

(** *** Route A *)

Lemma cron_a_try_quiet {World : Type} (env : CronA.Env World) dataset :
  Route.quiet CronA.is_release (CronA.try_block env dataset).
Proof.
  unfold CronA.try_block, CronA.json. route_quiet_steps.
Qed.

Lemma cron_a_catch_quiet {World : Type} (env : CronA.Env World) e :
  Route.quiet CronA.is_release (CronA.catch_block env e).
Proof.
  unfold CronA.catch_block, Route.allSettled2, CronA.json. route_quiet_steps.
Qed.

Lemma cron_a_catch_returns {World : Type} (env : CronA.Env World) e :
  Route.returns (CronA.catch_block env e).
Proof.
  unfold CronA.catch_block, Route.allSettled2, CronA.json.
  apply route_returns_bind; [apply route_returns_get_runId | intros run].
  apply route_returns_bind; [| intros ?; apply route_returns_ret].
  destruct (CronB.truthy (Some run)); [| apply route_returns_ret].
  apply route_returns_bind; [| intros ?];
    apply route_returns_try_catch; intros ?; apply route_returns_ret.
Qed.

Lemma cron_a_after_acquire {World : Type} (env : CronA.Env World)
    (w w1 : World) (requestBody dataset : string)
    (lockResult : CronB.LockResult) :
  CronA.requireCronAuth env = None →
  CronA.requestJson env = Ret requestBody →
  CronA.safeParse env requestBody = Some dataset →
  CronA.createAdminClient env = Ret () →
  CronA.acquireLock env w CronA.JOB_NAME CronA.LOCK_TTL_SECONDS
    = (Ret lockResult, w1) →
  CronB.success lockResult = true →
  CronA.POST env (Route.initial w)
  = Route.try_finally
      (Route.try_catch (CronA.try_block env dataset) (CronA.catch_block env))
      (CronA.finally_block env (CronB.token lockResult))
      {| Route.world := w1;
         Route.trace := [CronA.EvAcquireLock CronA.JOB_NAME
                           CronA.LOCK_TTL_SECONDS];
         Route.local_runId := "" |}.
Proof.
  intros Hauth Hjson Hparse Hclient Hacq Hok. unfold CronA.POST.
  rewrite Hauth, Hjson, Hparse, Hclient.
  unfold Route.bind at 1. unfold Route.call at 1. simpl.
  rewrite Hacq, Hok. reflexivity.
Qed.

Lemma cron_a_releases_lock {World : Type} (env : CronA.Env World)
    (w w1 : World) (requestBody dataset : string)
    (lockResult : CronB.LockResult) :
  CronA.requireCronAuth env = None →
  CronA.requestJson env = Ret requestBody →
  CronA.safeParse env requestBody = Some dataset →
  CronA.createAdminClient env = Ret () →
  CronA.acquireLock env w CronA.JOB_NAME CronA.LOCK_TTL_SECONDS
    = (Ret lockResult, w1) →
  CronB.success lockResult = true →
  ∃ response st1 st,
    Route.try_catch (CronA.try_block env dataset) (CronA.catch_block env)
      {| Route.world := w1;
         Route.trace := [CronA.EvAcquireLock CronA.JOB_NAME
                           CronA.LOCK_TTL_SECONDS];
         Route.local_runId := "" |}
    = (Ret response, st1)
    ∧ Forall (λ e, CronA.is_release e = false) (Route.trace st1)
    ∧ CronA.POST env (Route.initial w) = (Ret response, st)
    ∧ Route.trace st
      = Route.trace st1
        ++ [CronA.EvReleaseLock CronA.JOB_NAME (CronB.token lockResult)]
    ∧ Route.world st
      = (CronA.releaseLock env (Route.world st1) CronA.JOB_NAME
           (CronB.token lockResult)).2
    ∧ ∀ release,
        (CronA.POST (CronA.with_releaseLock env release) (Route.initial w)).1
        = Ret response.
Proof.
  intros Hauth Hjson Hparse Hclient Hacq Hok.
  set (st0 := {| Route.world := w1;
                 Route.trace := [CronA.EvAcquireLock CronA.JOB_NAME
                                   CronA.LOCK_TTL_SECONDS];
                 Route.local_runId := "" |}).
  assert (Hreturns : Route.returns
            (Route.try_catch (CronA.try_block env dataset)
               (CronA.catch_block env))).
  { apply route_returns_try_catch. apply cron_a_catch_returns. }
  assert (Hquiet : Route.quiet CronA.is_release
            (Route.try_catch (CronA.try_block env dataset)
               (CronA.catch_block env))).
  { apply route_quiet_try_catch;
      [apply cron_a_try_quiet | apply cron_a_catch_quiet]. }
  assert (Hfin : ∀ release, ∃ a st1 st2,
            Route.try_catch (CronA.try_block env dataset)
              (CronA.catch_block env) st0 = (Ret a, st1)
            ∧ (∃ added, Route.trace st1 = Route.trace st0 ++ added
                        ∧ Forall (λ e, CronA.is_release e = false) added)
            ∧ Route.try_finally
                (Route.try_catch (CronA.try_block env dataset)
                   (CronA.catch_block env))
                (CronA.finally_block (CronA.with_releaseLock env release)
                   (CronB.token lockResult)) st0
              = (Ret a, st2)
            ∧ Route.trace st2
              = Route.trace st1
                ++ [CronA.EvReleaseLock CronA.JOB_NAME (CronB.token lockResult)]
            ∧ Route.world st2
              = (release (Route.world st1) CronA.JOB_NAME
                   (CronB.token lockResult)).2).
  { intros release.
    apply (route_release_in_finally CronA.is_release _
             (CronA.EvReleaseLock CronA.JOB_NAME (CronB.token lockResult))
             (λ w', release w' CronA.JOB_NAME (CronB.token lockResult))
             st0 Hreturns Hquiet). }
  destruct (Hfin (CronA.releaseLock env))
    as (response & st1 & st & Hrun & (added & Htr & Hq) & Hpost & Htrace & Hworld).
  exists response, st1, st. split_and!.
  - exact Hrun.
  - rewrite Htr. by constructor.
  - rewrite (cron_a_after_acquire env w w1 requestBody dataset lockResult)
      by done. exact Hpost.
  - exact Htrace.
  - exact Hworld.
  - intros release.
    rewrite (cron_a_after_acquire (CronA.with_releaseLock env release) w w1
               requestBody dataset lockResult) by done.
    destruct (Hfin release) as (a & st1' & st' & Hrun' & _ & Hpost' & _).
    rewrite Hrun in Hrun'. injection Hrun' as <- <-.
    change (CronA.try_block (CronA.with_releaseLock env release) dataset)
      with (CronA.try_block env dataset).
    change (CronA.catch_block (CronA.with_releaseLock env release))
      with (CronA.catch_block env).
    fold st0. by rewrite Hpost'.
Qed.

(** *** Route C *)

Lemma cron_c_try_quiet {World : Type} (env : CronC.Env World) :
  Route.quiet CronC.is_release (CronC.try_block env).
Proof.
  unfold CronC.try_block, CronC.json. route_quiet_steps.
Qed.

Lemma cron_c_catch_quiet {World : Type} (env : CronC.Env World) e :
  Route.quiet CronC.is_release (CronC.catch_block env e).
Proof.
  unfold CronC.catch_block, Route.allSettled2, CronC.json. route_quiet_steps.
Qed.

Lemma cron_c_catch_returns {World : Type} (env : CronC.Env World) e :
  Route.returns (CronC.catch_block env e).
Proof.
  unfold CronC.catch_block, Route.allSettled2, CronC.json.
  apply route_returns_bind; [apply route_returns_get_runId | intros run].
  apply route_returns_bind; [| intros ?; apply route_returns_ret].
  destruct (CronB.truthy (Some run)); [| apply route_returns_ret].
  apply route_returns_bind; [| intros ?];
    apply route_returns_try_catch; intros ?; apply route_returns_ret.
Qed.

Lemma cron_c_after_acquire {World : Type} (env : CronC.Env World)
    (w w1 : World) (lockResult : CronB.LockResult) :
  CronC.requireCronAuth env = None →
  CronC.createAdminClient env = Ret () →
  CronC.acquireLock env w CronC.JOB_NAME CronC.LOCK_TTL_SECONDS
    = (Ret lockResult, w1) →
  CronB.success lockResult = true →
  CronC.POST env (Route.initial w)
  = Route.try_finally
      (Route.try_catch (CronC.try_block env) (CronC.catch_block env))
      (CronC.finally_block env (CronB.token lockResult))
      {| Route.world := w1;
         Route.trace := [CronC.EvAcquireLock CronC.JOB_NAME
                           CronC.LOCK_TTL_SECONDS];
         Route.local_runId := "" |}.
Proof.
  intros Hauth Hclient Hacq Hok. unfold CronC.POST.
  rewrite Hauth, Hclient.
  unfold Route.bind at 1. unfold Route.call at 1. simpl.
  rewrite Hacq, Hok. reflexivity.
Qed.

Lemma cron_c_releases_lock {World : Type} (env : CronC.Env World)
    (w w1 : World) (lockResult : CronB.LockResult) :
  CronC.requireCronAuth env = None →
  CronC.createAdminClient env = Ret () →
  CronC.acquireLock env w CronC.JOB_NAME CronC.LOCK_TTL_SECONDS
    = (Ret lockResult, w1) →
  CronB.success lockResult = true →
  ∃ response st1 st,
    Route.try_catch (CronC.try_block env) (CronC.catch_block env)
      {| Route.world := w1;
         Route.trace := [CronC.EvAcquireLock CronC.JOB_NAME
                           CronC.LOCK_TTL_SECONDS];
         Route.local_runId := "" |}
    = (Ret response, st1)
    ∧ Forall (λ e, CronC.is_release e = false) (Route.trace st1)
    ∧ CronC.POST env (Route.initial w) = (Ret response, st)
    ∧ Route.trace st
      = Route.trace st1
        ++ [CronC.EvReleaseLock CronC.JOB_NAME (CronB.token lockResult)]
    ∧ Route.world st
      = (CronC.releaseLock env (Route.world st1) CronC.JOB_NAME
           (CronB.token lockResult)).2
    ∧ ∀ release,
        (CronC.POST (CronC.with_releaseLock env release) (Route.initial w)).1
        = Ret response.
Proof.
  intros Hauth Hclient Hacq Hok.
  set (st0 := {| Route.world := w1;
                 Route.trace := [CronC.EvAcquireLock CronC.JOB_NAME
                                   CronC.LOCK_TTL_SECONDS];
                 Route.local_runId := "" |}).
  assert (Hreturns : Route.returns
            (Route.try_catch (CronC.try_block env) (CronC.catch_block env))).
  { apply route_returns_try_catch. apply cron_c_catch_returns. }
  assert (Hquiet : Route.quiet CronC.is_release
            (Route.try_catch (CronC.try_block env) (CronC.catch_block env))).
  { apply route_quiet_try_catch;
      [apply cron_c_try_quiet | apply cron_c_catch_quiet]. }
  assert (Hfin : ∀ release, ∃ a st1 st2,
            Route.try_catch (CronC.try_block env) (CronC.catch_block env) st0
            = (Ret a, st1)
            ∧ (∃ added, Route.trace st1 = Route.trace st0 ++ added
                        ∧ Forall (λ e, CronC.is_release e = false) added)
            ∧ Route.try_finally
                (Route.try_catch (CronC.try_block env) (CronC.catch_block env))
                (CronC.finally_block (CronC.with_releaseLock env release)
                   (CronB.token lockResult)) st0
              = (Ret a, st2)
            ∧ Route.trace st2
              = Route.trace st1
                ++ [CronC.EvReleaseLock CronC.JOB_NAME (CronB.token lockResult)]
            ∧ Route.world st2
              = (release (Route.world st1) CronC.JOB_NAME
                   (CronB.token lockResult)).2).
  { intros release.
    apply (route_release_in_finally CronC.is_release _
             (CronC.EvReleaseLock CronC.JOB_NAME (CronB.token lockResult))
             (λ w', release w' CronC.JOB_NAME (CronB.token lockResult))
             st0 Hreturns Hquiet). }
  destruct (Hfin (CronC.releaseLock env))
    as (response & st1 & st & Hrun & (added & Htr & Hq) & Hpost & Htrace & Hworld).
  exists response, st1, st. split_and!.
  - exact Hrun.
  - rewrite Htr. by constructor.
  - rewrite (cron_c_after_acquire env w w1 lockResult) by done. exact Hpost.
  - exact Htrace.
  - exact Hworld.
  - intros release.
    rewrite (cron_c_after_acquire (CronC.with_releaseLock env release) w w1
               lockResult) by done.
    destruct (Hfin release) as (a & st1' & st' & Hrun' & _ & Hpost' & _).
    rewrite Hrun in Hrun'. injection Hrun' as <- <-.
    change (CronC.try_block (CronC.with_releaseLock env release))
      with (CronC.try_block env).
    change (CronC.catch_block (CronC.with_releaseLock env release))
      with (CronC.catch_block env).
    fold st0. by rewrite Hpost'.
Qed.

(** C9. In every execution of a cron entrypoint - the routes A, B and
    C - in which [acquireLock] succeeds, the handler returns a response
    (it does not throw) and [releaseLock] is run: the [try]/[catch]
    pair completes with the response without calling [releaseLock],
    whatever happened in it - normal completion, a failure reported by
    the handler, the already-executed early return, or an exception -;
    then [releaseLock] is called exactly once, as the last call of the
    request, for the job name of the route and the token that
    [acquireLock] returned, and the world the request leaves is the one
    that this call of [releaseLock] makes; and the response is the same
    whatever [releaseLock] itself does, a rejection included. *)
Theorem POST_always_releases_lock :
  (∀ (World : Type) (env : CronA.Env World) (w w1 : World)
     (requestBody dataset : string) (lockResult : CronB.LockResult),
     CronA.requireCronAuth env = None →
     CronA.requestJson env = Ret requestBody →
     CronA.safeParse env requestBody = Some dataset →
     CronA.createAdminClient env = Ret () →
     CronA.acquireLock env w CronA.JOB_NAME CronA.LOCK_TTL_SECONDS
       = (Ret lockResult, w1) →
     CronB.success lockResult = true →
     ∃ response st1 st,
       Route.try_catch (CronA.try_block env dataset) (CronA.catch_block env)
         {| Route.world := w1;
            Route.trace := [CronA.EvAcquireLock CronA.JOB_NAME
                              CronA.LOCK_TTL_SECONDS];
            Route.local_runId := "" |}
       = (Ret response, st1)
       ∧ Forall (λ e, CronA.is_release e = false) (Route.trace st1)
       ∧ CronA.POST env (Route.initial w) = (Ret response, st)
       ∧ Route.trace st
         = Route.trace st1
           ++ [CronA.EvReleaseLock CronA.JOB_NAME (CronB.token lockResult)]
       ∧ Route.world st
         = (CronA.releaseLock env (Route.world st1) CronA.JOB_NAME
              (CronB.token lockResult)).2
       ∧ ∀ release,
           (CronA.POST (CronA.with_releaseLock env release)
              (Route.initial w)).1
           = Ret response)
  ∧ (∀ (World : Type) (env : CronB.Env World) (w w1 : World)
       (lockResult : CronB.LockResult),
       CronB.requireCronAuth env = None →
       CronB.createAdminClient env = Ret () →
       CronB.acquireLock env w CronB.JOB_NAME CronB.LOCK_TTL_SECONDS
         = (Ret lockResult, w1) →
       CronB.success lockResult = true →
       ∃ response st1 st,
         CronB.try_catch (CronB.try_block env) (CronB.catch_block env)
           {| CronB.world := w1;
              CronB.trace := [CronB.EvAcquireLock CronB.JOB_NAME
                                CronB.LOCK_TTL_SECONDS];
              CronB.local_runId := "" |}
         = (Ret response, st1)
         ∧ Forall (λ e, CronB.is_release e = false) (CronB.trace st1)
         ∧ CronB.POST env (CronB.initial w) = (Ret response, st)
         ∧ CronB.trace st
           = CronB.trace st1
             ++ [CronB.EvReleaseLock CronB.JOB_NAME (CronB.token lockResult)]
         ∧ CronB.world st
           = (CronB.releaseLock env (CronB.world st1) CronB.JOB_NAME
                (CronB.token lockResult)).2
         ∧ ∀ release,
             (CronB.POST (CronB.with_releaseLock env release)
                (CronB.initial w)).1
             = Ret response)
  ∧ (∀ (World : Type) (env : CronC.Env World) (w w1 : World)
       (lockResult : CronB.LockResult),
       CronC.requireCronAuth env = None →
       CronC.createAdminClient env = Ret () →
       CronC.acquireLock env w CronC.JOB_NAME CronC.LOCK_TTL_SECONDS
         = (Ret lockResult, w1) →
       CronB.success lockResult = true →
       ∃ response st1 st,
         Route.try_catch (CronC.try_block env) (CronC.catch_block env)
           {| Route.world := w1;
              Route.trace := [CronC.EvAcquireLock CronC.JOB_NAME
                                CronC.LOCK_TTL_SECONDS];
              Route.local_runId := "" |}
         = (Ret response, st1)
         ∧ Forall (λ e, CronC.is_release e = false) (Route.trace st1)
         ∧ CronC.POST env (Route.initial w) = (Ret response, st)
         ∧ Route.trace st
           = Route.trace st1
             ++ [CronC.EvReleaseLock CronC.JOB_NAME (CronB.token lockResult)]
         ∧ Route.world st
           = (CronC.releaseLock env (Route.world st1) CronC.JOB_NAME
                (CronB.token lockResult)).2
         ∧ ∀ release,
             (CronC.POST (CronC.with_releaseLock env release)
                (Route.initial w)).1
             = Ret response).
Proof.
  split_and!.
  - intros World env w w1 requestBody dataset lockResult.
    apply cron_a_releases_lock.
  - intros World env w w1 lockResult. apply CronBProofs.cron_b_releases_lock.
  - intros World env w w1 lockResult. apply cron_c_releases_lock.
Qed.

Lemma POST_always_releases_lock_witness :
  (∃ response st1 st,
     Route.try_catch
       (CronA.try_block (CronA.counting_env (Throw "boom")) "topix")
       (CronA.catch_block (CronA.counting_env (Throw "boom")))
       {| Route.world := 1;
          Route.trace := [CronA.EvAcquireLock CronA.JOB_NAME
                            CronA.LOCK_TTL_SECONDS];
          Route.local_runId := "" |}
     = (Ret response, st1)
     ∧ Forall (λ e, CronA.is_release e = false) (Route.trace st1)
     ∧ CronA.POST (CronA.counting_env (Throw "boom")) (Route.initial 0)
       = (Ret response, st)
     ∧ Route.trace st
       = Route.trace st1
         ++ [CronA.EvReleaseLock CronA.JOB_NAME
               (CronB.token {| CronB.success := true;
                               CronB.token := Some "tok";
                               CronB.lock_error := None |})]
     ∧ Route.world st
       = (CronA.releaseLock (CronA.counting_env (Throw "boom"))
            (Route.world st1) CronA.JOB_NAME
            (CronB.token {| CronB.success := true;
                            CronB.token := Some "tok";
                            CronB.lock_error := None |})).2
     ∧ ∀ release,
         (CronA.POST
            (CronA.with_releaseLock (CronA.counting_env (Throw "boom"))
               release)
            (Route.initial 0)).1
         = Ret response)
  ∧ (∃ response st1 st,
       CronB.try_catch
         (CronB.try_block
            (CronBCases.failing_final_heartbeat_env
               CronBCases.handler_success_result))
         (CronB.catch_block
            (CronBCases.failing_final_heartbeat_env
               CronBCases.handler_success_result))
         {| CronB.world := 1;
            CronB.trace := [CronB.EvAcquireLock CronB.JOB_NAME
                              CronB.LOCK_TTL_SECONDS];
            CronB.local_runId := "" |}
       = (Ret response, st1)
       ∧ Forall (λ e, CronB.is_release e = false) (CronB.trace st1)
       ∧ CronB.POST
           (CronBCases.failing_final_heartbeat_env
              CronBCases.handler_success_result) (CronB.initial 0)
         = (Ret response, st)
       ∧ CronB.trace st
         = CronB.trace st1
           ++ [CronB.EvReleaseLock CronB.JOB_NAME
                 (CronB.token {| CronB.success := true;
                                 CronB.token := Some "tok";
                                 CronB.lock_error := None |})]
       ∧ CronB.world st
         = (CronB.releaseLock
              (CronBCases.failing_final_heartbeat_env
                 CronBCases.handler_success_result)
              (CronB.world st1) CronB.JOB_NAME
              (CronB.token {| CronB.success := true;
                              CronB.token := Some "tok";
                              CronB.lock_error := None |})).2
       ∧ ∀ release,
           (CronB.POST
              (CronB.with_releaseLock
                 (CronBCases.failing_final_heartbeat_env
                    CronBCases.handler_success_result) release)
              (CronB.initial 0)).1
           = Ret response)
  ∧ (∃ response st1 st,
       Route.try_catch (CronC.try_block CronC.counting_env)
         (CronC.catch_block CronC.counting_env)
         {| Route.world := 1;
            Route.trace := [CronC.EvAcquireLock CronC.JOB_NAME
                              CronC.LOCK_TTL_SECONDS];
            Route.local_runId := "" |}
       = (Ret response, st1)
       ∧ Forall (λ e, CronC.is_release e = false) (Route.trace st1)
       ∧ CronC.POST CronC.counting_env (Route.initial 0) = (Ret response, st)
       ∧ Route.trace st
         = Route.trace st1
           ++ [CronC.EvReleaseLock CronC.JOB_NAME
                 (CronB.token {| CronB.success := true;
                                 CronB.token := Some "tok";
                                 CronB.lock_error := None |})]
       ∧ Route.world st
         = (CronC.releaseLock CronC.counting_env (Route.world st1)
              CronC.JOB_NAME
              (CronB.token {| CronB.success := true;
                              CronB.token := Some "tok";
                              CronB.lock_error := None |})).2
       ∧ ∀ release,
           (CronC.POST (CronC.with_releaseLock CronC.counting_env release)
              (Route.initial 0)).1
           = Ret response).
Proof.
  split_and!.
  - apply (proj1 POST_always_releases_lock nat
             (CronA.counting_env (Throw "boom")) 0 1 "{dataset: topix}"
             "topix"
             {| CronB.success := true; CronB.token := Some "tok";
                CronB.lock_error := None |});
      reflexivity.
  - apply (proj1 (proj2 POST_always_releases_lock) nat
             (CronBCases.failing_final_heartbeat_env
                CronBCases.handler_success_result) 0 1
             {| CronB.success := true; CronB.token := Some "tok";
                CronB.lock_error := None |});
      reflexivity.
  - apply (proj2 (proj2 POST_always_releases_lock) nat
             CronC.counting_env 0 1
             {| CronB.success := true; CronB.token := Some "tok";
                CronB.lock_error := None |});
      reflexivity.
Defined.

End CronRoutesProofs.
